(** * Greenlight API: admission control, bearer tokens, permission gates
      and optimistic locking

    A shallow embedding of the Go sources of the Greenlight JSON API
    (rate limiter, token model, authentication and permission middleware,
    versioned updates of movies and users) together with the properties
    stated about them.

    Layout: the embedding comes first, one module per package or source
    file ([Go], [Sha256], [Base32], [Sql], [validator], [Movies], [Users],
    [Tokens], [Permissions], [Credentials], [Http], [Rate], [Api]), then the
    vocabulary of the properties ([Props]) and sample data ([Samples]); the
    lemmas and theorems follow. *)

From Stdlib Require Import ZArith QArith.QArith_base Strings.String Strings.Ascii Strings.Byte.
From stdpp Require Import base option list gmap strings.

Local Open Scope string_scope.
Local Open Scope Z_scope.

(* ===================================================================== *)
(** ** Go values shared by all packages *)
(* ===================================================================== *)

Module Go.

(** The double quote, which occurs inside some driver messages. *)
Definition dquote : string := String (ascii_of_nat 34) EmptyString.

(** Go [error] values that the program creates or compares with.
    [errors.New] sentinels are constructors of their own; errors that come
    from the store driver, from [Scan], from the entropy source or from
    [net] carry their message. *)
Inductive error : Type :=
| ErrRecordNotFound            (* data.ErrRecordNotFound *)
| ErrEditConflict              (* data.ErrEditConflict *)
| ErrDuplicateEmail            (* data.ErrDuplicateEmail *)
| ErrNoRows                    (* sql.ErrNoRows *)
| DriverError (msg : string)   (* an error reported by the store driver *)
| ScanError (msg : string)     (* a conversion failure in Rows.Scan *)
| RandError (msg : string)     (* crypto/rand could not deliver *)
| AddrError (msg : string).    (* net.SplitHostPort failure *)

(** [err.Error()] *)
Definition Error (e : error) : string :=
  match e with
  | ErrRecordNotFound => "record not found"
  | ErrEditConflict => "edit conflict"
  | ErrDuplicateEmail => "duplicate email"
  | ErrNoRows => "sql: no rows in result set"
  | DriverError msg => msg
  | ScanError msg => msg
  | RandError msg => msg
  | AddrError msg => msg
  end.

#[global] Instance error_eq_dec : EqDecision error.
Proof. solve_decision. Defined.

(** A call that either yields a value or an error: Go's [(T, error)]
    where exactly one side is meaningful. *)
Inductive result (A : Type) : Type :=
| Ok (a : A)
| Err (e : error).
Arguments Ok {A} a.
Arguments Err {A} e.

(** A call that either returns or panics. *)
Inductive run (A : Type) : Type :=
| Returns (a : A)
| Panics (msg : string).
Arguments Returns {A} a.
Arguments Panics {A} msg.

(** Ranges of the fixed-width integer types that appear in the models. *)
Definition in_int32 (z : Z) : bool := (-2147483648 <=? z) && (z <=? 2147483647).
Definition in_int64 (z : Z) : bool :=
  (-9223372036854775808 <=? z) && (z <=? 9223372036854775807).

(** [len(s)] of a string and [[]byte(s)]. *)
Definition len (s : string) : Z := Z.of_nat (String.length s).
Definition bytes_of (s : string) : list byte := list_byte_of_string s.

#[global] Instance byte_eq_dec : EqDecision byte := Byte.byte_eq_dec.

End Go.
Export Go.

(* ===================================================================== *)
(** ** crypto/sha256 *)
(* ===================================================================== *)

Module Sha256.

Definition mask32 : Z := 0xFFFFFFFF.
Definition wrap32 (x : Z) : Z := Z.land x mask32.
Definition add32 (x y : Z) : Z := wrap32 (x + y).
Definition rotr (n x : Z) : Z :=
  wrap32 (Z.lor (Z.shiftr x n) (Z.shiftl x (32 - n))).
Definition not32 (x : Z) : Z := Z.lxor x mask32.

Definition Ch (x y z : Z) : Z := Z.lxor (Z.land x y) (Z.land (not32 x) z).
Definition Maj (x y z : Z) : Z :=
  Z.lxor (Z.lxor (Z.land x y) (Z.land x z)) (Z.land y z).
Definition bigSigma0 (x : Z) : Z := Z.lxor (Z.lxor (rotr 2 x) (rotr 13 x)) (rotr 22 x).
Definition bigSigma1 (x : Z) : Z := Z.lxor (Z.lxor (rotr 6 x) (rotr 11 x)) (rotr 25 x).
Definition smallSigma0 (x : Z) : Z := Z.lxor (Z.lxor (rotr 7 x) (rotr 18 x)) (Z.shiftr x 3).
Definition smallSigma1 (x : Z) : Z := Z.lxor (Z.lxor (rotr 17 x) (rotr 19 x)) (Z.shiftr x 10).

(** The round constants are the first 32 bits of the fractional parts of the
    cube roots of the first 64 primes; the initial hash value takes the
    square roots of the first 8 primes. *)
Definition is_prime (n : Z) : bool :=
  forallb (fun d => negb (n mod Z.of_nat d =? 0)) (seq 2 (Z.to_nat n - 2)).

Definition primes : list Z :=
  List.filter is_prime (map Z.of_nat (seq 2 310)).

Definition cube_root (n : Z) : Z :=
  fold_left (fun root bit =>
               let c := root + 2 ^ Z.of_nat bit in
               if c * c * c <=? n then c else root)
            (rev (seq 0 40)) 0.

Definition K : list Z :=
  Eval vm_compute in map (fun p => wrap32 (cube_root (p * 2 ^ 96))) primes.

Definition H0 : list Z :=
  Eval vm_compute in map (fun p => wrap32 (Z.sqrt (p * 2 ^ 64))) (take 8 primes).

Definition byteZ (b : byte) : Z := Z.of_N (Byte.to_N b).
Definition Zbyte (z : Z) : byte :=
  match Byte.of_N (Z.to_N (Z.land z 0xFF)) with Some b => b | None => x00 end.

(** Big-endian encodings of a length and of a word. *)
Definition be_bytes (width : nat) (z : Z) : list Z :=
  map (fun i => Z.land (Z.shiftr z (8 * Z.of_nat i)) 0xFF) (rev (seq 0 width)).

(** Message padding: 0x80, zeros up to 56 mod 64, then the bit length. *)
Definition pad (msg : list Z) : list Z :=
  let n := Z.of_nat (length msg) in
  let zeros := Z.to_nat ((55 - n) mod 64) in
  msg ++ 0x80 :: repeat 0 zeros ++ be_bytes 8 (8 * n).

Fixpoint words (bs : list Z) : list Z :=
  match bs with
  | a :: b :: c :: d :: rest =>
      Z.lor (Z.shiftl a 24) (Z.lor (Z.shiftl b 16) (Z.lor (Z.shiftl c 8) d))
      :: words rest
  | _ => []
  end.

(** The sixteen-word window of the message schedule, moved on by one. *)
Definition slide (win : list Z) : list Z :=
  let w i := nth i win 0 in
  let next := add32 (add32 (smallSigma1 (w 14%nat)) (w 9%nat))
                    (add32 (smallSigma0 (w 1%nat)) (w 0%nat)) in
  tl win ++ [next].

Definition round (st : list Z) (k w : Z) : list Z :=
  match st with
  | [a; b; c; d; e; f; g; h] =>
      let t1 := add32 (add32 (add32 h (bigSigma1 e)) (add32 (Ch e f g) k)) w in
      let t2 := add32 (bigSigma0 a) (Maj a b c) in
      [add32 t1 t2; a; b; c; add32 d t1; e; f; g]
  | _ => st
  end.

Fixpoint rounds (ks : list Z) (win st : list Z) : list Z :=
  match ks with
  | [] => st
  | k :: ks' => rounds ks' (slide win) (round st k (nth 0 win 0))
  end.

Definition block (h : list Z) (ws : list Z) : list Z :=
  zip_with add32 h (rounds K ws h).

Fixpoint blocks (n : nat) (h : list Z) (ws : list Z) : list Z :=
  match n with
  | O => h
  | S n' => blocks n' (block h (take 16 ws)) (drop 16 ws)
  end.

(** [sha256.Sum256]: the 32-byte digest of a byte string. *)
Definition Sum256 (msg : list byte) : list byte :=
  let ws := words (pad (map byteZ msg)) in
  let h := blocks (length ws / 16) H0 ws in
  map Zbyte (concat (map (be_bytes 4) h)).

End Sha256.

(* ===================================================================== *)
(** ** encoding/base32, standard alphabet, no padding *)
(* ===================================================================== *)

Module Base32.

Definition alphabet : string := "ABCDEFGHIJKLMNOPQRSTUVWXYZ234567".

Definition digit (z : Z) : ascii :=
  match String.get (Z.to_nat (Z.land z 31)) alphabet with
  | Some c => c
  | None => "A"%char
  end.

(** The eight digits of a 40-bit group, most significant first. *)
Definition group (v : Z) (count : nat) : list ascii :=
  map (fun i => digit (Z.shiftr v (35 - 5 * Z.of_nat i))) (seq 0 count).

Definition join (bs : list byte) : Z :=
  fold_left (fun acc b => Z.lor (Z.shiftl acc 8) (Sha256.byteZ b)) bs 0.

(** Full groups of five bytes give eight digits; a last group of
    1, 2, 3 or 4 bytes gives 2, 4, 5 or 7 digits and, without padding,
    nothing more. *)
Fixpoint digits (bs : list byte) : list ascii :=
  match bs with
  | [] => []
  | [a] => group (Z.shiftl (join [a]) 32) 2
  | [a; b] => group (Z.shiftl (join [a; b]) 24) 4
  | [a; b; c] => group (Z.shiftl (join [a; b; c]) 16) 5
  | [a; b; c; d] => group (Z.shiftl (join [a; b; c; d]) 8) 7
  | a :: b :: c :: d :: e :: rest => group (join [a; b; c; d; e]) 8 ++ digits rest
  end.

(** [base32.StdEncoding.WithPadding(base32.NoPadding).EncodeToString] *)
Definition EncodeToString (bs : list byte) : string :=
  string_of_list_ascii (digits bs).

End Base32.

(* ===================================================================== *)
(** ** The store: a small relational engine for the program's statements *)
(* ===================================================================== *)

(** The models talk to PostgreSQL through [database/sql] and hand it the text
    of a statement with positional arguments.  The store below reads that
    text: it splits it into lexemes, recognises the three statement forms the
    models use (INSERT .. VALUES, UPDATE .. SET .. WHERE .. RETURNING,
    DELETE .. WHERE) and runs them on tables of rows.  A text that is not a
    statement, or that names a relation or column the store does not have, is
    answered with the driver's error and changes nothing. *)

Module Sql.

Inductive Value : Type :=
| VNull
| VInt (z : Z)
| VText (s : string)
| VBytes (bs : list byte)
| VBool (b : bool)
| VTime (t : Z)                 (* an instant, in nanoseconds *)
| VArray (xs : list string).

#[global] Instance Value_eq_dec : EqDecision Value.
Proof. solve_decision. Defined.

Record Table : Type := mkTable {
  columns : list string;
  rows : list (gmap string Value)
}.

(** [journal] lists every statement sent to the store, oldest first.
    [refusal], when set, is a failure of the store itself (lost connection,
    expired deadline, violated constraint): the statement is answered with
    that driver error and not run. *)
Record DB : Type := mkDB {
  relations : gmap string Table;
  journal : list (string * list Value);
  refusal : option string
}.

(** *** Lexemes *)

Inductive token : Type :=
| TWord (w : string)
| TParam (n : nat)
| TNum (z : Z)
| TSym (c : ascii).

#[global] Instance token_eq_dec : EqDecision token.
Proof. solve_decision. Defined.

Definition code (c : ascii) : Z := Z.of_N (N_of_ascii c).
Definition is_space (c : ascii) : bool :=
  (code c =? 32) || (code c =? 9) || (code c =? 10) || (code c =? 13).
Definition is_digit (c : ascii) : bool := (48 <=? code c) && (code c <=? 57).
Definition is_lower (c : ascii) : bool := (97 <=? code c) && (code c <=? 122).
Definition is_upper (c : ascii) : bool := (65 <=? code c) && (code c <=? 90).
(** Characters of names, numbers and parameters: letters, digits, [_],
    [.] and [$]. *)
Definition is_word (c : ascii) : bool :=
  is_digit c || is_lower c || is_upper c
  || (code c =? 95) || (code c =? 46) || (code c =? 36).

Definition upper_char (c : ascii) : ascii :=
  if is_lower c then ascii_of_N (Z.to_N (code c - 32)) else c.
Fixpoint upper (s : string) : string :=
  match s with
  | EmptyString => EmptyString
  | String c s' => String (upper_char c) (upper s')
  end.

Definition number (ds : list ascii) : Z :=
  fold_left (fun acc d => 10 * acc + (code d - 48)) ds 0.

Definition classify (w : list ascii) : token :=
  match w with
  | c :: ds =>
      if (code c =? 36) && negb (bool_decide (ds = [])) && forallb is_digit ds
      then TParam (Z.to_nat (number ds))
      else if forallb is_digit w then TNum (number w)
      else TWord (string_of_list_ascii w)
  | [] => TWord EmptyString
  end.

Definition flush (word : list ascii) : list token :=
  match word with
  | [] => []
  | _ => [classify (rev word)]
  end.

Fixpoint lex_from (cs word : list ascii) : list token :=
  match cs with
  | [] => flush word
  | c :: cs' =>
      if is_word c then lex_from cs' (c :: word)
      else if is_space c then flush word ++ lex_from cs' []
      else flush word ++ TSym c :: lex_from cs' []
  end.

Definition lex (query : string) : list token :=
  lex_from (list_ascii_of_string query) [].

(** *** Statements *)

Inductive Expr : Type :=
| EParam (n : nat)              (* $n *)
| ECol (c : string)
| EConst (z : Z)
| EPlus (a b : Expr).

Inductive Stmt : Type :=
| InsertInto (rel : string) (cols : list string) (vals : list Expr)
| UpdateSet (rel : string) (sets cond : list (string * Expr)) (returning : list string)
| DeleteFrom (rel : string) (cond : list (string * Expr)).

Definition syntax_error (near : string) : error :=
  DriverError ("pq: syntax error at or near " ++ dquote ++ near ++ dquote).
Definition syntax_error_at_end : error :=
  DriverError "pq: syntax error at end of input".

Definition show (t : token) : string :=
  match t with
  | TWord w => w
  | TParam _ => "$"
  | TNum _ => "0"
  | TSym c => String c EmptyString
  end.

Definition unexpected (ts : list token) : error :=
  match ts with
  | t :: _ => syntax_error (show t)
  | [] => syntax_error_at_end
  end.

Definition keyword (k : string) (t : token) : bool :=
  match t with
  | TWord w => bool_decide (upper w = k)
  | _ => false
  end.

Definition reserved (t : token) : bool :=
  keyword "SET" t || keyword "WHERE" t || keyword "RETURNING" t
  || keyword "AND" t || keyword "VALUES" t || keyword "FROM" t
  || keyword "INTO" t.

Definition term (t : token) : option Expr :=
  match t with
  | TParam n => Some (EParam n)
  | TNum z => Some (EConst z)
  | TWord w => if reserved t then None else Some (ECol w)
  | TSym _ => None
  end.

Definition name (t : token) : option string :=
  match t with
  | TWord w => if reserved t then None else Some w
  | _ => None
  end.

Fixpoint sum_tail (e : Expr) (ts : list token) : result (Expr * list token) :=
  match ts with
  | TSym "+" :: t :: rest =>
      match term t with
      | Some e' => sum_tail (EPlus e e') rest
      | None => Err (syntax_error (show t))
      end
  | _ => Ok (e, ts)
  end.

Definition expr (ts : list token) : result (Expr * list token) :=
  match ts with
  | t :: rest =>
      match term t with
      | Some e => sum_tail e rest
      | None => Err (syntax_error (show t))
      end
  | [] => Err syntax_error_at_end
  end.

(** [c = e <sep> c = e ...], with [sep] a comma (SET) or AND (WHERE). *)
Fixpoint equations (fuel : nat) (sep : token -> bool) (ts : list token)
  : result (list (string * Expr) * list token) :=
  match fuel with
  | O => Err (unexpected ts)
  | S fuel' =>
      match ts with
      | t :: TSym "=" :: rest =>
          match name t with
          | None => Err (syntax_error (show t))
          | Some c =>
              match expr rest with
              | Err e => Err e
              | Ok (e, s :: rest') =>
                  if sep s then
                    match equations fuel' sep rest' with
                    | Ok (more, rest'') => Ok ((c, e) :: more, rest'')
                    | Err e' => Err e'
                    end
                  else Ok ([(c, e)], s :: rest')
              | Ok (e, []) => Ok ([(c, e)], [])
              end
          end
      | _ :: t :: _ => Err (syntax_error (show t))
      | _ => Err (unexpected ts)
      end
  end.

(** [e, e, ...] up to a closing parenthesis. *)
Fixpoint exprs (fuel : nat) (ts : list token) : result (list Expr * list token) :=
  match fuel with
  | O => Err (unexpected ts)
  | S fuel' =>
      match expr ts with
      | Err e => Err e
      | Ok (e, TSym "," :: rest) =>
          match exprs fuel' rest with
          | Ok (more, rest') => Ok (e :: more, rest')
          | Err e' => Err e'
          end
      | Ok (e, rest) => Ok ([e], rest)
      end
  end.

(** [c, c, ...] *)
Fixpoint names (ts : list token) : result (list string * list token) :=
  match ts with
  | t :: rest =>
      match name t with
      | None => Err (syntax_error (show t))
      | Some c =>
          match rest with
          | TSym "," :: rest' =>
              match names rest' with
              | Ok (more, rest'') => Ok (c :: more, rest'')
              | Err e => Err e
              end
          | _ => Ok ([c], rest)
          end
      end
  | [] => Err syntax_error_at_end
  end.

Definition comma (t : token) : bool := bool_decide (t = TSym ","%char).

Definition parse_update (ts : list token) : result Stmt :=
  match ts with
  | r :: k :: rest =>
      match name r, keyword "SET" k with
      | Some rel, true =>
          match equations (length rest) comma rest with
          | Err e => Err e
          | Ok (sets, w :: rest1) =>
              if keyword "WHERE" w then
                match equations (length rest1) (keyword "AND") rest1 with
                | Err e => Err e
                | Ok (cond, []) => Ok (UpdateSet rel sets cond [])
                | Ok (cond, k' :: rest2) =>
                    if keyword "RETURNING" k' then
                      match names rest2 with
                      | Ok (out, []) => Ok (UpdateSet rel sets cond out)
                      | Ok (_, rest3) => Err (unexpected rest3)
                      | Err e => Err e
                      end
                    else Err (syntax_error (show k'))
                end
              else Err (syntax_error (show w))
          | Ok (sets, []) => Ok (UpdateSet rel sets [] [])
          end
      | None, _ => Err (syntax_error (show r))
      | _, false => Err (syntax_error (show k))
      end
  | _ => Err syntax_error_at_end
  end.

Definition parse_insert (ts : list token) : result Stmt :=
  match ts with
  | into :: r :: TSym "(" :: rest =>
      match keyword "INTO" into, name r with
      | true, Some rel =>
          match names rest with
          | Err e => Err e
          | Ok (cols, TSym ")" :: v :: TSym "(" :: rest1) =>
              if keyword "VALUES" v then
                match exprs (length rest1) rest1 with
                | Ok (vals, [TSym ")"]) => Ok (InsertInto rel cols vals)
                | Ok (_, rest2) => Err (unexpected rest2)
                | Err e => Err e
                end
              else Err (syntax_error (show v))
          | Ok (_, rest1) => Err (unexpected rest1)
          end
      | false, _ => Err (syntax_error (show into))
      | _, None => Err (syntax_error (show r))
      end
  | t :: _ => Err (syntax_error (show t))
  | [] => Err syntax_error_at_end
  end.

Definition parse_delete (ts : list token) : result Stmt :=
  match ts with
  | from :: r :: rest =>
      match keyword "FROM" from, name r with
      | true, Some rel =>
          match rest with
          | [] => Ok (DeleteFrom rel [])
          | w :: rest1 =>
              if keyword "WHERE" w then
                match equations (length rest1) (keyword "AND") rest1 with
                | Ok (cond, []) => Ok (DeleteFrom rel cond)
                | Ok (_, rest2) => Err (unexpected rest2)
                | Err e => Err e
                end
              else Err (syntax_error (show w))
          end
      | false, _ => Err (syntax_error (show from))
      | _, None => Err (syntax_error (show r))
      end
  | _ => Err syntax_error_at_end
  end.

(** A statement starts with its command word. *)
Definition parse (ts : list token) : result Stmt :=
  match ts with
  | t :: rest =>
      if keyword "UPDATE" t then parse_update rest
      else if keyword "INSERT" t then parse_insert rest
      else if keyword "DELETE" t then parse_delete rest
      else Err (syntax_error (show t))
  | [] => Err syntax_error_at_end
  end.

(** *** Running a statement *)

Definition undefined_table (rel : string) : error :=
  DriverError ("pq: relation " ++ dquote ++ rel ++ dquote ++ " does not exist").
Definition undefined_column (c : string) : error :=
  DriverError ("pq: column " ++ dquote ++ c ++ dquote ++ " does not exist").
Definition bad_expression : error :=
  DriverError "pq: could not determine the value of an expression".
Definition bad_insert : error :=
  DriverError "pq: INSERT has more target columns than expressions".

(** [$1] is the first argument. *)
Definition param (args : list Value) (n : nat) : option Value :=
  match n with
  | O => None
  | S k => args !! k
  end.

(** A column without a value is NULL. *)
Definition field (row : gmap string Value) (c : string) : Value :=
  default VNull (row !! c).

Fixpoint eval (args : list Value) (row : gmap string Value) (e : Expr) : option Value :=
  match e with
  | EParam n => param args n
  | ECol c => Some (field row c)
  | EConst z => Some (VInt z)
  | EPlus a b =>
      match eval args row a, eval args row b with
      | Some (VInt x), Some (VInt y) => Some (VInt (x + y))
      | Some VNull, Some (VInt _) | Some (VInt _), Some VNull
      | Some VNull, Some VNull => Some VNull
      | _, _ => None
      end
  end.

Fixpoint expr_cols (e : Expr) : list string :=
  match e with
  | ECol c => [c]
  | EPlus a b => expr_cols a ++ expr_cols b
  | _ => []
  end.

Definition mentioned (eqs : list (string * Expr)) : list string :=
  flat_map (fun ce => ce.1 :: expr_cols ce.2) eqs.

Definition unknown_column (t : Table) (cs : list string) : option string :=
  List.find (fun c => negb (bool_decide (c ∈ columns t))) cs.

(** A row satisfies [c1 = e1 AND c2 = e2 ...]; a comparison with NULL
    is never satisfied. *)
Fixpoint holds (args : list Value) (row : gmap string Value)
               (cond : list (string * Expr)) : option bool :=
  match cond with
  | [] => Some true
  | (c, e) :: rest =>
      match eval args row e, holds args row rest with
      | Some v, Some b => Some (bool_decide (field row c = v ∧ v ≠ VNull) && b)
      | _, _ => None
      end
  end.

(** SET: every right-hand side is read from the row as it was. *)
Fixpoint assign (args : list Value) (old : gmap string Value)
                (sets : list (string * Expr)) (new : gmap string Value)
  : option (gmap string Value) :=
  match sets with
  | [] => Some new
  | (c, e) :: rest =>
      match eval args old e with
      | Some v => assign args old rest (<[c := v]> new)
      | None => None
      end
  end.

(** The rows after an UPDATE, and the rows it changed, in table order. *)
Fixpoint update_rows (args : list Value) (sets cond : list (string * Expr))
                     (rs : list (gmap string Value))
  : option (list (gmap string Value) * list (gmap string Value)) :=
  match rs with
  | [] => Some ([], [])
  | r :: rs' =>
      match holds args r cond, update_rows args sets cond rs' with
      | Some true, Some (out, hit) =>
          match assign args r sets r with
          | Some r' => Some (r' :: out, r' :: hit)
          | None => None
          end
      | Some false, Some (out, hit) => Some (r :: out, hit)
      | _, _ => None
      end
  end.

(** The rows a DELETE leaves. *)
Fixpoint delete_rows (args : list Value) (cond : list (string * Expr))
                     (rs : list (gmap string Value))
  : option (list (gmap string Value)) :=
  match rs with
  | [] => Some []
  | r :: rs' =>
      match holds args r cond, delete_rows args cond rs' with
      | Some true, Some out => Some out
      | Some false, Some out => Some (r :: out)
      | _, _ => None
      end
  end.

Fixpoint values (args : list Value) (es : list Expr) : option (list Value) :=
  match es with
  | [] => Some []
  | e :: es' =>
      match eval args ∅ e, values args es' with
      | Some v, Some vs => Some (v :: vs)
      | _, _ => None
      end
  end.

(** The relations after a statement and the rows it returns. *)
Definition run_stmt (rels : gmap string Table) (args : list Value) (st : Stmt)
  : result (gmap string Table * list (list Value)) :=
  match st with
  | InsertInto rel cols vals =>
      match rels !! rel with
      | None => Err (undefined_table rel)
      | Some t =>
          match unknown_column t (cols ++ flat_map expr_cols vals) with
          | Some c => Err (undefined_column c)
          | None =>
              if bool_decide (length cols = length vals) then
                match values args vals with
                | Some vs =>
                    let row : gmap string Value := list_to_map (zip cols vs) in
                    Ok (<[rel := mkTable (columns t) (rows t ++ [row])]> rels, [])
                | None => Err bad_expression
                end
              else Err bad_insert
          end
      end
  | UpdateSet rel sets cond out =>
      match rels !! rel with
      | None => Err (undefined_table rel)
      | Some t =>
          match unknown_column t (mentioned sets ++ mentioned cond ++ out) with
          | Some c => Err (undefined_column c)
          | None =>
              match update_rows args sets cond (rows t) with
              | Some (rs, hit) =>
                  Ok (<[rel := mkTable (columns t) rs]> rels,
                      map (fun r => map (field r) out) hit)
              | None => Err bad_expression
              end
          end
      end
  | DeleteFrom rel cond =>
      match rels !! rel with
      | None => Err (undefined_table rel)
      | Some t =>
          match unknown_column t (mentioned cond) with
          | Some c => Err (undefined_column c)
          | None =>
              match delete_rows args cond (rows t) with
              | Some rs => Ok (<[rel := mkTable (columns t) rs]> rels, [])
              | None => Err bad_expression
              end
          end
      end
  end.

(** *** The database/sql calls the models make *)

(** Sends one statement: it is entered in the journal; unless the store
    refuses it, it is read and run. *)
Definition send (db : DB) (query : string) (args : list Value)
  : DB * result (list (list Value)) :=
  let sent := (journal db ++ [(query, args)])%list in
  match refusal db with
  | Some msg => (mkDB (relations db) sent (refusal db), Err (DriverError msg))
  | None =>
      match parse (lex query) with
      | Err e => (mkDB (relations db) sent (refusal db), Err e)
      | Ok st =>
          match run_stmt (relations db) args st with
          | Err e => (mkDB (relations db) sent (refusal db), Err e)
          | Ok (rels, out) => (mkDB rels sent (refusal db), Ok out)
          end
      end
  end.

(** [DB.ExecContext]: the result rows are dropped. *)
Definition ExecContext (db : DB) (query : string) (args : list Value)
  : DB * option error :=
  match send db query args with
  | (db', Ok _) => (db', None)
  | (db', Err e) => (db', Some e)
  end.

(** [DB.QueryRow] / [DB.QueryRowContext]: the error or the first row;
    [sql.ErrNoRows] when there is none. *)
Definition QueryRow (db : DB) (query : string) (args : list Value)
  : DB * result (list Value) :=
  match send db query args with
  | (db', Ok (row :: _)) => (db', Ok row)
  | (db', Ok []) => (db', Err ErrNoRows)
  | (db', Err e) => (db', Err e)
  end.

(** [Row.Scan] into one integer destination of the given width. *)
Definition scan_int (fits : Z -> bool) (row : list Value) : result Z :=
  match row with
  | [VInt z] =>
      if fits z then Ok z
      else Err (ScanError "sql: Scan error on column index 0: value out of range")
  | [_] => Err (ScanError "sql: Scan error on column index 0: unsupported conversion")
  | _ => Err (ScanError "sql: expected 1 destination arguments in Scan")
  end.

End Sql.

(* ===================================================================== *)
(** ** internal/validator *)
(* ===================================================================== *)

Module validator.

(** Modelled from the spec: the validator package ([Validator], [New],
    [Check], [Valid]) is not among the sources.  It is the map of
    validation errors that the callers describe: [Check] adds the key and
    message when the check is false, [Valid] says that no check failed. *)
Record Validator : Type := mkValidator { Errors : gmap string string }.

Definition New : Validator := mkValidator ∅.

Definition AddError (v : Validator) (key message : string) : Validator :=
  match Errors v !! key with
  | Some _ => v
  | None => mkValidator (<[key := message]> (Errors v))
  end.

Definition Check (v : Validator) (ok : bool) (key message : string) : Validator :=
  if ok then v else AddError v key message.

Definition Valid (v : Validator) : bool := bool_decide (Errors v = ∅).

End validator.

(* ===================================================================== *)
(** ** internal/data *)
(* ===================================================================== *)

(** *** movies.go *)

Module Movies.
Import Sql.

Record Movie : Type := mkMovie {
  ID : Z;                (* int64 *)
  CreatedAt : Z;         (* time.Time *)
  Title : string;
  Year : Z;              (* int32 *)
  Runtime : Z;           (* Runtime, an int32 *)
  Genres : list string;
  Version : Z            (* int32 *)
}.

Definition set_Version (movie : Movie) (v : Z) : Movie :=
  mkMovie (ID movie) (CreatedAt movie) (Title movie) (Year movie)
          (Runtime movie) (Genres movie) v.

Definition update_query : string := "UPDATE movies
	SET title = $1, year = $2, runtime= $3, genres = $4, version = version +1
	WHERE id = $5 AND version = $6
	RETURNING version".

(** [MovieModel.Update]: the movie is changed in place, so the model
    returns it next to the error. *)
Definition MovieModel_Update (db : DB) (movie : Movie) : DB * Movie * option error :=
  let args := [ VText (Title movie); VInt (Year movie); VInt (Runtime movie);
                VArray (Genres movie); VInt (ID movie);
                VInt (Version movie) ] in
  let '(db', row) := QueryRow db update_query args in
  let scanned := match row with
                 | Ok vs => scan_int in_int32 vs
                 | Err e => Err e
                 end in
  match scanned with
  | Ok v => (db', set_Version movie v, None)
  | Err err =>
      if bool_decide (err = ErrNoRows) then (db', movie, Some ErrEditConflict)
      else (db', movie, Some err)
  end.

End Movies.

(** *** users.go *)

Module Users.
Import Sql validator.

(** [plaintext] is a pointer and [hash] a slice: both can be nil. *)
Record password : Type := mkPassword {
  plaintext : option string;
  hash : option (list byte)
}.

Record User : Type := mkUser {
  ID : Z;                (* int64 *)
  CreatedAt : Z;         (* time.Time *)
  Name : string;
  Email : string;
  Password : password;
  Activated : bool;
  Version : Z            (* int *)
}.

#[global] Instance password_eq_dec : EqDecision password.
Proof. solve_decision. Defined.
#[global] Instance User_eq_dec : EqDecision User.
Proof. solve_decision. Defined.

Definition set_Version (user : User) (v : Z) : User :=
  mkUser (ID user) (CreatedAt user) (Name user) (Email user)
         (Password user) (Activated user) v.

Section Validation.
(** [validator.Matches(email, validator.EmailRX)]: the regular expression
    is not among the sources and is taken as a parameter. *)
Variable Matches_EmailRX : string -> bool.

Definition ValidateEmail (v : Validator) (email : string) : Validator :=
  let v := Check v (negb (bool_decide (email = ""))) "email" "must be provided" in
  Check v (Matches_EmailRX email) "email" "must be a valid email address".

Definition ValidatePasswordPlainText (v : Validator) (password : string) : Validator :=
  let v := Check v (negb (bool_decide (password = ""))) "passwrod" "must be provided" in
  let v := Check v (8 <=? len password) "password" "must be atleast 8 bytes long" in
  Check v (len password <=? 72) "password" "must not be more than 72 bytes long".

Definition ValidateUser (v : Validator) (user : User) : run Validator :=
  let v := Check v (negb (bool_decide (Name user = ""))) "name" "mst be provided" in
  let v := Check v (len (Name user) <=? 500) "name"
                 "must not be more than 500 bytes long" in
  let v := ValidateEmail v (Email user) in
  let v := match plaintext (Password user) with
           | Some p => ValidatePasswordPlainText v p
           | None => v
           end in
  match hash (Password user) with
  | None => Panics "missing password hash for user"
  | Some _ => Returns v
  end.
End Validation.

Definition update_query : string := "
	UPDATE users
	SET name = $1, email = $2, password_hash = $3, activated = $4, version = version + 1
	WHERE id = $5 AND version = $6
	RETURNING version
	".

Definition duplicate_email_text : string :=
  "pq: duplicate key value violates unique constraint " ++ dquote ++ "user_email_key".

Definition hash_value (p : password) : Value :=
  match hash p with
  | Some bs => VBytes bs
  | None => VNull
  end.

(** [UserModel.Update] *)
Definition UserModel_Update (db : DB) (user : User) : DB * User * option error :=
  let args := [ VText (Name user); VText (Email user); hash_value (Password user);
                VBool (Activated user); VInt (ID user); VInt (Version user) ] in
  let '(db', row) := QueryRow db update_query args in
  let scanned := match row with
                 | Ok vs => scan_int in_int64 vs
                 | Err e => Err e
                 end in
  match scanned with
  | Ok v => (db', set_Version user v, None)
  | Err err =>
      if bool_decide (Error err = duplicate_email_text)
      then (db', user, Some ErrDuplicateEmail)
      else if bool_decide (err = ErrNoRows) then (db', user, Some ErrEditConflict)
      else (db', user, Some err)
  end.

End Users.

(** *** tokens.go *)

Module Tokens.
Import Sql validator.

Definition ScopeActivation : string := "activation".

Record Token : Type := mkToken {
  Plaintext : string;
  Hash : list byte;
  UserID : Z;            (* int64 *)
  Expiry : Z;            (* time.Time, in nanoseconds *)
  Scope : string
}.

(** [rand.Read(b)]: the buffer is filled entirely from the supply of the
    operating system, or an error is returned. *)
Definition rand_Read (supply : result (list byte)) (b : list byte)
  : list byte * option error :=
  match supply with
  | Err e => (b, Some e)
  | Ok bs =>
      if bool_decide (length b ≤ length bs)%nat then (take (length b) bs, None)
      else (b, Some (RandError "unexpected EOF"))
  end.

(** [generatedToken]; [now] is the reading of [time.Now()] and [supply] the
    state of the entropy source. *)
Definition generatedToken (now : Z) (supply : result (list byte))
                          (userID ttl : Z) (scope : string)
  : option Token * option error :=
  let token := mkToken "" [] userID (now + ttl) scope in
  let randomBytes := repeat x00 16 in
  match rand_Read supply randomBytes with
  | (_, Some err) => (None, Some err)
  | (randomBytes, None) =>
      let plaintext := Base32.EncodeToString randomBytes in
      let hash := Sha256.Sum256 (bytes_of plaintext) in
      (Some (mkToken plaintext hash (UserID token) (Expiry token) (Scope token)), None)
  end.

Definition ValidateTokenPlainText (v : Validator) (tokenPlainText : string) : Validator :=
  let v := Check v (negb (bool_decide (tokenPlainText = ""))) "token" "must be provided" in
  Check v (len tokenPlainText =? 26) "token" "must be 26 bytes long".

Definition insert_query : string := "
	INSERT INTO tokesn (hash, user_id, expiry, scope)
	VALUES ($1, $2, $3, $4)
	".

(** [TokenModel.Insert] *)
Definition TokenModel_Insert (db : DB) (token : Token) : DB * option error :=
  let args := [ VBytes (Hash token); VInt (UserID token); VTime (Expiry token);
                VText (Scope token) ] in
  ExecContext db insert_query args.

(** [TokenModel.New]: the token is returned together with the error of
    the insertion. *)
Definition TokenModel_New (db : DB) (now : Z) (supply : result (list byte))
                          (userID ttl : Z) (scope : string)
  : DB * option Token * option error :=
  match generatedToken now supply userID ttl scope with
  | (Some token, None) =>
      let '(db', err) := TokenModel_Insert db token in
      (db', Some token, err)
  | (_, err) => (db, None, err)
  end.

Definition delete_query : string := "
	DLETE FROM tokens
	WHERE scope = $1 AND user_id = $2
	".

(** [TokenModel.DeleteAllForUser] *)
Definition TokenModel_DeleteAllForUser (db : DB) (scope : string) (userID : Z)
  : DB * option error :=
  ExecContext db delete_query [VText scope; VInt userID].

End Tokens.

(** *** permissions.go *)

Module Permissions.
Import Sql.

(** [Permissions.Include]: the loop over the slice. *)
Fixpoint Include (p : list string) (code : string) : bool :=
  match p with
  | [] => false
  | x :: rest => if bool_decide (code = x) then true else Include rest code
  end.

(** What [DB.QueryContext] hands back: an error, or rows that are read one
    by one ([Scan] of a row may fail) and the error [rows.Err()] reports at
    the end. *)
Record Rows : Type := mkRows {
  scans : list (result string);
  rows_Err : option error
}.

Definition select_query : string := "
	SELECT permissions.code
	FROM permissions
	INNER JOIN users_permissions ON users_permissions.permission_id = permission.id
	INNER JOIN users ON users_permissions.user_id = users.id
	WHERE users.id = $1
	".

Fixpoint collect (permissions : list string) (scans : list (result string))
  : result (list string) :=
  match scans with
  | [] => Ok permissions
  | Ok permission :: rest => collect (permissions ++ [permission]) rest
  | Err err :: _ => Err err
  end.

(** [PermissionModel.GetAllForUser]; [QueryContext] is the store as it
    answers at the time of the call. *)
Definition GetAllForUser (QueryContext : string -> list Value -> result Rows)
                         (userID : Z) : result (list string) :=
  match QueryContext select_query [VInt userID] with
  | Err err => Err err
  | Ok rows =>
      match collect [] (scans rows) with
      | Err err => Err err
      | Ok permissions =>
          match rows_Err rows with
          | Some err => Err err
          | None => Ok permissions
          end
      end
  end.

End Permissions.

(** *** Identities and the credential lookup *)

Module Credentials.
Import Sql Users.

(** Modelled from the spec: the scope constant for session credentials is
    not among the sources; the spec names the two scope tags "activation"
    and "authentication". *)
Definition ScopeAuthentication : string := "authentication".

(** Modelled from the spec: [AnonymousUser] and [IsAnonymous] are not among
    the sources.  An identity is either a concrete user or the well-known
    anonymous sentinel, which carries the zero values of every field. *)
Inductive Identity : Type :=
| AnonymousUser
| Registered (user : User).

Definition IsAnonymous (u : Identity) : bool :=
  match u with
  | AnonymousUser => true
  | Registered _ => false
  end.

Definition zero_User : User := mkUser 0 0 "" "" (mkPassword None None) false 0.

(** The fields behind the [*User] pointer. *)
Definition deref (u : Identity) : User :=
  match u with
  | AnonymousUser => zero_User
  | Registered user => user
  end.

(** A credential row answers a lookup when hash and scope agree and the
    expiry lies after [now]. *)
Definition live (now : Z) (scope : string) (h : list byte)
                (row : gmap string Value) : bool :=
  bool_decide (field row "hash" = VBytes h)
  && bool_decide (field row "scope" = VText scope)
  && match field row "expiry" with
     | VTime t => now <? t
     | _ => false
     end.

Definition owner (users : list (gmap string Value)) (credential : gmap string Value)
  : option (gmap string Value) :=
  List.find (fun u => bool_decide (field u "id" = field credential "user_id"
                                   ∧ field u "id" ≠ VNull)) users.

Definition scan_user (row : gmap string Value) : result User :=
  match field row "id", field row "created_at", field row "name",
        field row "email", field row "password_hash", field row "activated",
        field row "version" with
  | VInt id, VTime created, VText name, VText email, VBytes hash, VBool act, VInt ver =>
      Ok (mkUser id created name email (mkPassword None (Some hash)) act ver)
  | _, _, _, _, _, _, _ =>
      Err (ScanError "sql: Scan error: unsupported conversion")
  end.

(** Modelled from the spec: [UserModel.GetForToken] is not among the
    sources.  It computes the hash of the presented value and looks up a
    credential row matching hash, scope and [expiry > now]; a match
    resolves to the associated user; no match is [ErrRecordNotFound]. *)
Definition GetForToken (db : DB) (now : Z) (tokenScope tokenPlaintext : string)
  : result User :=
  match refusal db with
  | Some msg => Err (DriverError msg)
  | None =>
      match relations db !! "tokens", relations db !! "users" with
      | Some tokens, Some users =>
          let tokenHash := Sha256.Sum256 (bytes_of tokenPlaintext) in
          let found := filter (fun row => live now tokenScope tokenHash row = true)
                              (rows tokens) in
          match omap (owner (rows users)) found with
          | [] => Err ErrRecordNotFound
          | row :: _ => scan_user row
          end
      | None, _ => Err (undefined_table "tokens")
      | _, None => Err (undefined_table "users")
      end
  end.

End Credentials.

(* ===================================================================== *)
(** ** net/http as the middleware uses it *)
(* ===================================================================== *)

Module Http.
Import Credentials.

(** The spec's error taxonomy for the gates whose response helpers are not
    among the sources. *)
Inductive ErrorKind : Type :=
| RateLimitExceeded
| InvalidCredential
| AuthenticationRequired
| InactiveAccount
| PermissionDenied.

Inductive Message : Type :=
| Text (s : string)
| Kind (k : ErrorKind).

#[global] Instance ErrorKind_eq_dec : EqDecision ErrorKind.
Proof. solve_decision. Defined.
#[global] Instance Message_eq_dec : EqDecision Message.
Proof. solve_decision. Defined.

(** What a handler has done to its [http.ResponseWriter], together with
    the entries it sent to the application's logger. *)
Record ResponseWriter : Type := mkWriter {
  header : gmap string (list string);
  status : option Z;
  body : list (string * Message);
  logged : list (string * string * string)
}.

Record Request : Type := mkRequest {
  Method : string;
  RequestURI : string;
  RemoteAddr : string;
  Header : gmap string (list string);
  userContextKey : option Identity      (* the request context *)
}.

Definition Handler : Type := Request -> ResponseWriter -> run ResponseWriter.

(** [Header.Get]: the first value, or the empty string. *)
Definition Header_Get (h : gmap string (list string)) (key : string) : string :=
  match h !! key with
  | Some (v :: _) => v
  | _ => ""
  end.

Definition Header_Add (w : ResponseWriter) (key value : string) : ResponseWriter :=
  mkWriter (<[key := (default [] (header w !! key) ++ [value])%list]> (header w))
           (status w) (body w) (logged w).

Definition Header_Set (w : ResponseWriter) (key value : string) : ResponseWriter :=
  mkWriter (<[key := [value]]> (header w)) (status w) (body w) (logged w).

(** Only the first [WriteHeader] counts. *)
Definition WriteHeader (w : ResponseWriter) (code : Z) : ResponseWriter :=
  mkWriter (header w) (match status w with Some c => Some c | None => Some code end)
           (body w) (logged w).

Definition Write (w : ResponseWriter) (env : list (string * Message)) : ResponseWriter :=
  mkWriter (header w) (status w) (body w ++ env)%list (logged w).

(** helpers.go: [writeJSON] of an envelope; marshalling an envelope of
    messages cannot fail. *)
Definition writeJSON (w : ResponseWriter) (code : Z) (env : list (string * Message))
  : ResponseWriter :=
  Write (WriteHeader (Header_Set w "Content-Type" "application/json") code) env.

(** errors.go *)
Definition logError (w : ResponseWriter) (r : Request) (err : error) : ResponseWriter :=
  mkWriter (header w) (status w) (body w)
           (logged w ++ [(Error err, Method r, RequestURI r)])%list.

Definition errorResponse (w : ResponseWriter) (r : Request) (code : Z)
                         (message : Message) : ResponseWriter :=
  writeJSON w code [("error", message)].

Definition serverErrorResponse (w : ResponseWriter) (r : Request) (err : error)
  : ResponseWriter :=
  let w := logError w r err in
  errorResponse w r 500
    (Text "the server encountered a problem and couldn't process your request").

(** Modelled from the spec: the response helpers of the gates
    ([rateLimitExceededResponse], [invalidAuthenticationTokenResponse],
    [authenticationRequiredResponse], [inactiveAccountResponse],
    [notPermittedResponse]) are not among the sources.  Each sends the
    error of the taxonomy with the status code the spec lists for it:
    429, 401, 401, 403 and 403. *)
Definition rateLimitExceededResponse (w : ResponseWriter) (r : Request) : ResponseWriter :=
  errorResponse w r 429 (Kind RateLimitExceeded).
Definition invalidAuthenticationTokenResponse (w : ResponseWriter) (r : Request)
  : ResponseWriter :=
  errorResponse w r 401 (Kind InvalidCredential).
Definition authenticationRequiredResponse (w : ResponseWriter) (r : Request)
  : ResponseWriter :=
  errorResponse w r 401 (Kind AuthenticationRequired).
Definition inactiveAccountResponse (w : ResponseWriter) (r : Request) : ResponseWriter :=
  errorResponse w r 403 (Kind InactiveAccount).
Definition notPermittedResponse (w : ResponseWriter) (r : Request) : ResponseWriter :=
  errorResponse w r 403 (Kind PermissionDenied).

(** Modelled from the spec: [contextSetUser] and [contextGetUser] are not
    among the sources.  The identity travels in the request context.  What
    reading from a context that holds none does is not said: it is taken to
    be a panic, and the properties below assume an identity in the
    context. *)
Definition contextSetUser (r : Request) (user : Identity) : Request :=
  mkRequest (Method r) (RequestURI r) (RemoteAddr r) (Header r) (Some user).

Definition contextGetUser (r : Request) : run Identity :=
  match userContextKey r with
  | Some user => Returns user
  | None => Panics "missing user value in request context"
  end.

(** [strings.Split(s, sep)] for a separator of one character. *)
Fixpoint split_from (sep : ascii) (s : string) (part : string) : list string :=
  match s with
  | EmptyString => [part]
  | String c s' =>
      if bool_decide (c = sep) then part :: split_from sep s' ""
      else split_from sep s' (part ++ String c "")
  end.

Definition strings_Split (s : string) (sep : ascii) : list string :=
  split_from sep s "".

(** Whether a wrapper hands a request on to the handler it wraps, and with
    which request and writer; or answers by itself. *)
Definition forwards (h : Handler -> Handler) (r : Request) (w : ResponseWriter)
                    (r' : Request) (w' : ResponseWriter) : Prop :=
  ∀ next : Handler, h next r w = next r' w'.

Definition answers (h : Handler -> Handler) (r : Request) (w : ResponseWriter)
                   (w' : ResponseWriter) : Prop :=
  ∀ next : Handler, h next r w = Returns w'.

Definition reaches_handler (h : Handler -> Handler) (r : Request) (w : ResponseWriter)
  : Prop :=
  ∃ r' w', forwards h r w r' w'.

End Http.

(* ===================================================================== *)
(** ** golang.org/x/time/rate *)
(* ===================================================================== *)

(** The token bucket of the rate package, "of size b, initially full and
    refilled at rate r tokens per second".  The package counts tokens in
    floating point; here the level is an exact integer number of
    [1 / (den * 10^9)]-ths of a token, where [den] is the denominator of the
    rate, so that refilling over whole nanoseconds involves no rounding.
    Only finite rates are covered. *)

Module Rate.

Definition Second : Z := 1000000000.
Definition Minute : Z := 60 * Second.

Record Limiter : Type := mkLimiter {
  limit : Q;             (* tokens per second *)
  burst : Z;
  tokens : Z;            (* in units of [1 / token_unit] token *)
  last : Z               (* the instant [tokens] was last updated, in ns *)
}.

(** One token, in the unit of [tokens]. *)
Definition token_unit (r : Q) : Z := Z.pos (Qden r) * Second.

Definition NewLimiter (r : Q) (b : Z) : Limiter :=
  mkLimiter r b (b * token_unit r) 0.

(** [advance]: the level at instant [t]; time that ran backwards counts
    as no time. *)
Definition advance (lim : Limiter) (t : Z) : Z :=
  let last := Z.min (last lim) t in
  let elapsed := t - last in
  let tokens := tokens lim + elapsed * Qnum (limit lim) in
  Z.min tokens (burst lim * token_unit (limit lim)).

(** [Allow] at instant [t] ([AllowN(t, 1)]): one token is taken when the
    bucket holds one; a refused call leaves the limiter as it was. *)
Definition Allow (lim : Limiter) (t : Z) : bool * Limiter :=
  let tokens := advance lim t - token_unit (limit lim) in
  if (1 <=? burst lim) && (0 <=? tokens)
  then (true, mkLimiter (limit lim) (burst lim) tokens t)
  else (false, lim).

End Rate.

(* ===================================================================== *)
(** ** cmd/api: the middleware *)
(* ===================================================================== *)

Module Api.
Import Sql validator Users Tokens Credentials Http Rate.

(** *** rateLimit *)

Record client : Type := mkClient {
  limiter : Limiter;
  lastSeen : Z
}.

Record limiter_config : Type := mkLimiterConfig {
  rps : Q;
  cfg_burst : Z;
  enabled : bool
}.

Definition set_lastSeen (t : Z) (c : client) : client := mkClient (limiter c) t.

(** The eviction pass of the background goroutine, run at instant [now]
    with the mutex held. *)
Definition sweep (now : Z) (clients : gmap string client) : gmap string client :=
  filter (fun kv => ¬ (now - lastSeen kv.2 > 3 * Minute)) clients.

Section RateLimit.
(** [net.SplitHostPort] is taken as it is. *)
Variable SplitHostPort : string -> result (string * string).
Variable cfg : limiter_config.

(** The part of the handler that runs with the mutex held; [t_seen] and
    [t_allow] are the two readings of the clock, the one stored in
    [lastSeen] and the one [Allow] takes.  The entry is in the map when it
    is read back, so the last branch is never taken. *)
Definition under_lock (clients : gmap string client) (ip : string) (t_seen t_allow : Z)
  : gmap string client * bool :=
  let clients :=
    match clients !! ip with
    | Some _ => clients
    | None => <[ip := mkClient (NewLimiter (rps cfg) (cfg_burst cfg)) 0]> clients
    end in
  let clients := alter (set_lastSeen t_seen) ip clients in
  match clients !! ip with
  | Some c =>
      let '(ok, lim) := Allow (limiter c) t_allow in
      (<[ip := mkClient lim (lastSeen c)]> clients, ok)
  | None => (clients, false)
  end.

(** The handler [rateLimit] returns, with the map it closes over passed
    in and out. *)
Definition rateLimit (next : Handler) (clients : gmap string client)
                     (t_seen t_allow : Z) (r : Request) (w : ResponseWriter)
  : gmap string client * run ResponseWriter :=
  if enabled cfg then
    match SplitHostPort (RemoteAddr r) with
    | Err err => (clients, Returns (serverErrorResponse w r err))
    | Ok (ip, _) =>
        let '(clients, ok) := under_lock clients ip t_seen t_allow in
        if negb ok then (clients, Returns (rateLimitExceededResponse w r))
        else (clients, next r w)
    end
  else (clients, next r w).
End RateLimit.

(** *** authenticate *)

Section Authenticate.
(** [app.models.Users.GetForToken], as the store answers it. *)
Variable GetForToken : string -> string -> result User.

Definition authenticate (next : Handler) : Handler := fun r w =>
  let w := Header_Add w "Vary" "Authorization" in
  let authorizationHeader := Header_Get (Header r) "Authorization" in
  if bool_decide (authorizationHeader = "") then
    next (contextSetUser r AnonymousUser) w
  else
    let headerParts := strings_Split authorizationHeader " " in
    if negb (bool_decide (length headerParts = 2%nat))
       || negb (bool_decide (headerParts !! 0%nat = Some "Bearer"))
    then Returns (invalidAuthenticationTokenResponse w r)
    else
      let token := default "" (headerParts !! 1%nat) in
      let v := ValidateTokenPlainText validator.New token in
      if negb (Valid v) then Returns (invalidAuthenticationTokenResponse w r)
      else
        match GetForToken ScopeAuthentication token with
        | Err err =>
            if bool_decide (err = ErrRecordNotFound)
            then Returns (invalidAuthenticationTokenResponse w r)
            else Returns (serverErrorResponse w r err)
        | Ok user => next (contextSetUser r (Registered user)) w
        end.
End Authenticate.

(** *** The permission gates *)

Definition requireAuthenticatedUser (next : Handler) : Handler := fun r w =>
  match contextGetUser r with
  | Panics msg => Panics msg
  | Returns user =>
      if IsAnonymous user then Returns (authenticationRequiredResponse w r)
      else next r w
  end.

Definition requireActivatedUser (next : Handler) : Handler :=
  let fn : Handler := fun r w =>
    match contextGetUser r with
    | Panics msg => Panics msg
    | Returns user =>
        if negb (Activated (deref user)) then Returns (inactiveAccountResponse w r)
        else next r w
    end in
  requireAuthenticatedUser fn.

Section RequiredPermission.
(** The store as it answers [QueryContext] while the request is served. *)
Variable QueryContext : string -> list Value -> result Permissions.Rows.

Definition requiredPermission (code : string) (next : Handler) : Handler :=
  let fn : Handler := fun r w =>
    match contextGetUser r with
    | Panics msg => Panics msg
    | Returns user =>
        match Permissions.GetAllForUser QueryContext (ID (deref user)) with
        | Err err => Returns (serverErrorResponse w r err)
        | Ok permissions =>
            if negb (Permissions.Include permissions code)
            then Returns (notPermittedResponse w r)
            else next r w
        end
    end in
  requireActivatedUser fn.
End RequiredPermission.

End Api.

(* ===================================================================== *)
(** ** Vocabulary of the properties *)
(* ===================================================================== *)

Module Props.
Import Sql validator Users Tokens Credentials Http Rate Api.

(** The columns that the statements of the models name, per relation. *)
Definition tokens_columns : list string := ["hash"; "user_id"; "expiry"; "scope"].
Definition users_columns : list string :=
  ["id"; "created_at"; "name"; "email"; "password_hash"; "activated"; "version"].
Definition movies_columns : list string :=
  ["id"; "created_at"; "title"; "year"; "runtime"; "genres"; "version"].

(** The store answers and has the relation with (at least) these columns. *)
Definition has_relation (db : DB) (rel : string) (cols : list string) (t : Table) : Prop :=
  refusal db = None ∧ relations db !! rel = Some t ∧ ∀ c, c ∈ cols → c ∈ columns t.

(** The arguments the two guarded updates pass. *)
Definition movie_args (movie : Movies.Movie) : list Value :=
  [ VText (Movies.Title movie); VInt (Movies.Year movie); VInt (Movies.Runtime movie);
    VArray (Movies.Genres movie); VInt (Movies.ID movie); VInt (Movies.Version movie) ].

Definition user_args (user : User) : list Value :=
  [ VText (Name user); VText (Email user); hash_value (Password user);
    VBool (Activated user); VInt (ID user); VInt (Version user) ].

(** The value of the Authorization header of a request. *)
Definition authorization (r : Request) : string :=
  Header_Get (Header r) "Authorization".

(** The header has the shape [Bearer <token>] with a token of 26 bytes. *)
Definition presents (h tok : string) : Prop :=
  strings_Split h " " = ["Bearer"; tok] ∧ String.length tok = 26%nat.

(** A header that is there but does not have that shape. *)
Definition malformed (h : string) : Prop :=
  h ≠ "" ∧ ∀ tok, ¬ presents h tok.

(** The store answers and holds the two relations of the lookup. *)
Definition serving (db : DB) (credentials users : Table) : Prop :=
  refusal db = None
  ∧ relations db !! "tokens" = Some credentials
  ∧ relations db !! "users" = Some users.

Definition digest (tok : string) : Value := VBytes (Sha256.Sum256 (bytes_of tok)).

(** The four reasons for which a presented bearer value is no credential. *)
Inductive no_credential (db : DB) (now : Z) (h : string) : Prop :=
| is_malformed :
    malformed h → no_credential db now h
| is_unknown tok credentials users :
    presents h tok → serving db credentials users →
    (∀ row, row ∈ rows credentials → field row "hash" ≠ digest tok) →
    no_credential db now h
| is_expired tok credentials users :
    presents h tok → serving db credentials users →
    (∀ row, row ∈ rows credentials → field row "hash" = digest tok →
             ∃ t, field row "expiry" = VTime t ∧ t ≤ now) →
    no_credential db now h
| is_of_wrong_scope tok credentials users :
    presents h tok → serving db credentials users →
    (∀ row, row ∈ rows credentials → field row "hash" = digest tok →
             field row "scope" ≠ VText ScopeAuthentication) →
    no_credential db now h.

(** The uniform answer of [authenticate] to a value that is no credential. *)
Definition rejected (w : ResponseWriter) (r : Request) : run ResponseWriter :=
  Returns (invalidAuthenticationTokenResponse (Header_Add w "Vary" "Authorization") r).

(** A character of the base32 alphabet. *)
Definition in_alphabet (c : ascii) : bool :=
  bool_decide (c ∈ list_ascii_of_string Base32.alphabet).

(** The limiter a request of [ip] meets: the one in the map, or the one
    the handler allocates. *)
Definition bucket_of (cfg : limiter_config) (clients : gmap string client)
                     (ip : string) : Limiter :=
  match clients !! ip with
  | Some c => limiter c
  | None => NewLimiter (rps cfg) (cfg_burst cfg)
  end.

(** The bucket holds [burst] tokens at instant [t]. *)
Definition full_at (lim : Limiter) (t : Z) : Prop :=
  advance lim t = burst lim * token_unit (limit lim).

(** Requests of one client served one after the other at the given
    instants: the map afterwards and what each request ended in. *)
Fixpoint serve_all (SplitHostPort : string -> result (string * string))
                   (cfg : limiter_config) (next : Handler)
                   (clients : gmap string client) (times : list Z)
                   (r : Request) (w : ResponseWriter)
  : gmap string client * list (run ResponseWriter) :=
  match times with
  | [] => (clients, [])
  | t :: rest =>
      let '(clients, out) := rateLimit SplitHostPort cfg next clients t t r w in
      let '(clients, outs) := serve_all SplitHostPort cfg next clients rest r w in
      (clients, out :: outs)
  end.

(** [d] nanoseconds are exactly [1 / r] seconds, the time in which one
    token is refilled. *)
Definition one_token_period (r : Q) (d : Z) : Prop :=
  d * Qnum r = token_unit r.

(** A row of a versioned relation stands for the resource [id] at the
    version [version]. *)
Definition stored (row : gmap string Value) (id version : Z) : Prop :=
  field row "id" = VInt id ∧ field row "version" = VInt version.

#[global] Instance stored_dec row id version : Decision (stored row id version).
Proof. unfold stored. apply _. Defined.

(** The rows of a relation before and after a guarded update of the
    resource [id] from [version]: the rows that stand for that resource at
    that version now carry [version + 1], every other row is as it was. *)
Definition guarded_update (before after : list (gmap string Value)) (id version : Z)
  : Prop :=
  Forall2 (fun row row' =>
             if decide (stored row id version) then stored row' id (version + 1)
             else row' = row)
          before after.

(** The outcome of a successful guarded update of [rel]: the stored version
    was [version], is now [version + 1], and that is the version returned. *)
Definition guarded (rel : string) (db db' : DB) (id version returned : Z) : Prop :=
  returned = version + 1
  ∧ ∃ t t', relations db !! rel = Some t
            ∧ relations db' !! rel = Some t'
            ∧ (∃ row, row ∈ rows t ∧ stored row id version)
            ∧ guarded_update (rows t) (rows t') id version.

(** No row of the relation stands for [id] at [version]: the version has
    changed, or the row is gone. *)
Definition no_match (t : Table) (id version : Z) : Prop :=
  ∀ row, row ∈ rows t → ¬ stored row id version.

End Props.

(* ===================================================================== *)
(** ** Sample requests, users and stores *)
(* ===================================================================== *)

Module Samples.
Import Sql validator Users Tokens Credentials Http Rate Api Props.

Definition blank_writer : ResponseWriter := mkWriter ∅ None [] [].

Definition plain_request (hdr : gmap string (list string)) (ctx : option Identity)
  : Request :=
  mkRequest "GET" "/v1/movies" "10.0.0.7:4312" hdr ctx.

Definition alice : User :=
  mkUser 7 0 "Alice" "alice@example.com" (mkPassword None (Some [x01])) true 1.

(** A store that cannot be reached, and one that answers the permission
    query with the given codes. *)
Definition store_down : string -> list Value -> result Permissions.Rows :=
  fun _ _ => Err (DriverError "pq: the database system is shutting down").

Definition store_granting (codes : list string)
  : string -> list Value -> result Permissions.Rows :=
  fun _ _ => Ok (Permissions.mkRows (map Ok codes) None).

Definition credential_row (h : list byte) (userID expiry : Z) (scope : string)
  : gmap string Value :=
  list_to_map [("hash", VBytes h); ("user_id", VInt userID);
               ("expiry", VTime expiry); ("scope", VText scope)].

Definition user_row (u : User) : gmap string Value :=
  list_to_map [("id", VInt (ID u)); ("created_at", VTime (CreatedAt u));
               ("name", VText (Name u)); ("email", VText (Email u));
               ("password_hash", hash_value (Password u));
               ("activated", VBool (Activated u)); ("version", VInt (Version u))].

Definition movie_row (m : Movies.Movie) : gmap string Value :=
  list_to_map [("id", VInt (Movies.ID m)); ("created_at", VTime (Movies.CreatedAt m));
               ("title", VText (Movies.Title m)); ("year", VInt (Movies.Year m));
               ("runtime", VInt (Movies.Runtime m));
               ("genres", VArray (Movies.Genres m));
               ("version", VInt (Movies.Version m))].

(** A store with the three relations of the models. *)
Definition store_of (credentials users movies : list (gmap string Value)) : DB :=
  mkDB (list_to_map [("tokens", mkTable tokens_columns credentials);
                     ("users", mkTable users_columns users);
                     ("movies", mkTable movies_columns movies)])
       [] None.

(** The encoding of the sixteen bytes 0, 1, ..., 15. *)
Definition sample_token : string := "AAAQEAYEAUDAOCAJBIFQYDIOB4".

(** A store whose only credential is [sample_token], issued to user 7 for
    the given scope and expiring at instant 100. *)
Definition store_holding (scope : string) : DB :=
  store_of [credential_row (Sha256.Sum256 (bytes_of sample_token)) 7 100 scope]
           [user_row alice] [].

(** The split of "host:port" for addresses without brackets, and the
    configuration the flags default to: 2 requests per second, bursts of 4. *)
Definition split_plain (addr : string) : result (string * string) :=
  match strings_Split addr ":" with
  | [host; port] => Ok (host, port)
  | _ => Err (AddrError "address: missing port in address")
  end.

Definition default_limits : limiter_config := mkLimiterConfig (2 # 1) 4 true.

(** A map whose only client was last seen at instant 0, its bucket empty. *)
Definition idle_clients : gmap string client :=
  {[ "10.0.0.7" := mkClient (mkLimiter (2 # 1) 4 0 0) 0 ]}.

(** A movie stored at version 3. *)
Definition casablanca : Movies.Movie :=
  Movies.mkMovie 1 0 "Casablanca" 1942 102 ["drama"; "romance"] 3.

Definition catalogue : DB := store_of [] [user_row alice] [movie_row casablanca].

(** Twenty-six bytes, none of them in the base32 alphabet. *)
Definition odd_token : string := "!!!!!!!!!!!!!!!!!!!!!!!!!!".

Definition bearer (tok : string) : gmap string (list string) :=
  {[ "Authorization" := ["Bearer " ++ tok] ]}.

End Samples.

(* ===================================================================== *)
(** ** internal/data: filters.go *)
(* ===================================================================== *)

Module Filters.
Import validator.

(** Go's [int] on the 64-bit targets: arithmetic wraps around. *)
Definition wrap64 (z : Z) : Z := (z + 2 ^ 63) mod 2 ^ 64 - 2 ^ 63.

Record Filters : Type := mkFilters {
  Page : Z;
  PageSize : Z;
  Sort : string;
  SortSafeList : list string
}.

Record Metadata : Type := mkMetadata {
  CurrentPage : Z;
  Meta_PageSize : Z;
  FirstPage : Z;
  LastPage : Z;
  TotalRecords : Z
}.

(** [strings.HasPrefix] and [strings.TrimPrefix] *)
Definition HasPrefix (s p : string) : bool := String.prefix p s.
Definition TrimPrefix (s p : string) : string :=
  if HasPrefix s p then String.substring (String.length p)
                                         (String.length s - String.length p) s
  else s.

Section Validate.
(** [validator.PermittedValue] is not among the sources and is taken as a
    parameter. *)
Variable PermittedValue : string -> list string -> bool.

Definition ValidateFilters (v : Validator) (f : Filters) : Validator :=
  let v := Check v (0 <? Page f) "page" "must be greater than zero" in
  let v := Check v (Page f <=? 10000000) "page" "must be maximum of 10 million" in
  let v := Check v (0 <? PageSize f) "page_size" "must be greater than zero" in
  let v := Check v (PageSize f <=? 100) "page_size" "must be maximum of 100" in
  Check v (PermittedValue (Sort f) (SortSafeList f)) "sort" "invalid sort value".
End Validate.

(** The loop of [sortColumn] over the safelist. *)
Fixpoint sortColumn_from (sort : string) (safe : list string) : run string :=
  match safe with
  | [] => Panics ("unsafe sort parameter: " ++ sort)
  | safeValue :: rest =>
      if bool_decide (sort = safeValue) then Returns (TrimPrefix sort "-")
      else sortColumn_from sort rest
  end.

Definition sortColumn (f : Filters) : run string :=
  sortColumn_from (Sort f) (SortSafeList f).

Definition sortDirection (f : Filters) : string :=
  if HasPrefix (Sort f) "-" then "DESC" else "ASC".

Definition limit (f : Filters) : Z := PageSize f.

Definition offset (f : Filters) : Z :=
  wrap64 (wrap64 (Page f - 1) * PageSize f).

(** [calculateMetadata]; the division by a zero page size is a run-time
    panic, and Go's [/] truncates towards zero. *)
Definition calculateMetadata (totalRecords page pageSize : Z) : run Metadata :=
  if totalRecords =? 0 then Returns (mkMetadata 0 0 0 0 0)
  else if pageSize =? 0 then Panics "runtime error: integer divide by zero"
  else Returns (mkMetadata page pageSize 1
                  (wrap64 (Z.quot (wrap64 (wrap64 (totalRecords + pageSize) - 1))
                                  pageSize))
                  totalRecords).

End Filters.

(* ===================================================================== *)
(** ** The store, continued: SELECT and the number of rows affected *)
(* ===================================================================== *)

Module SqlQuery.
Import Sql.

(** [SELECT c, ... FROM rel WHERE c = e AND ...] *)
Record Select : Type := mkSelect {
  sel_columns : list string;
  sel_relation : string;
  sel_cond : list (string * Expr)
}.

Definition parse_select (ts : list token) : result Select :=
  match ts with
  | s :: rest =>
      if keyword "SELECT" s then
        match names rest with
        | Err e => Err e
        | Ok (cols, f :: r :: rest1) =>
            match keyword "FROM" f, name r with
            | true, Some rel =>
                match rest1 with
                | [] => Ok (mkSelect cols rel [])
                | w :: rest2 =>
                    if keyword "WHERE" w then
                      match equations (length rest2) (keyword "AND") rest2 with
                      | Ok (cond, []) => Ok (mkSelect cols rel cond)
                      | Ok (_, rest3) => Err (unexpected rest3)
                      | Err e => Err e
                      end
                    else Err (syntax_error (show w))
                end
            | false, _ => Err (syntax_error (show f))
            | _, None => Err (syntax_error (show r))
            end
        | Ok (_, rest1) => Err (unexpected rest1)
        end
      else Err (syntax_error (show s))
  | [] => Err syntax_error_at_end
  end.

(** The rows that satisfy the condition, in table order. *)
Fixpoint select_rows (args : list Value) (cond : list (string * Expr))
                     (rs : list (gmap string Value))
  : option (list (gmap string Value)) :=
  match rs with
  | [] => Some []
  | r :: rs' =>
      match holds args r cond, select_rows args cond rs' with
      | Some true, Some out => Some (r :: out)
      | Some false, Some out => Some out
      | _, _ => None
      end
  end.

Definition run_select (rels : gmap string Table) (args : list Value) (q : Select)
  : result (list (list Value)) :=
  match rels !! sel_relation q with
  | None => Err (undefined_table (sel_relation q))
  | Some t =>
      match unknown_column t (sel_columns q ++ mentioned (sel_cond q)) with
      | Some c => Err (undefined_column c)
      | None =>
          match select_rows args (sel_cond q) (rows t) with
          | Some rs => Ok (map (fun r => map (field r) (sel_columns q)) rs)
          | None => Err bad_expression
          end
      end
  end.

Definition is_select (query : string) : bool :=
  match lex query with
  | t :: _ => keyword "SELECT" t
  | [] => false
  end.

(** One statement of any of the four forms sent to the store. *)
Definition send_any (db : DB) (query : string) (args : list Value)
  : DB * result (list (list Value)) :=
  if is_select query then
    let sent := (journal db ++ [(query, args)])%list in
    match refusal db with
    | Some msg => (mkDB (relations db) sent (refusal db), Err (DriverError msg))
    | None =>
        match parse_select (lex query) with
        | Err e => (mkDB (relations db) sent (refusal db), Err e)
        | Ok q => (mkDB (relations db) sent (refusal db),
                   run_select (relations db) args q)
        end
    end
  else send db query args.

(** [DB.QueryRow] for any statement. *)
Definition QueryRow_any (db : DB) (query : string) (args : list Value)
  : DB * result (list Value) :=
  match send_any db query args with
  | (db', Ok (row :: _)) => (db', Ok row)
  | (db', Ok []) => (db', Err ErrNoRows)
  | (db', Err e) => (db', Err e)
  end.

Definition row_count (rels : gmap string Table) (rel : string) : Z :=
  match rels !! rel with
  | Some t => Z.of_nat (length (rows t))
  | None => 0
  end.

(** [Result.RowsAffected] of a statement that ran: the rows an UPDATE
    changed, the rows a DELETE removed, the row an INSERT added. *)
Definition rows_affected (query : string) (before after : gmap string Table)
                         (returned : list (list Value)) : Z :=
  match parse (lex query) with
  | Ok (InsertInto _ _ _) => 1
  | Ok (UpdateSet _ _ _ _) => Z.of_nat (length returned)
  | Ok (DeleteFrom rel _) => row_count before rel - row_count after rel
  | Err _ => 0
  end.

(** [DB.Exec] / [DB.ExecContext] with its [sql.Result]. *)
Definition Exec (db : DB) (query : string) (args : list Value) : DB * result Z :=
  match send db query args with
  | (db', Ok returned) =>
      (db', Ok (rows_affected query (relations db) (relations db') returned))
  | (db', Err e) => (db', Err e)
  end.

End SqlQuery.

(* ===================================================================== *)
(** ** internal/data: movies.go, Get and Delete *)
(* ===================================================================== *)

Module MovieRecords.
Import Sql SqlQuery Movies.

Definition get_query : string := " SELECT id, created_at, title, year, runtime, genres, version
	FROM movies
	WHERE id = $1".

(** [Row.Scan] into the seven fields of a movie.  A value of another kind
    than its destination's, or an integer outside the destination's range,
    is a Scan error. *)
Definition scan_movie (row : list Value) : result Movie :=
  match row with
  | [VInt id; VTime created; VText title; VInt year; VInt runtime; VArray genres;
     VInt version] =>
      if in_int64 id && in_int32 year && in_int32 runtime && in_int32 version
      then Ok (mkMovie id created title year runtime genres version)
      else Err (ScanError "sql: Scan error: value out of range")
  | _ => Err (ScanError "sql: Scan error: unsupported conversion")
  end.

(** [MovieModel.Get] *)
Definition MovieModel_Get (db : DB) (id : Z) : DB * result Movie :=
  if id <? 1 then (db, Err ErrRecordNotFound)
  else
    let '(db', row) := QueryRow_any db get_query [VInt id] in
    let scanned := match row with
                   | Ok vs => scan_movie vs
                   | Err e => Err e
                   end in
    match scanned with
    | Ok movie => (db', Ok movie)
    | Err err =>
        if bool_decide (err = ErrNoRows) then (db', Err ErrRecordNotFound)
        else (db', Err err)
    end.

Definition delete_query : string := "
	DELETE FROM movies
	WHERE id = $1
	".

(** [MovieModel.Delete]; the driver's [RowsAffected] does not fail. *)
Definition MovieModel_Delete (db : DB) (id : Z) : DB * option error :=
  if id <? 1 then (db, Some ErrRecordNotFound)
  else
    match Exec db delete_query [VInt id] with
    | (db', Err err) => (db', Some err)
    | (db', Ok rowsAffected) =>
        if rowsAffected =? 0 then (db', Some ErrRecordNotFound)
        else (db', None)
    end.

End MovieRecords.

(* ===================================================================== *)
(** ** internal/data: users.go, GetByEmail *)
(* ===================================================================== *)

Module UserRecords.
Import Sql SqlQuery Users.

Definition get_by_email_query : string := "
	SELECT id, created_at, name, email, password_hash, activated, version
	FROM users
	WHERE email = $1
	".

(** [Row.Scan] into the seven fields of a user; the plaintext of the
    password is not stored and stays nil.  A NULL [password_hash] scans
    into the nil slice. *)
Definition scan_user_row (row : list Value) : result User :=
  match row with
  | [VInt id; VTime created; VText name; VText email; h; VBool activated; VInt version] =>
      match h with
      | VBytes _ | VNull =>
          if in_int64 id && in_int64 version
          then Ok (mkUser id created name email
                          (mkPassword None (match h with VBytes bs => Some bs | _ => None end))
                          activated version)
          else Err (ScanError "sql: Scan error: value out of range")
      | _ => Err (ScanError "sql: Scan error: unsupported conversion")
      end
  | _ => Err (ScanError "sql: Scan error: unsupported conversion")
  end.

(** [UserModel.GetByEmail] *)
Definition UserModel_GetByEmail (db : DB) (email : string) : DB * result User :=
  let '(db', row) := QueryRow_any db get_by_email_query [VText email] in
  let scanned := match row with
                 | Ok vs => scan_user_row vs
                 | Err e => Err e
                 end in
  match scanned with
  | Ok user => (db', Ok user)
  | Err err =>
      if bool_decide (err = ErrNoRows) then (db', Err ErrRecordNotFound)
      else (db', Err err)
  end.

End UserRecords.

(* ===================================================================== *)
(** ** cmd/api: readIDParam and deleteMovieHandler *)
(* ===================================================================== *)

Module MovieHandlers.
Import Sql SqlQuery Http MovieRecords.

(** [httprouter.Params], as [ParamsFromContext] finds them in the request
    context, and [ByName]: the value of the first parameter of that name,
    or the empty string. *)
Definition Params : Type := list (string * string).

Fixpoint ByName (ps : Params) (name : string) : string :=
  match ps with
  | [] => ""
  | (key, value) :: rest => if bool_decide (key = name) then value else ByName rest name
  end.

(** The two errors of the strconv package. *)
Inductive NumError : Type :=
| ErrSyntax
| ErrRange.

Definition maxUint64 : Z := 2 ^ 64 - 1.

(** Arithmetic on [uint64] wraps around. *)
Definition wrapU64 (z : Z) : Z := z mod 2 ^ 64.

(** The loop of [strconv.ParseUint(s, 10, 64)] over the bytes of [s];
    [n] is the number read so far. *)
Fixpoint ParseUint_from (s : string) (n : Z) : Z * option NumError :=
  match s with
  | EmptyString => (n, None)
  | String c rest =>
      let code := Z.of_N (N_of_ascii c) in
      if (48 <=? code) && (code <=? 57) then
        let d := code - 48 in
        if maxUint64 / 10 + 1 <=? n then (maxUint64, Some ErrRange)
        else
          let n := wrapU64 (n * 10) in
          let n1 := wrapU64 (n + d) in
          if (n1 <? n) || (maxUint64 <? n1) then (maxUint64, Some ErrRange)
          else ParseUint_from rest n1
      else (0, Some ErrSyntax)
  end.

Definition ParseUint (s : string) : Z * option NumError :=
  match s with
  | EmptyString => (0, Some ErrSyntax)
  | _ => ParseUint_from s 0
  end.

(** [strconv.ParseInt(s, 10, 64)]: an optional sign, then [ParseUint], then
    the check against the range of [int64]. *)
Definition ParseInt (s : string) : Z * option NumError :=
  match s with
  | EmptyString => (0, Some ErrSyntax)
  | String c rest =>
      let neg := bool_decide (c = "-"%char) in
      let s := if bool_decide (c = "+"%char) || neg then rest else s in
      match ParseUint s with
      | (_, Some ErrSyntax) => (0, Some ErrSyntax)
      | (un, _) =>
          let cutoff := 2 ^ 63 in
          if negb neg && (cutoff <=? un) then (cutoff - 1, Some ErrRange)
          else if neg && (cutoff <? un) then (- cutoff, Some ErrRange)
          else (if neg then - un else un, None)
      end
  end.

(** helpers.go: [readIDParam]; the error is the text given to
    [errors.New]. *)
Definition readIDParam (params : Params) : Z * option string :=
  let '(id, err) := ParseInt (ByName params "id") in
  if bool_decide (err ≠ None) || (id <? 1) then (0, Some "invalid id parameter")
  else (id, None).

(** errors.go *)
Definition notFoundResponse (w : ResponseWriter) (r : Request) : ResponseWriter :=
  errorResponse w r 404 (Text "the requested resource could not be found").

(** movies.go: [deleteMovieHandler], with the store passed in and out. *)
Definition deleteMovieHandler (db : DB) (params : Params)
                              (r : Request) (w : ResponseWriter) : DB * ResponseWriter :=
  match readIDParam params with
  | (_, Some _) => (db, notFoundResponse w r)
  | (id, None) =>
      match MovieModel_Delete db id with
      | (db', Some err) =>
          if bool_decide (err = ErrRecordNotFound) then (db', notFoundResponse w r)
          else (db', serverErrorResponse w r err)
      | (db', None) =>
          (db', writeJSON w 200 [("message", Text "Movie successfully deleted")])
      end
  end.

End MovieHandlers.

(* ===================================================================== *)
(** ** Vocabulary of the further properties *)
(* ===================================================================== *)

Module MoreProps.
Import Sql validator Users Tokens Credentials Http Rate Api Props Samples.

(** The fields of a movie are within the ranges of their Go types. *)
Definition movie_in_range (m : Movies.Movie) : Prop :=
  in_int64 (Movies.ID m) = true ∧ in_int32 (Movies.Year m) = true
  ∧ in_int32 (Movies.Runtime m) = true ∧ in_int32 (Movies.Version m) = true.

(** No row of the list stands for the resource [id]. *)
Definition without_id (rs : list (gmap string Value)) (id : Z) : Prop :=
  ∀ row, row ∈ rs → field row "id" ≠ VInt id.




(** Every character of the string is in the base32 alphabet. *)
Definition base32_text (s : string) : Prop :=
  Forall (fun c => in_alphabet c = true) (list_ascii_of_string s).

(** The decimal digits and the number a string of digits denotes, read
    after [n]. *)
Definition is_digit (c : ascii) : bool :=
  (48 <=? Z.of_N (N_of_ascii c)) && (Z.of_N (N_of_ascii c) <=? 57).

Fixpoint digits_only (s : string) : bool :=
  match s with
  | EmptyString => true
  | String c rest => is_digit c && digits_only rest
  end.

Fixpoint decimal (n : Z) (s : string) : Z :=
  match s with
  | EmptyString => n
  | String c rest => decimal (10 * n + (Z.of_N (N_of_ascii c) - 48)) rest
  end.

(** A non-empty string of digits, with or without a leading plus sign,
    that denotes [id]. *)
Definition numeral_of (s : string) (id : Z) : Prop :=
  ∃ ds, (s = ds ∨ s = String "+" ds) ∧ ds ≠ "" ∧ digits_only ds = true
        ∧ decimal 0 ds = id.

(** No row of the list belongs to the address [email]. *)
Definition without_email (rs : list (gmap string Value)) (email : string) : Prop :=
  ∀ row, row ∈ rs → field row "email" ≠ VText email.

(** The integer fields of a user are within the range of [int64] and the
    password carries no plaintext. *)
Definition user_as_stored (u : User) : Prop :=
  in_int64 (ID u) = true ∧ in_int64 (Version u) = true
  ∧ plaintext (Password u) = None.

End MoreProps.

(* ===================================================================== *)
(** ** Properties *)
(* ===================================================================== *)

Import Sql validator Users Tokens Credentials Http Rate Api Props Samples MoreProps.

Example sha256_constants :
  length Sha256.K = 64%nat
  ∧ Sha256.K !! 0%nat = Some 0x428a2f98 ∧ Sha256.K !! 63%nat = Some 0xc67178f2
  ∧ Sha256.H0 !! 0%nat = Some 0x6a09e667 ∧ Sha256.H0 !! 7%nat = Some 0x5be0cd19.
Proof. repeat split. Qed.

Example sha256_abc :
  map Sha256.byteZ (Sha256.Sum256 (bytes_of "abc")) =
  [0xba; 0x78; 0x16; 0xbf; 0x8f; 0x01; 0xcf; 0xea; 0x41; 0x41; 0x40; 0xde;
   0x5d; 0xae; 0x22; 0x23; 0xb0; 0x03; 0x61; 0xa3; 0x96; 0x17; 0x7a; 0x9c;
   0xb4; 0x10; 0xff; 0x61; 0xf2; 0x00; 0x15; 0xad].
Proof. vm_compute. reflexivity. Qed.

(** *** Wrappers either forward or answer *)

Lemma answers_not_reaches (h : Handler -> Handler) r w w' :
  answers h r w w' → ¬ reaches_handler h r w.
Proof.
  intros Hans (r' & w'' & Hfw).
  specialize (Hans (fun _ _ => Panics "")).
  specialize (Hfw (fun _ _ => Panics "")).
  simpl in Hfw. congruence.
Qed.

Lemma forwards_reaches (h : Handler -> Handler) r w r' w' :
  forwards h r w r' w' → reaches_handler h r w.
Proof. intros H. exists r', w'. exact H. Qed.

Lemma Include_elem_of (p : list string) (code : string) :
  Permissions.Include p code = true ↔ code ∈ p.
Proof.
  induction p as [|x p IH]; simpl.
  - split; [discriminate | intros H; inversion H].
  - case_bool_decide as Hx.
    + subst. split; [intros _; left | reflexivity].
    + rewrite IH. split; [intros H; by right |].
      intros H. apply elem_of_cons in H as [H|H]; [contradiction | exact H].
Qed.

(** *** authenticate: a request without Authorization header *)



(** C9. A request that carries no Authorization header is not rejected by
    [authenticate]: whatever the store would answer, the next handler runs,
    with the anonymous identity in the request context (and "Vary:
    Authorization" added to the response); the rejection is left to the
    gates behind it, of which [requireAuthenticatedUser] then answers
    "authentication required" without reaching its handler. *)
Theorem authenticate_without_header
    (GetForToken : string -> string -> result User) (r : Request) (w : ResponseWriter) :
  Header r !! "Authorization" = None →
  forwards (authenticate GetForToken) r w
           (contextSetUser r AnonymousUser) (Header_Add w "Vary" "Authorization")
  ∧ ∀ next,
      authenticate GetForToken (requireAuthenticatedUser next) r w
      = Returns (authenticationRequiredResponse
                   (Header_Add w "Vary" "Authorization")
                   (contextSetUser r AnonymousUser)).
Proof.
  intros Hnone.
  assert (Hget : Header_Get (Header r) "Authorization" = "").
  { unfold Header_Get. by rewrite Hnone. }
  split.
  - intros next. unfold authenticate. rewrite Hget. reflexivity.
  - intros next. unfold authenticate. rewrite Hget. reflexivity.
Qed.

Lemma authenticate_without_header_witness :
  Header (plain_request ∅ None) !! "Authorization" = None
  ∧ forwards (authenticate (fun _ _ => Err ErrRecordNotFound))
             (plain_request ∅ None) blank_writer
             (contextSetUser (plain_request ∅ None) AnonymousUser)
             (Header_Add blank_writer "Vary" "Authorization").
Proof.
  split; [reflexivity |].
  apply (authenticate_without_header (fun _ _ => Err ErrRecordNotFound)
           (plain_request ∅ None) blank_writer).
  reflexivity.
Defined.

(** *** ValidateUser and the missing password hash *)

(** C10. [ValidateUser] panics exactly when the password hash of the user is
    nil: with a nil hash it aborts with "missing password hash for user"
    whatever the other fields and the validator hold, and with a hash it
    returns a validator. *)
Theorem ValidateUser_panics_iff_no_hash
    (Matches_EmailRX : string -> bool) (v : Validator) (user : User) :
  match hash (Password user) with
  | None => ValidateUser Matches_EmailRX v user = Panics "missing password hash for user"
  | Some _ => ∃ v', ValidateUser Matches_EmailRX v user = Returns v'
  end.
Proof.
  unfold ValidateUser.
  destruct (hash (Password user)); [eexists |]; reflexivity.
Qed.

(** *** requiredPermission *)

Ltac open_gates :=
  unfold requiredPermission, requireActivatedUser, requireAuthenticatedUser,
    contextGetUser.

Section PermissionGate.
Variable QueryContext : string -> list Value -> result Permissions.Rows.
Variable code : string.
Variables (r : Request) (w : ResponseWriter) (user : Identity).
Hypothesis in_context : userContextKey r = Some user.

Let lookup := Permissions.GetAllForUser QueryContext (ID (deref user)).

Lemma gate_anonymous :
  IsAnonymous user = true →
  answers (requiredPermission QueryContext code) r w
          (authenticationRequiredResponse w r).
Proof.
  intros Hanon next.
  open_gates.
  rewrite in_context, Hanon. reflexivity.
Qed.

Lemma gate_inactive :
  IsAnonymous user = false → Activated (deref user) = false →
  answers (requiredPermission QueryContext code) r w (inactiveAccountResponse w r).
Proof.
  intros Hanon Hact next.
  open_gates.
  rewrite in_context, Hanon, Hact. reflexivity.
Qed.

Lemma gate_lookup_failed err :
  IsAnonymous user = false → Activated (deref user) = true →
  lookup = Err err →
  answers (requiredPermission QueryContext code) r w (serverErrorResponse w r err).
Proof.
  intros Hanon Hact Hlook next.
  open_gates.
  rewrite in_context, Hanon, Hact. simpl.
  fold lookup. rewrite Hlook. reflexivity.
Qed.

Lemma gate_not_permitted permissions :
  IsAnonymous user = false → Activated (deref user) = true →
  lookup = Ok permissions → code ∉ permissions →
  answers (requiredPermission QueryContext code) r w (notPermittedResponse w r).
Proof.
  intros Hanon Hact Hlook Hnot next.
  open_gates.
  rewrite in_context, Hanon, Hact. simpl.
  fold lookup. rewrite Hlook.
  destruct (Permissions.Include permissions code) eqn:Hinc; [|reflexivity].
  apply Include_elem_of in Hinc. contradiction.
Qed.

Lemma gate_permitted permissions :
  IsAnonymous user = false → Activated (deref user) = true →
  lookup = Ok permissions → code ∈ permissions →
  forwards (requiredPermission QueryContext code) r w r w.
Proof.
  intros Hanon Hact Hlook Hin next.
  open_gates.
  rewrite in_context, Hanon, Hact. simpl.
  fold lookup. rewrite Hlook.
  apply Include_elem_of in Hin. rewrite Hin. reflexivity.
Qed.

(** C4 (as amended). With an identity in the request context,
    [requiredPermission code] reaches the wrapped handler if and only if
    the identity is not anonymous, the user is activated, and the lookup of
    the user's permissions made for this request succeeds and contains
    [code] (exact string match).  Otherwise the handler is not reached and
    the request is answered, in this order of checks, with "authentication
    required" (anonymous), "inactive account" (not activated), a server
    error (the lookup itself failed), or "permission denied" (the code is
    not among the permissions). *)
Theorem requiredPermission_gate :
  (reaches_handler (requiredPermission QueryContext code) r w
   ↔ IsAnonymous user = false ∧ Activated (deref user) = true
     ∧ ∃ permissions, lookup = Ok permissions ∧ code ∈ permissions)
  ∧ (IsAnonymous user = true →
     answers (requiredPermission QueryContext code) r w
             (authenticationRequiredResponse w r))
  ∧ (IsAnonymous user = false → Activated (deref user) = false →
     answers (requiredPermission QueryContext code) r w
             (inactiveAccountResponse w r))
  ∧ (IsAnonymous user = false → Activated (deref user) = true →
     ∀ err, lookup = Err err →
     answers (requiredPermission QueryContext code) r w
             (serverErrorResponse w r err))
  ∧ (IsAnonymous user = false → Activated (deref user) = true →
     ∀ permissions, lookup = Ok permissions → code ∉ permissions →
     answers (requiredPermission QueryContext code) r w
             (notPermittedResponse w r)).
Proof.
  split; [| repeat split; eauto using gate_anonymous, gate_inactive,
               gate_lookup_failed, gate_not_permitted].
  split.
  - intros Hreach.
    destruct (IsAnonymous user) eqn:Hanon.
    { exfalso. eapply answers_not_reaches; [|exact Hreach].
      by apply gate_anonymous. }
    destruct (Activated (deref user)) eqn:Hact; cycle 1.
    { exfalso. eapply answers_not_reaches; [|exact Hreach].
      by apply gate_inactive. }
    destruct lookup as [permissions|err] eqn:Hlook; cycle 1.
    { exfalso. eapply answers_not_reaches; [|exact Hreach].
      by eapply gate_lookup_failed. }
    destruct (decide (code ∈ permissions)) as [Hin|Hnot].
    + repeat split. by exists permissions.
    + exfalso. eapply answers_not_reaches; [|exact Hreach].
      by eapply gate_not_permitted.
  - intros (Hanon & Hact & permissions & Hlook & Hin).
    eapply forwards_reaches, gate_permitted; eauto.
Qed.
End PermissionGate.




Lemma requiredPermission_gate_witness :
  reaches_handler
    (requiredPermission (store_granting ["movies:read"; "movies:write"]) "movies:write")
    (plain_request ∅ (Some (Registered alice))) blank_writer.
Proof.
  pose proof (requiredPermission_gate
                (store_granting ["movies:read"; "movies:write"]) "movies:write"
                (plain_request ∅ (Some (Registered alice))) blank_writer
                (Registered alice) eq_refl) as [[_ Hreach] _].
  apply Hreach. repeat split.
  exists ["movies:read"; "movies:write"]. split; [reflexivity |].
  apply list_elem_of_In. simpl. auto.
Defined.

(** C4, the claim as it stands, fails when the lookup of the permissions
    fails: an activated, authenticated user is then answered with a server
    error, which is none of the three listed failures, and the handler is
    not reached. *)
Lemma requiredPermission_counterexample :
  let r := plain_request ∅ (Some (Registered alice)) in
  let out := requiredPermission store_down "movies:write"
               (fun _ w => Returns w) r blank_writer in
  ¬ reaches_handler (requiredPermission store_down "movies:write") r blank_writer
  ∧ out ≠ Returns (authenticationRequiredResponse blank_writer r)
  ∧ out ≠ Returns (inactiveAccountResponse blank_writer r)
  ∧ out ≠ Returns (notPermittedResponse blank_writer r)
  ∧ (out = Returns (serverErrorResponse blank_writer r
                      (DriverError "pq: the database system is shutting down"))).
Proof.
  simpl. split.
  - apply answers_not_reaches with
      (w' := serverErrorResponse blank_writer
               (plain_request ∅ (Some (Registered alice)))
               (DriverError "pq: the database system is shutting down")).
    intros next. reflexivity.
  - repeat split; intros H; vm_compute in H; discriminate H.
Qed.

(** *** authenticate: bearer values that are no credential *)

Lemma AddError_invalid v key message : Valid (AddError v key message) = false.
Proof.
  unfold Valid, AddError.
  destruct (Errors v !! key) eqn:Hkey; simpl; apply bool_decide_eq_false_2.
  - intros Hempty. rewrite Hempty, lookup_empty in Hkey. discriminate.
  - apply insert_non_empty.
Qed.

Lemma Check_valid v ok key message :
  Valid (Check v ok key message) = ok && Valid v.
Proof.
  unfold Check. destruct ok; simpl; [reflexivity | apply AddError_invalid].
Qed.

Lemma token_format_valid (tok : string) :
  Valid (ValidateTokenPlainText validator.New tok) = true ↔ String.length tok = 26%nat.
Proof.
  unfold ValidateTokenPlainText. rewrite !Check_valid.
  replace (Valid validator.New) with true by reflexivity.
  rewrite !andb_true_r, andb_true_iff, negb_true_iff, bool_decide_eq_false.
  unfold len. rewrite Z.eqb_eq. split.
  - intros [H _]. lia.
  - intros H. split; [lia|]. intros ->. discriminate H.
Qed.

Lemma two_parts (parts : list string) :
  length parts = 2%nat → parts !! 0%nat = Some "Bearer" →
  parts = ["Bearer"; default "" (parts !! 1%nat)].
Proof.
  destruct parts as [|a [|b [|c parts]]]; simpl; try discriminate.
  intros _ [= ->]. reflexivity.
Qed.

Lemma authenticate_malformed G next r w :
  malformed (authorization r) → authenticate G next r w = rejected w r.
Proof.
  intros [Hne Hshape]. unfold authenticate, rejected. fold (authorization r).
  rewrite bool_decide_eq_false_2 by exact Hne.
  destruct (negb (bool_decide (length (strings_Split (authorization r) " ") = 2%nat))
            || negb (bool_decide (strings_Split (authorization r) " " !! 0%nat
                                  = Some "Bearer"))) eqn:Hparts; [reflexivity|].
  apply orb_false_elim in Hparts as [Hlen Hfst].
  apply negb_false_iff, bool_decide_eq_true in Hlen, Hfst.
  pose proof (two_parts _ Hlen Hfst) as Hsplit.
  set (tok := default "" (strings_Split (authorization r) " " !! 1%nat)) in *.
  destruct (Valid (ValidateTokenPlainText validator.New tok)) eqn:Hvalid; [|reflexivity].
  exfalso. apply (Hshape tok). split; [exact Hsplit|].
  by apply token_format_valid.
Qed.

Lemma authenticate_presented G next r w tok :
  presents (authorization r) tok →
  authenticate G next r w =
  match G ScopeAuthentication tok with
  | Err err =>
      if bool_decide (err = ErrRecordNotFound) then rejected w r
      else Returns (serverErrorResponse (Header_Add w "Vary" "Authorization") r err)
  | Ok user =>
      next (contextSetUser r (Registered user)) (Header_Add w "Vary" "Authorization")
  end.
Proof.
  intros [Hsplit Hlen]. unfold authenticate, rejected. fold (authorization r).
  assert (authorization r ≠ "") as Hne.
  { intros Heq. rewrite Heq in Hsplit. discriminate Hsplit. }
  rewrite bool_decide_eq_false_2 by exact Hne.
  rewrite Hsplit. simpl.
  apply token_format_valid in Hlen. rewrite Hlen. simpl. reflexivity.
Qed.

(** C7 (as amended). A presented Authorization value that does not have
    the shape "Bearer <token>" with a token of exactly 26 bytes is rejected
    before the store is consulted: the outcome is the invalid-credential
    response whatever the lookup would answer and whatever handler follows.
    (No check of the token's characters is made.) *)
Theorem authenticate_rejects_malformed_before_lookup
    (G1 G2 : string -> string -> result User) (next1 next2 : Handler)
    (r : Request) (w : ResponseWriter) :
  malformed (authorization r) →
  authenticate G1 next1 r w
  = Returns (invalidAuthenticationTokenResponse (Header_Add w "Vary" "Authorization") r)
  ∧ authenticate G2 next2 r w = authenticate G1 next1 r w.
Proof.
  intros Hbad. rewrite !authenticate_malformed by exact Hbad. split; reflexivity.
Qed.

Lemma short_token_malformed : malformed (authorization (plain_request (bearer "ABC") None)).
Proof.
  split; [discriminate|].
  intros tok [Hsplit Hlen]. vm_compute in Hsplit.
  injection Hsplit as <-. discriminate Hlen.
Qed.

Lemma authenticate_rejects_malformed_before_lookup_witness :
  authenticate (fun _ _ => Ok alice) (fun _ w => Returns w)
               (plain_request (bearer "ABC") None) blank_writer
  = Returns (invalidAuthenticationTokenResponse
               (Header_Add blank_writer "Vary" "Authorization")
               (plain_request (bearer "ABC") None)).
Proof.
  apply (authenticate_rejects_malformed_before_lookup
           (fun _ _ => Ok alice) (fun _ _ => Err ErrRecordNotFound)
           (fun _ w => Returns w) (fun _ w => Returns w)
           (plain_request (bearer "ABC") None) blank_writer).
  exact short_token_malformed.
Defined.

(** C7, the claim as it stands, fails for a wrong character set: a token of
    26 bytes none of which is in the base32 alphabet passes the format check
    and is looked up, so the outcome depends on what the lookup answers, and
    with it on what the store holds. *)
Lemma authenticate_charset_counterexample :
  let r := plain_request (bearer odd_token) None in
  let holding := store_of [credential_row (Sha256.Sum256 (bytes_of odd_token)) 7 100
                             ScopeAuthentication] [user_row alice] [] in
  let empty := store_of [] [user_row alice] [] in
  forallb in_alphabet (list_ascii_of_string odd_token) = false
  ∧ authenticate (fun _ _ => Err ErrRecordNotFound) (fun _ w => Returns w) r blank_writer
    = rejected blank_writer r
  ∧ authenticate (fun _ _ => Ok alice) (fun _ w => Returns w) r blank_writer
    = Returns (Header_Add blank_writer "Vary" "Authorization")
  ∧ authenticate (GetForToken empty 50) (fun _ w => Returns w) r blank_writer
    = rejected blank_writer r
  ∧ authenticate (GetForToken holding 50) (fun _ w => Returns w) r blank_writer
    = Returns (Header_Add blank_writer "Vary" "Authorization")
  ∧ authenticate (GetForToken holding 50) (fun _ w => Returns w) r blank_writer
    ≠ authenticate (GetForToken empty 50) (fun _ w => Returns w) r blank_writer.
Proof.
  cbv zeta. do 5 (split; [vm_compute; reflexivity|]).
  vm_compute. intros H. discriminate H.
Qed.

Lemma classic_presents (h : string) : (∃ tok, presents h tok) ∨ (∀ tok, ¬ presents h tok).
Proof.
  destruct (strings_Split h " ") as [|a [|tok [|c parts]]] eqn:Hs;
    try (right; intros tok' [H _]; rewrite Hs in H; discriminate H).
  destruct (decide (a = "Bearer")) as [->|Ha];
    [|right; intros tok' [H _]; rewrite Hs in H; congruence].
  destruct (decide (String.length tok = 26%nat)) as [Hl|Hl].
  - left. exists tok. by split.
  - right. intros tok' [H Hl']. rewrite Hs in H. congruence.
Qed.

Lemma filter_none {A} (P : A → Prop) `{∀ x, Decision (P x)} (l : list A) :
  (∀ x, x ∈ l → ¬ P x) → filter P l = [].
Proof.
  induction l as [|x l IH]; intros Hall; [reflexivity|].
  rewrite filter_cons_False by (apply Hall; left).
  apply IH. intros y Hy. apply Hall. by right.
Qed.

Lemma lookup_without_live_row db now scope tok credentials users :
  serving db credentials users →
  (∀ row, row ∈ rows credentials →
          live now scope (Sha256.Sum256 (bytes_of tok)) row = false) →
  GetForToken db now scope tok = Err ErrRecordNotFound.
Proof.
  intros (Hup & Hcred & Husers) Hdead. unfold GetForToken.
  rewrite Hup, Hcred, Husers.
  rewrite filter_none; [reflexivity|].
  intros row Hin Hlive. rewrite (Hdead row Hin) in Hlive. discriminate.
Qed.

Lemma no_credential_not_found db now h tok :
  presents h tok → no_credential db now h →
  GetForToken db now ScopeAuthentication tok = Err ErrRecordNotFound.
Proof.
  intros Hpres Hno.
  assert (Hsame : ∀ tok', presents h tok' → tok' = tok).
  { intros tok' [H' _]. destruct Hpres as [H _]. congruence. }
  destruct Hno as [[_ Hbad] | tok' cs us Hp Hs Hrows | tok' cs us Hp Hs Hrows
                  | tok' cs us Hp Hs Hrows].
  - exfalso. by eapply Hbad.
  - apply Hsame in Hp as ->. eapply lookup_without_live_row; [exact Hs|].
    intros row Hin. unfold live.
    rewrite (bool_decide_eq_false_2 _ (Hrows row Hin)). reflexivity.
  - apply Hsame in Hp as ->. eapply lookup_without_live_row; [exact Hs|].
    intros row Hin. unfold live.
    destruct (decide (field row "hash" = digest tok)) as [Hh|Hh].
    + destruct (Hrows row Hin Hh) as (t & -> & Hle).
      rewrite (proj2 (Z.ltb_ge now t) Hle). apply andb_false_r.
    + rewrite (bool_decide_eq_false_2 _ Hh). reflexivity.
  - apply Hsame in Hp as ->. eapply lookup_without_live_row; [exact Hs|].
    intros row Hin. unfold live.
    destruct (decide (field row "hash" = digest tok)) as [Hh|Hh].
    + rewrite (bool_decide_eq_false_2 _ (Hrows row Hin Hh)).
      rewrite andb_false_r. reflexivity.
    + rewrite (bool_decide_eq_false_2 _ Hh). reflexivity.
Qed.

Lemma authenticate_no_credential db now next r w :
  no_credential db now (authorization r) →
  authenticate (GetForToken db now) next r w = rejected w r.
Proof.
  intros Hno.
  destruct (classic_presents (authorization r)) as [[tok Hpres] | Hnone].
  - rewrite (authenticate_presented _ _ _ _ tok Hpres).
    rewrite (no_credential_not_found _ _ _ _ Hpres Hno). reflexivity.
  - apply authenticate_malformed. split; [|exact Hnone].
    destruct Hno as [[Hne _] | tok _ _ [Hs _] _ _ | tok _ _ [Hs _] _ _
                    | tok _ _ [Hs _] _ _]; [exact Hne | | |];
      intros Heq; rewrite Heq in Hs; discriminate Hs.
Qed.

(** C3. A presented bearer value that is malformed, unknown, expired or of
    the wrong scope is answered with one and the same invalid-credential
    response: the answer is the invalid-authentication-token response, the
    handler behind is not run, and two requests rejected for any two of the
    four reasons (against any stores, at any instants) get equal answers. *)
Theorem invalid_credentials_indistinguishable
    (db1 db2 : DB) (now1 now2 : Z) (next1 next2 : Handler)
    (r1 r2 : Request) (w : ResponseWriter) :
  no_credential db1 now1 (authorization r1) →
  no_credential db2 now2 (authorization r2) →
  authenticate (GetForToken db1 now1) next1 r1 w
  = Returns (invalidAuthenticationTokenResponse (Header_Add w "Vary" "Authorization") r1)
  ∧ authenticate (GetForToken db1 now1) next1 r1 w
    = authenticate (GetForToken db2 now2) next2 r2 w.
Proof.
  intros H1 H2. rewrite !authenticate_no_credential by assumption.
  split; reflexivity.
Qed.

Lemma activation_credential_of_wrong_scope :
  no_credential (store_holding ScopeActivation) 50
                (authorization (plain_request (bearer sample_token) None)).
Proof.
  eapply (is_of_wrong_scope _ _ _ sample_token).
  - split; reflexivity.
  - repeat split; reflexivity.
  - intros row Hin _. apply list_elem_of_singleton in Hin as ->.
    vm_compute. discriminate.
Qed.

Lemma invalid_credentials_indistinguishable_witness :
  authenticate (GetForToken (store_of [] [] []) 0) (fun _ w => Returns w)
               (plain_request (bearer "ABC") None) blank_writer
  = authenticate (GetForToken (store_holding ScopeActivation) 50) (fun _ w => Returns w)
                 (plain_request (bearer sample_token) None) blank_writer.
Proof.
  apply (invalid_credentials_indistinguishable
           (store_of [] [] []) (store_holding ScopeActivation) 0 50
           (fun _ w => Returns w) (fun _ w => Returns w)
           (plain_request (bearer "ABC") None)
           (plain_request (bearer sample_token) None) blank_writer).
  - apply is_malformed, short_token_malformed.
  - exact activation_credential_of_wrong_scope.
Defined.

(** With the matching scope and before the expiry the same credential is
    accepted: the rejection above is due to the scope alone. *)
Example authentication_credential_accepted :
  authenticate (GetForToken (store_holding ScopeAuthentication) 50)
               (fun r w => Returns w)
               (plain_request (bearer sample_token) None) blank_writer
  = Returns (Header_Add blank_writer "Vary" "Authorization")
  ∧ GetForToken (store_holding ScopeAuthentication) 50 ScopeAuthentication sample_token
    = Ok alice
  ∧ GetForToken (store_holding ScopeAuthentication) 100 ScopeAuthentication sample_token
    = Err ErrRecordNotFound.
Proof. split; [|split]; vm_compute; reflexivity. Qed.

(** *** The token bucket *)

Lemma token_unit_pos (r : Q) : 0 < token_unit r.
Proof. unfold token_unit, Second. lia. Qed.

Lemma advance_at_last (r : Q) (b k t : Z) :
  0 ≤ k ≤ b → advance (mkLimiter r b (k * token_unit r) t) t = k * token_unit r.
Proof.
  intros Hk. unfold advance. simpl.
  pose proof (token_unit_pos r).
  rewrite Z.min_id, Z.sub_diag, Z.mul_0_l, Z.add_0_r.
  apply Z.min_l. nia.
Qed.

Lemma Allow_takes_one (lim : Limiter) (t k : Z) :
  1 ≤ k ≤ burst lim → advance lim t = k * token_unit (limit lim) →
  Allow lim t = (true, mkLimiter (limit lim) (burst lim)
                                 ((k - 1) * token_unit (limit lim)) t).
Proof.
  intros Hk Hadv. unfold Allow. rewrite Hadv.
  pose proof (token_unit_pos (limit lim)).
  replace (k * token_unit (limit lim) - token_unit (limit lim))
    with ((k - 1) * token_unit (limit lim)) by lia.
  rewrite (proj2 (Z.leb_le 1 (burst lim))) by lia.
  rewrite (proj2 (Z.leb_le 0 _)) by nia.
  reflexivity.
Qed.

Lemma Allow_refuses_empty (lim : Limiter) (t : Z) :
  advance lim t = 0 → Allow lim t = (false, lim).
Proof.
  intros Hadv. unfold Allow. rewrite Hadv.
  pose proof (token_unit_pos (limit lim)).
  rewrite (proj2 (Z.leb_gt 0 _)) by lia.
  rewrite andb_false_r. reflexivity.
Qed.

Lemma advance_after_period (r : Q) (b t d : Z) :
  0 < Qnum r → 1 ≤ b → one_token_period r d →
  advance (mkLimiter r b 0 t) (t + d) = 1 * token_unit r.
Proof.
  intros Hr Hb Hd. unfold one_token_period in Hd. unfold advance. simpl.
  pose proof (token_unit_pos r).
  assert (0 < d) by nia.
  rewrite (Z.min_l t (t + d)) by lia.
  replace (t + d - t) with d by lia. rewrite Hd.
  rewrite Z.min_l by nia. lia.
Qed.

Lemma NewLimiter_full (r : Q) (b t : Z) :
  0 ≤ Qnum r → full_at (NewLimiter r b) t.
Proof.
  intros Hr. unfold full_at, advance, NewLimiter. simpl.
  apply Z.min_r.
  assert (0 ≤ t - Z.min 0 t) by lia. nia.
Qed.

(** *** rateLimit *)

Section Limiter.
Variable SplitHostPort : string -> result (string * string).
Variable cfg : limiter_config.
Variable next : Handler.
Variables (r : Request) (w : ResponseWriter) (ip port : string).
Hypothesis on : enabled cfg = true.
Hypothesis from_ip : SplitHostPort (RemoteAddr r) = Ok (ip, port).

Lemma under_lock_bucket (clients : gmap string client) (t_seen t_allow : Z) :
  under_lock cfg clients ip t_seen t_allow
  = (<[ip := mkClient (Allow (bucket_of cfg clients ip) t_allow).2 t_seen]> clients,
     (Allow (bucket_of cfg clients ip) t_allow).1).
Proof.
  unfold under_lock, bucket_of.
  destruct (clients !! ip) as [c|] eqn:Hc.
  - rewrite lookup_alter_eq, Hc. simpl.
    destruct (Allow (limiter c) t_allow) as [ok lim]. simpl. f_equal.
    apply map_eq. intros j. destruct (decide (ip = j)) as [->|Hne].
    + by rewrite !lookup_insert_eq.
    + by rewrite !lookup_insert_ne, lookup_alter_ne.
  - rewrite lookup_alter_eq, lookup_insert_eq. simpl.
    destruct (Allow (NewLimiter (rps cfg) (cfg_burst cfg)) t_allow) as [ok lim]. simpl.
    f_equal. apply map_eq. intros j. destruct (decide (ip = j)) as [->|Hne].
    + by rewrite !lookup_insert_eq.
    + by rewrite !lookup_insert_ne, lookup_alter_ne, lookup_insert_ne.
Qed.

Lemma bucket_of_insert (clients : gmap string client) (c : client) :
  bucket_of cfg (<[ip := c]> clients) ip = limiter c.
Proof. unfold bucket_of. by rewrite lookup_insert_eq. Qed.

Lemma rateLimit_bucket (clients : gmap string client) (t_seen t_allow : Z) :
  rateLimit SplitHostPort cfg next clients t_seen t_allow r w
  = (<[ip := mkClient (Allow (bucket_of cfg clients ip) t_allow).2 t_seen]> clients,
     if (Allow (bucket_of cfg clients ip) t_allow).1 then next r w
     else Returns (rateLimitExceededResponse w r)).
Proof.
  unfold rateLimit. rewrite on, from_ip, under_lock_bucket.
  destruct (Allow (bucket_of cfg clients ip) t_allow) as [[] lim]; reflexivity.
Qed.

Lemma serve_all_app (clients : gmap string client) (ts1 ts2 : list Z) :
  serve_all SplitHostPort cfg next clients (ts1 ++ ts2) r w
  = let '(clients1, outs1) := serve_all SplitHostPort cfg next clients ts1 r w in
    let '(clients2, outs2) := serve_all SplitHostPort cfg next clients1 ts2 r w in
    (clients2, (outs1 ++ outs2)%list).
Proof.
  revert clients. induction ts1 as [|t ts1 IH]; intros clients; simpl.
  - destruct (serve_all _ _ _ clients ts2 r w). reflexivity.
  - destruct (rateLimit _ _ _ clients t t r w) as [clients' out].
    rewrite IH.
    destruct (serve_all _ _ _ clients' ts1 r w) as [clients1 outs1].
    destruct (serve_all _ _ _ clients1 ts2 r w). reflexivity.
Qed.

(** [n] requests at one instant from a bucket that holds [k >= n] tokens:
    all are handed on, and [k - n] tokens are left. *)
Lemma serve_all_available (n : nat) :
  ∀ (clients : gmap string client) (t k : Z),
    let lim := bucket_of cfg clients ip in
    Z.of_nat n ≤ k ≤ burst lim →
    advance lim t = k * token_unit (limit lim) →
    ∃ clients',
      serve_all SplitHostPort cfg next clients (replicate n t) r w
      = (clients', replicate n (next r w))
      ∧ limit (bucket_of cfg clients' ip) = limit lim
      ∧ burst (bucket_of cfg clients' ip) = burst lim
      ∧ advance (bucket_of cfg clients' ip) t = (k - Z.of_nat n) * token_unit (limit lim)
      ∧ (0 < n → bucket_of cfg clients' ip
                 = mkLimiter (limit lim) (burst lim)
                             ((k - Z.of_nat n) * token_unit (limit lim)) t)%nat.
Proof.
  induction n as [|n IH]; intros clients t k lim Hk Hadv.
  - exists clients. simpl. repeat split; try reflexivity.
    + fold lim. rewrite Hadv. f_equal. lia.
    + lia.
  - simpl. rewrite rateLimit_bucket. fold lim.
    rewrite (Allow_takes_one lim t k) by (try exact Hadv; lia). simpl.
    set (lim1 := mkLimiter (limit lim) (burst lim) ((k - 1) * token_unit (limit lim)) t).
    set (clients1 := <[ip := mkClient lim1 t]> clients).
    assert (Hb : bucket_of cfg clients1 ip = lim1) by apply bucket_of_insert.
    destruct (IH clients1 t (k - 1)) as (clients' & Hrun & Hl & Hbu & Ha & Hst).
    + rewrite Hb. simpl. lia.
    + rewrite Hb. simpl. apply advance_at_last. lia.
    + rewrite Hb in Hl, Hbu, Ha, Hst. simpl in Hl, Hbu, Ha, Hst. rewrite Hrun.
      exists clients'. split; [reflexivity|]. split; [exact Hl|].
      split; [exact Hbu|]. split.
      * rewrite Ha. f_equal. lia.
      * intros _. destruct n as [|n].
        -- simpl in Hrun. injection Hrun as <-. rewrite Hb. unfold lim1.
           f_equal; lia.
        -- rewrite Hst by lia. f_equal; lia.
Qed.
End Limiter.

(** C5. With the limiter enabled, a positive rate and a burst of at least
    one: for a client whose bucket is full at instant [t] (a first-seen
    client always is), [burst] requests at [t] are all handed to the next
    handler, one more request at [t] is answered with the
    rate-limit-exceeded response, and after [1/rate] seconds exactly one
    more request is handed on, the one after it being refused again.  The
    first request of an unseen client puts a freshly allocated, full limiter
    into the map. *)
Theorem burst_then_one_per_period
    (SplitHostPort : string -> result (string * string)) (cfg : limiter_config)
    (next : Handler) (r : Request) (w : ResponseWriter) (ip port : string)
    (clients : gmap string client) (t d : Z) :
  enabled cfg = true →
  SplitHostPort (RemoteAddr r) = Ok (ip, port) →
  let lim := bucket_of cfg clients ip in
  let n := Z.to_nat (burst lim) in
  0 < Qnum (limit lim) → 1 ≤ burst lim →
  clients !! ip = None ∨ full_at lim t →
  one_token_period (limit lim) d →
  (serve_all SplitHostPort cfg next clients (replicate n t ++ [t; t + d; t + d]) r w).2
  = (replicate n (next r w)
     ++ [Returns (rateLimitExceededResponse w r); next r w;
         Returns (rateLimitExceededResponse w r)])%list
  ∧ (clients !! ip = None →
     lim = NewLimiter (rps cfg) (cfg_burst cfg)
     ∧ full_at lim t
     ∧ (rateLimit SplitHostPort cfg next clients t t r w).1 !! ip
       = Some (mkClient (Allow (NewLimiter (rps cfg) (cfg_burst cfg)) t).2 t)).
Proof.
  intros Hon Hip lim n Hrate Hburst Hfull Hd.
  assert (Hnew : clients !! ip = None → lim = NewLimiter (rps cfg) (cfg_burst cfg)).
  { intros Hnone. unfold lim, bucket_of. by rewrite Hnone. }
  assert (Hfull' : full_at lim t).
  { destruct Hfull as [Hnone|Hfull]; [|exact Hfull].
    rewrite (Hnew Hnone). apply NewLimiter_full.
    rewrite (Hnew Hnone) in Hrate. simpl in Hrate. lia. }
  split.
  - destruct (serve_all_available SplitHostPort cfg next r w ip port Hon Hip
                n clients t (burst lim)) as (clients1 & Hrun & _ & _ & _ & Hst).
    { fold lim. unfold n. lia. }
    { exact Hfull'. }
    fold lim in Hrun, Hst.
    rewrite (serve_all_app SplitHostPort cfg next r w), Hrun.
    assert (Hb1 : bucket_of cfg clients1 ip = mkLimiter (limit lim) (burst lim) 0 t).
    { rewrite Hst by (unfold n; lia). f_equal. unfold n. lia. }
    cbn [serve_all].
    rewrite !(rateLimit_bucket SplitHostPort cfg next r w ip port Hon Hip).
    rewrite Hb1.
    rewrite (Allow_refuses_empty (mkLimiter (limit lim) (burst lim) 0 t) t)
      by (apply (advance_at_last (limit lim) (burst lim) 0 t); lia).
    cbn [fst snd]. rewrite bucket_of_insert. cbn [limiter].
    rewrite (Allow_takes_one (mkLimiter (limit lim) (burst lim) 0 t) (t + d) 1)
      by (simpl; try apply advance_after_period; try assumption; lia).
    cbn [fst snd limit burst]. rewrite bucket_of_insert. cbn [limiter].
    rewrite Z.sub_diag, Z.mul_0_l.
    rewrite (Allow_refuses_empty (mkLimiter (limit lim) (burst lim) 0 (t + d)) (t + d))
      by (apply (advance_at_last (limit lim) (burst lim) 0 (t + d)); lia).
    reflexivity.
  - intros Hnone. split; [by apply Hnew|]. split; [exact Hfull'|].
    rewrite (rateLimit_bucket SplitHostPort cfg next r w ip port Hon Hip).
    cbn [fst]. rewrite lookup_insert_eq. fold lim. by rewrite (Hnew Hnone).
Qed.

Lemma burst_then_one_per_period_witness :
  (serve_all split_plain default_limits (fun _ w => Returns w) ∅
             [0; 0; 0; 0; 0; 500000000; 500000000]
             (plain_request ∅ None) blank_writer).2
  = [Returns blank_writer; Returns blank_writer; Returns blank_writer;
     Returns blank_writer;
     Returns (rateLimitExceededResponse blank_writer (plain_request ∅ None));
     Returns blank_writer;
     Returns (rateLimitExceededResponse blank_writer (plain_request ∅ None))].
Proof.
  pose proof (burst_then_one_per_period split_plain default_limits
                (fun _ w => Returns w) (plain_request ∅ None) blank_writer
                "10.0.0.7" "4312" ∅ 0 500000000 eq_refl eq_refl) as H.
  cbv zeta in H. destruct H as [H _].
  - reflexivity.
  - vm_compute. discriminate.
  - left. reflexivity.
  - reflexivity.
  - exact H.
Defined.

(** *** The eviction pass *)

(** C6. An entry whose [lastSeen] lies more than three minutes (three times
    the one-minute interval of the pass) before the instant of an eviction
    pass is absent from the map after the pass, and the next request of
    that client is treated as a first one: the answer and the entry put into
    the map are those of a request of an unseen client, whose limiter is
    freshly allocated with a full bucket. *)
Theorem sweep_evicts_idle_client
    (SplitHostPort : string -> result (string * string)) (cfg : limiter_config)
    (next : Handler) (r : Request) (w : ResponseWriter) (ip port : string)
    (clients : gmap string client) (c : client) (now t_seen t_allow : Z) :
  clients !! ip = Some c →
  now - lastSeen c > 3 * Minute →
  enabled cfg = true →
  SplitHostPort (RemoteAddr r) = Ok (ip, port) →
  sweep now clients !! ip = None
  ∧ (rateLimit SplitHostPort cfg next (sweep now clients) t_seen t_allow r w).2
    = (rateLimit SplitHostPort cfg next ∅ t_seen t_allow r w).2
  ∧ (rateLimit SplitHostPort cfg next (sweep now clients) t_seen t_allow r w).1 !! ip
    = Some (mkClient (Allow (NewLimiter (rps cfg) (cfg_burst cfg)) t_allow).2 t_seen)
  ∧ (0 ≤ Qnum (rps cfg) → full_at (NewLimiter (rps cfg) (cfg_burst cfg)) t_allow).
Proof.
  intros Hc Hidle Hon Hip.
  assert (Hgone : sweep now clients !! ip = None).
  { unfold sweep. apply map_lookup_filter_None. right.
    intros c' Hc' Hkeep. simpl in Hkeep. rewrite Hc in Hc'. injection Hc' as <-.
    contradiction. }
  assert (Hfresh : bucket_of cfg (sweep now clients) ip
                   = NewLimiter (rps cfg) (cfg_burst cfg)).
  { unfold bucket_of. by rewrite Hgone. }
  split; [exact Hgone|].
  rewrite !(rateLimit_bucket SplitHostPort cfg next r w ip port Hon Hip).
  rewrite Hfresh. cbn [fst snd]. split; [reflexivity|].
  split; [apply lookup_insert_eq|].
  apply NewLimiter_full.
Qed.

Lemma sweep_evicts_idle_client_witness :
  sweep (4 * Minute) idle_clients !! "10.0.0.7" = None.
Proof.
  apply (sweep_evicts_idle_client split_plain default_limits (fun _ w => Returns w)
           (plain_request ∅ None) blank_writer "10.0.0.7" "4312" idle_clients
           (mkClient (mkLimiter (2 # 1) 4 0 0) 0) (4 * Minute) (4 * Minute) (4 * Minute)).
  - reflexivity.
  - reflexivity.
  - reflexivity.
  - reflexivity.
Defined.

(** An entry seen within the last three minutes is kept by the pass. *)
Lemma sweep_keeps_recent_client (clients : gmap string client) (ip : string)
                                (c : client) (now : Z) :
  clients !! ip = Some c → now - lastSeen c ≤ 3 * Minute →
  sweep now clients !! ip = Some c.
Proof.
  intros Hc Hrecent. unfold sweep. apply map_lookup_filter_Some.
  split; [exact Hc|]. simpl. lia.
Qed.

(** *** Credentials: issuing and invalidating *)

Lemma encoded_length (bs : list byte) :
  length bs = 16%nat → String.length (Base32.EncodeToString bs) = 26%nat.
Proof.
  intros Hlen.
  do 16 (destruct bs as [|? bs]; [discriminate Hlen|]).
  destruct bs; [reflexivity | discriminate Hlen].
Qed.

(** What [generatedToken] builds when the entropy source delivers: sixteen
    random bytes, their base32 text of 26 characters as plaintext, the
    SHA-256 digest of that text as hash, and the expiry [now + ttl]. *)
Lemma generatedToken_delivers (now : Z) (bs : list byte) (userID ttl : Z) (scope : string) :
  (16 ≤ length bs)%nat →
  ∃ token,
    generatedToken now (Ok bs) userID ttl scope = (Some token, None)
    ∧ Plaintext token = Base32.EncodeToString (take 16 bs)
    ∧ String.length (Plaintext token) = 26%nat
    ∧ Valid (ValidateTokenPlainText validator.New (Plaintext token)) = true
    ∧ Hash token = Sha256.Sum256 (bytes_of (Plaintext token))
    ∧ UserID token = userID ∧ Expiry token = now + ttl ∧ Scope token = scope.
Proof.
  intros Hlen. unfold generatedToken, rand_Read.
  rewrite repeat_length, bool_decide_eq_true_2 by exact Hlen.
  eexists. split; [reflexivity|]. cbn [Plaintext Hash UserID Expiry Scope].
  assert (Hl : String.length (Base32.EncodeToString (take 16 bs)) = 26%nat).
  { apply encoded_length. rewrite length_take. lia. }
  repeat split; try assumption. by apply token_format_valid.
Qed.

Lemma generatedToken_fails_on_entropy_only
    (now : Z) (supply : result (list byte)) (userID ttl : Z) (scope : string) err :
  (generatedToken now supply userID ttl scope).2 = Some err →
  supply = Err err ∨ ∃ bs, supply = Ok bs ∧ (length bs < 16)%nat.
Proof.
  unfold generatedToken, rand_Read. destruct supply as [bs|e]; simpl.
  - case_bool_decide; simpl; [discriminate|].
    intros _. right. exists bs. split; [reflexivity | lia].
  - intros [= ->]. by left.
Qed.

Lemma insert_query_statement :
  parse (lex Tokens.insert_query)
  = Ok (InsertInto "tokesn" ["hash"; "user_id"; "expiry"; "scope"]
                   [EParam 1; EParam 2; EParam 3; EParam 4]).
Proof. vm_compute. reflexivity. Qed.

Lemma delete_query_statement :
  parse (lex Tokens.delete_query) = Err (syntax_error "DLETE").
Proof. vm_compute. reflexivity. Qed.

(** C2, at the failing inputs.  [TokenModel.Insert] names the relation
    "tokesn": against a store that has no relation of that name (such as one
    whose credentials live in "tokens") issuing never records the credential
    and always returns an error, also when the entropy source delivers and
    the store accepts statements. *)
Theorem New_records_nothing
    (db : DB) (now : Z) (supply : result (list byte)) (userID ttl : Z) (scope : string) :
  relations db !! "tokesn" = None →
  relations (TokenModel_New db now supply userID ttl scope).1.1 = relations db
  ∧ (TokenModel_New db now supply userID ttl scope).2 ≠ None
  ∧ ∀ bs, supply = Ok bs → (16 ≤ length bs)%nat → refusal db = None →
          (TokenModel_New db now supply userID ttl scope).2
          = Some (undefined_table "tokesn").
Proof.
  intros Hrel. unfold TokenModel_New.
  assert (Hdelivers : ∀ bs, supply = Ok bs → (16 ≤ length bs)%nat →
            (generatedToken now supply userID ttl scope).2 = None).
  { intros bs -> Hlen.
    destruct (generatedToken_delivers now bs userID ttl scope Hlen) as (tk & -> & _).
    reflexivity. }
  destruct (generatedToken now supply userID ttl scope) as [[token|] [err|]] eqn:Hgen;
    cbn [fst snd].
  - split; [reflexivity|]. split; [discriminate|].
    intros bs Hs Hlen _. pose proof (Hdelivers bs Hs Hlen) as H. discriminate H.
  - unfold TokenModel_Insert, ExecContext, send.
    destruct (refusal db) as [msg|] eqn:Href; cbn [fst snd].
    + split; [reflexivity|]. split; [discriminate|]. intros bs _ _ [=].
    + rewrite insert_query_statement. cbn [run_stmt]. rewrite Hrel. cbn [fst snd].
      split; [reflexivity|]. split; [discriminate|]. intros; reflexivity.
  - split; [reflexivity|]. split; [discriminate|].
    intros bs Hs Hlen _. pose proof (Hdelivers bs Hs Hlen) as H. discriminate H.
  - exfalso. unfold generatedToken in Hgen.
    destruct (rand_Read supply (repeat x00 16)) as [? [?|]]; discriminate Hgen.
Qed.

Lemma New_records_nothing_witness :
  relations (TokenModel_New (store_of [] [user_row alice] []) 1000
                            (Ok (repeat x2a 16)) 7 (24 * 60 * Minute)
                            ScopeActivation).1.1
  = relations (store_of [] [user_row alice] [])
  ∧ (TokenModel_New (store_of [] [user_row alice] []) 1000
                    (Ok (repeat x2a 16)) 7 (24 * 60 * Minute) ScopeActivation).2
    ≠ None.
Proof.
  pose proof (New_records_nothing (store_of [] [user_row alice] []) 1000
                (Ok (repeat x2a 16)) 7 (24 * 60 * Minute) ScopeActivation)
    as H.
  destruct H as (H1 & H2 & _).
  - vm_compute. reflexivity.
  - split; [exact H1 | exact H2].
Defined.

(** The same statement with the relation spelled "tokens" records the
    credential: the store is not what fails. *)
Example insert_into_tokens_records :
  let db := store_of [] [user_row alice] [] in
  let row := credential_row [x01; x02] 7 100 ScopeActivation in
  (send db "INSERT INTO tokens (hash, user_id, expiry, scope) VALUES ($1, $2, $3, $4)"
        [VBytes [x01; x02]; VInt 7; VTime 100; VText ScopeActivation]).2 = Ok []
  ∧ rows <$> relations
      (send db "INSERT INTO tokens (hash, user_id, expiry, scope) VALUES ($1, $2, $3, $4)"
            [VBytes [x01; x02]; VInt 7; VTime 100; VText ScopeActivation]).1 !! "tokens"
    = Some [row].
Proof. split; vm_compute; reflexivity. Qed.

(** C8, at the failing inputs.  [TokenModel.DeleteAllForUser] sends a text
    that begins with "DLETE", which is no statement: the call never
    completes successfully and never removes a credential, so every
    credential issued before it is looked up afterwards exactly as
    before. *)
Theorem DeleteAllForUser_deletes_nothing (db : DB) (scope : string) (userID : Z) :
  (TokenModel_DeleteAllForUser db scope userID).2
  = Some (match refusal db with
          | Some msg => DriverError msg
          | None => syntax_error "DLETE"
          end)
  ∧ relations (TokenModel_DeleteAllForUser db scope userID).1 = relations db
  ∧ ∀ now tokenScope tokenPlaintext,
      GetForToken (TokenModel_DeleteAllForUser db scope userID).1 now
                  tokenScope tokenPlaintext
      = GetForToken db now tokenScope tokenPlaintext.
Proof.
  unfold TokenModel_DeleteAllForUser, ExecContext, send.
  destruct (refusal db) as [msg|] eqn:Href; cbn [fst snd].
  - repeat split. intros. unfold GetForToken. cbn [refusal relations].
    by rewrite Href.
  - rewrite delete_query_statement. cbn [fst snd].
    repeat split. intros. unfold GetForToken. cbn [refusal relations].
    by rewrite Href.
Qed.

(** An issued session credential of user 7 still authenticates after the
    invalidation of that user's session credentials. *)
Example credential_survives_invalidation :
  let db := store_holding ScopeAuthentication in
  let db' := (TokenModel_DeleteAllForUser db ScopeAuthentication 7).1 in
  GetForToken db 50 ScopeAuthentication sample_token = Ok alice
  ∧ (TokenModel_DeleteAllForUser db ScopeAuthentication 7).2
    = Some (syntax_error "DLETE")
  ∧ GetForToken db' 50 ScopeAuthentication sample_token = Ok alice.
Proof. cbv zeta. split; [|split]; vm_compute; reflexivity. Qed.

(** The statement spelled "DELETE" removes exactly the credentials of that
    user and scope. *)
Example well_spelled_delete_removes :
  let db := store_of [credential_row [x01] 7 100 ScopeAuthentication;
                      credential_row [x02] 7 100 ScopeActivation;
                      credential_row [x03] 8 100 ScopeAuthentication] [] [] in
  rows <$> relations
    (send db "DELETE FROM tokens WHERE scope = $1 AND user_id = $2"
          [VText ScopeAuthentication; VInt 7]).1 !! "tokens"
  = Some [credential_row [x02] 7 100 ScopeActivation;
          credential_row [x03] 8 100 ScopeAuthentication].
Proof. vm_compute. reflexivity. Qed.

(** *** The version guard of UPDATE *)

Lemma unknown_column_none (t : Table) (cs : list string) :
  (∀ c, c ∈ cs → c ∈ columns t) → unknown_column t cs = None.
Proof.
  unfold unknown_column. induction cs as [|c cs IH]; intros Hall; simpl; [reflexivity|].
  rewrite bool_decide_eq_true_2 by (apply Hall; left). simpl.
  apply IH. intros c' Hc'. apply Hall. by right.
Qed.

Lemma table_eta (t : Table) : mkTable (columns t) (rows t) = t.
Proof. by destruct t. Qed.

Section VersionGuard.
Variables (args : list Value) (sets : list (string * Expr)).
Variables (i j : nat) (id version : Z).
Hypothesis arg_id : param args i = Some (VInt id).
Hypothesis arg_version : param args j = Some (VInt version).
Hypothesis sets_version :
  ∀ row, field row "version" = VInt version →
         ∃ row', assign args row sets row = Some row'
                 ∧ field row' "version" = VInt (version + 1)
                 ∧ field row' "id" = field row "id".

Let cond : list (string * Expr) := [("id", EParam i); ("version", EParam j)].

Lemma holds_guard (row : gmap string Value) :
  holds args row cond = Some (bool_decide (stored row id version)).
Proof.
  unfold cond. simpl. rewrite arg_id, arg_version. f_equal.
  rewrite andb_true_r, <- bool_decide_and. apply bool_decide_ext.
  unfold stored. intuition discriminate.
Qed.

Lemma update_rows_guard (rs : list (gmap string Value)) :
  ∃ out hit,
    update_rows args sets cond rs = Some (out, hit)
    ∧ guarded_update rs out id version
    ∧ (∀ row', row' ∈ hit → field row' "version" = VInt (version + 1)
                            ∧ ∃ row, row ∈ rs ∧ stored row id version)
    ∧ ((∀ row, row ∈ rs → ¬ stored row id version) → out = rs ∧ hit = []).
Proof.
  induction rs as [|r rs (out & hit & Hrun & Hguard & Hhit & Hnone)].
  - exists [], []. split; [reflexivity|]. split; [constructor|]. split.
    + intros row' H. inversion H.
    + intros _. by split.
  - cbn [update_rows]. rewrite holds_guard, Hrun.
    destruct (decide (stored r id version)) as [Hr|Hr].
    + rewrite bool_decide_eq_true_2 by exact Hr.
      destruct (sets_version r (proj2 Hr)) as (r' & -> & Hv' & Hid').
      exists (r' :: out), (r' :: hit). split; [reflexivity|]. split; [|split].
      * constructor; [|exact Hguard].
        rewrite decide_True by exact Hr. split; [|exact Hv'].
        rewrite Hid'. exact (proj1 Hr).
      * intros row' Hin. apply elem_of_cons in Hin as [->|Hin].
        -- split; [exact Hv'|]. exists r. split; [left | exact Hr].
        -- destruct (Hhit row' Hin) as (Hv & row & Hrow & Hst).
           split; [exact Hv|]. exists row. split; [by right | exact Hst].
      * intros Hall. exfalso. apply (Hall r); [left | exact Hr].
    + rewrite bool_decide_eq_false_2 by exact Hr.
      exists (r :: out), hit. split; [reflexivity|]. split; [|split].
      * constructor; [|exact Hguard]. by rewrite decide_False.
      * intros row' Hin. destruct (Hhit row' Hin) as (Hv & row & Hrow & Hst).
        split; [exact Hv|]. exists row. split; [by right | exact Hst].
      * intros Hall. destruct Hnone as [-> ->]; [|by split].
        intros row Hrow. apply Hall. by right.
Qed.

Variables (query rel : string).
Hypothesis statement :
  parse (lex query) = Ok (UpdateSet rel sets cond ["version"]).

(** One guarded statement sent with [QueryRow]. *)
Lemma QueryRow_guard (db : DB) :
  journal (QueryRow db query args).1 = (journal db ++ [(query, args)])%list
  ∧ (∀ vs, (QueryRow db query args).2 = Ok vs →
       vs = [VInt (version + 1)]
       ∧ ∃ t t', relations db !! rel = Some t
                 ∧ relations (QueryRow db query args).1 !! rel = Some t'
                 ∧ (∃ row, row ∈ rows t ∧ stored row id version)
                 ∧ guarded_update (rows t) (rows t') id version)
  ∧ (∀ t, refusal db = None → relations db !! rel = Some t →
       unknown_column t (mentioned sets ++ mentioned cond ++ ["version"]) = None →
       (∀ row, row ∈ rows t → ¬ stored row id version) →
       (QueryRow db query args).2 = Err ErrNoRows
       ∧ relations (QueryRow db query args).1 = relations db).
Proof.
  unfold QueryRow, send. rewrite statement. cbn [run_stmt].
  destruct (refusal db) as [msg|] eqn:Href.
  { cbn [fst snd journal]. split; [reflexivity|]. split; [intros vs [=] |].
    intros t [=]. }
  destruct (relations db !! rel) as [t|] eqn:Hrel.
  2:{ cbn [fst snd journal]. split; [reflexivity|]. split; [intros vs [=] |].
      intros t _ [=]. }
  destruct (update_rows_guard (rows t)) as (out & hit & Hrun & Hguard & Hhit & Hnone).
  rewrite Hrun.
  destruct (unknown_column t (mentioned sets ++ mentioned cond ++ ["version"]))
    as [c|] eqn:Hcols.
  { cbn [fst snd journal]. split; [reflexivity|]. split; [intros vs [=] |].
    intros t' _ [= <-] Hknown. rewrite Hknown in Hcols. discriminate Hcols. }
  destruct hit as [|row' hit]; cbn [map fst snd journal relations].
  - split; [reflexivity|]. split; [intros vs [=] |].
    intros t' _ [= <-] _ Hall. split; [reflexivity|].
    destruct (Hnone Hall) as [-> _]. rewrite table_eta.
    by apply insert_id.
  - split; [reflexivity|]. split.
    + intros vs [= <-]. destruct (Hhit row' (list_elem_of_here _ _)) as (Hv & row & Hrow).
      rewrite Hv. split; [reflexivity|].
      exists t, (mkTable (columns t) out). split; [reflexivity|].
      split; [apply lookup_insert_eq|]. split; [by exists row | exact Hguard].
    + intros t' _ [= <-] _ Hall. exfalso.
      destruct (Hhit row' (list_elem_of_here _ _)) as (_ & row & Hrow & Hst).
      by apply (Hall row).
Qed.
End VersionGuard.

Lemma movies_statement :
  parse (lex Movies.update_query)
  = Ok (UpdateSet "movies"
          [("title", EParam 1); ("year", EParam 2); ("runtime", EParam 3);
           ("genres", EParam 4); ("version", EPlus (ECol "version") (EConst 1))]
          [("id", EParam 5); ("version", EParam 6)] ["version"]).
Proof. vm_compute. reflexivity. Qed.

Lemma users_statement :
  parse (lex Users.update_query)
  = Ok (UpdateSet "users"
          [("name", EParam 1); ("email", EParam 2); ("password_hash", EParam 3);
           ("activated", EParam 4); ("version", EPlus (ECol "version") (EConst 1))]
          [("id", EParam 5); ("version", EParam 6)] ["version"]).
Proof. vm_compute. reflexivity. Qed.

Lemma field_insert_eq (row : gmap string Value) c v : field (<[c := v]> row) c = v.
Proof. unfold field. by rewrite lookup_insert_eq. Qed.

Lemma field_insert_ne (row : gmap string Value) c c' v :
  c ≠ c' → field (<[c := v]> row) c' = field row c'.
Proof. intros. unfold field. by rewrite lookup_insert_ne. Qed.

Lemma movies_sets_version (movie : Movies.Movie) (row : gmap string Value) :
  field row "version" = VInt (Movies.Version movie) →
  ∃ row',
    assign (movie_args movie) row
           [("title", EParam 1); ("year", EParam 2); ("runtime", EParam 3);
            ("genres", EParam 4); ("version", EPlus (ECol "version") (EConst 1))] row
    = Some row'
    ∧ field row' "version" = VInt (Movies.Version movie + 1)
    ∧ field row' "id" = field row "id".
Proof.
  intros Hv. cbn [assign eval param movie_args lookup list_lookup]. rewrite Hv.
  eexists. split; [reflexivity|]. split.
  - apply field_insert_eq.
  - by rewrite !field_insert_ne.
Qed.

Lemma users_sets_version (user : User) (row : gmap string Value) :
  field row "version" = VInt (Version user) →
  ∃ row',
    assign (user_args user) row
           [("name", EParam 1); ("email", EParam 2); ("password_hash", EParam 3);
            ("activated", EParam 4); ("version", EPlus (ECol "version") (EConst 1))] row
    = Some row'
    ∧ field row' "version" = VInt (Version user + 1)
    ∧ field row' "id" = field row "id".
Proof.
  intros Hv. cbn [assign eval param user_args lookup list_lookup]. rewrite Hv.
  eexists. split; [reflexivity|]. split.
  - apply field_insert_eq.
  - by rewrite !field_insert_ne.
Qed.

Lemma MovieModel_Update_guarded (db : DB) (movie : Movies.Movie) :
  let out := Movies.MovieModel_Update db movie in
  journal out.1.1 = (journal db ++ [(Movies.update_query, movie_args movie)])%list
  ∧ (out.2 = None →
     out.1.2 = Movies.set_Version movie (Movies.Version movie + 1)
     ∧ guarded "movies" db out.1.1 (Movies.ID movie) (Movies.Version movie)
               (Movies.Version out.1.2))
  ∧ (∀ t, has_relation db "movies" movies_columns t →
          no_match t (Movies.ID movie) (Movies.Version movie) →
          out.2 = Some ErrEditConflict ∧ out.1.2 = movie
          ∧ relations out.1.1 = relations db).
Proof.
  pose proof (QueryRow_guard (movie_args movie) _ 5 6 (Movies.ID movie)
                (Movies.Version movie) eq_refl eq_refl (movies_sets_version movie)
                Movies.update_query "movies" movies_statement db) as (Hj & Hok & Hnone).
  assert (Hconflict : ∀ t, has_relation db "movies" movies_columns t →
            no_match t (Movies.ID movie) (Movies.Version movie) →
            (QueryRow db Movies.update_query (movie_args movie)).2 = Err ErrNoRows
            ∧ relations (QueryRow db Movies.update_query (movie_args movie)).1
              = relations db).
  { intros t (Hup & Hrel & Hcols) Hno. apply (Hnone t Hup Hrel); [|exact Hno].
    apply unknown_column_none. intros c Hc. apply Hcols.
    revert Hc. cbn. rewrite !elem_of_cons. unfold movies_columns.
    rewrite !elem_of_cons. intuition. }
  clear Hnone. unfold Movies.MovieModel_Update. cbv zeta. unfold movie_args in *.
  destruct (QueryRow db Movies.update_query _) as [db' [vs|e]]; cbn [fst snd] in *.
  - destruct (Hok vs eq_refl) as (-> & Hguard). cbn [scan_int].
    destruct (in_int32 (Movies.Version movie + 1)); cbn [fst snd].
    + split; [exact Hj|]. split.
      * intros _. split; [reflexivity|]. split; [reflexivity | exact Hguard].
      * intros t Ht Hno. destruct (Hconflict t Ht Hno) as [H _]. discriminate H.
    + rewrite bool_decide_eq_false_2 by discriminate. cbn [fst snd].
      split; [exact Hj|]. split; [intros [=]|].
      intros t Ht Hno. destruct (Hconflict t Ht Hno) as [H _]. discriminate H.
  - split; [by destruct (bool_decide (e = ErrNoRows))|]. split.
    + by destruct (bool_decide (e = ErrNoRows)).
    + intros t Ht Hno. destruct (Hconflict t Ht Hno) as [[= ->] Hrels].
      rewrite bool_decide_eq_true_2 by reflexivity. by repeat split.
Qed.

Lemma UserModel_Update_guarded (db : DB) (user : User) :
  let out := UserModel_Update db user in
  journal out.1.1 = (journal db ++ [(Users.update_query, user_args user)])%list
  ∧ (out.2 = None →
     out.1.2 = Users.set_Version user (Version user + 1)
     ∧ guarded "users" db out.1.1 (ID user) (Version user) (Version out.1.2))
  ∧ (∀ t, has_relation db "users" users_columns t →
          no_match t (ID user) (Version user) →
          out.2 = Some ErrEditConflict ∧ out.1.2 = user
          ∧ relations out.1.1 = relations db).
Proof.
  pose proof (QueryRow_guard (user_args user) _ 5 6 (ID user)
                (Version user) eq_refl eq_refl (users_sets_version user)
                Users.update_query "users" users_statement db) as (Hj & Hok & Hnone).
  assert (Hconflict : ∀ t, has_relation db "users" users_columns t →
            no_match t (ID user) (Version user) →
            (QueryRow db Users.update_query (user_args user)).2 = Err ErrNoRows
            ∧ relations (QueryRow db Users.update_query (user_args user)).1
              = relations db).
  { intros t (Hup & Hrel & Hcols) Hno. apply (Hnone t Hup Hrel); [|exact Hno].
    apply unknown_column_none. intros c Hc. apply Hcols.
    revert Hc. cbn. rewrite !elem_of_cons. unfold users_columns.
    rewrite !elem_of_cons. intuition. }
  clear Hnone. unfold UserModel_Update. cbv zeta. unfold user_args in *.
  destruct (QueryRow db Users.update_query _) as [db' [vs|e]]; cbn [fst snd] in *.
  - destruct (Hok vs eq_refl) as (-> & Hguard). cbn [scan_int].
    destruct (in_int64 (Version user + 1)); cbn [fst snd].
    + split; [exact Hj|]. split.
      * intros _. split; [reflexivity|]. split; [reflexivity | exact Hguard].
      * intros t Ht Hno. destruct (Hconflict t Ht Hno) as [H _]. discriminate H.
    + rewrite (bool_decide_eq_false_2 (Error _ = _)) by (vm_compute; discriminate).
      rewrite bool_decide_eq_false_2 by discriminate. cbn [fst snd].
      split; [exact Hj|]. split; [intros [=]|].
      intros t Ht Hno. destruct (Hconflict t Ht Hno) as [H _]. discriminate H.
  - split; [by destruct (bool_decide (Error e = duplicate_email_text)),
                        (bool_decide (e = ErrNoRows))|]. split.
    + by destruct (bool_decide (Error e = duplicate_email_text)),
                  (bool_decide (e = ErrNoRows)).
    + intros t Ht Hno. destruct (Hconflict t Ht Hno) as [[= ->] Hrels].
      rewrite (bool_decide_eq_false_2 (Error _ = _)) by (vm_compute; discriminate).
      rewrite bool_decide_eq_true_2 by reflexivity. by repeat split.
Qed.

(** C1. For a movie and for a user alike, [Update] sends exactly one
    statement to the store, whatever the outcome (no retry).  It succeeds
    only if a stored row of the resource carries the expected version; on
    success every such row carries the expected version plus one, every other
    row is untouched, and that new version is what the caller gets back in
    the resource.  When the store answers and no row of the resource carries
    the expected version (it has changed, or the row is gone), [Update]
    returns [ErrEditConflict] and leaves the store's relations and the
    caller's resource as they were. *)
Theorem update_guarded_by_version (db : DB) (movie : Movies.Movie) (user : User) :
  (let out := Movies.MovieModel_Update db movie in
   journal out.1.1 = (journal db ++ [(Movies.update_query, movie_args movie)])%list
   ∧ (out.2 = None →
      out.1.2 = Movies.set_Version movie (Movies.Version movie + 1)
      ∧ guarded "movies" db out.1.1 (Movies.ID movie) (Movies.Version movie)
                (Movies.Version out.1.2))
   ∧ (∀ t, has_relation db "movies" movies_columns t →
           no_match t (Movies.ID movie) (Movies.Version movie) →
           out.2 = Some ErrEditConflict ∧ out.1.2 = movie
           ∧ relations out.1.1 = relations db))
  ∧ (let out := UserModel_Update db user in
     journal out.1.1 = (journal db ++ [(Users.update_query, user_args user)])%list
     ∧ (out.2 = None →
        out.1.2 = Users.set_Version user (Version user + 1)
        ∧ guarded "users" db out.1.1 (ID user) (Version user) (Version out.1.2))
     ∧ (∀ t, has_relation db "users" users_columns t →
             no_match t (ID user) (Version user) →
             out.2 = Some ErrEditConflict ∧ out.1.2 = user
             ∧ relations out.1.1 = relations db)).
Proof.
  split; [apply MovieModel_Update_guarded | apply UserModel_Update_guarded].
Qed.

Lemma update_guarded_by_version_witness :
  guarded "movies" catalogue (Movies.MovieModel_Update catalogue casablanca).1.1 1 3 4
  ∧ (UserModel_Update catalogue (Users.set_Version alice 0)).2 = Some ErrEditConflict.
Proof.
  destruct (update_guarded_by_version catalogue casablanca (Users.set_Version alice 0))
    as [(_ & Hok & _) (_ & _ & Hconflict)].
  split.
  - destruct Hok as [_ Hg]; [vm_compute; reflexivity|].
    replace (Movies.Version (Movies.MovieModel_Update catalogue casablanca).1.2)
      with 4 in Hg by (vm_compute; reflexivity).
    exact Hg.
  - apply (Hconflict (mkTable users_columns [user_row alice])).
    + split; [reflexivity|]. split; [vm_compute; reflexivity|].
      intros c Hc. exact Hc.
    + intros row Hrow. apply list_elem_of_singleton in Hrow as ->.
      intros [_ Hv]. vm_compute in Hv. discriminate Hv.
Defined.

(** Two updates that both read version 3: the first succeeds and stores
    version 4, the second is an edit conflict; an update that read version 4
    succeeds and stores version 5. *)
Example two_writers_one_conflict :
  let first := Movies.MovieModel_Update catalogue casablanca in
  let second := Movies.MovieModel_Update first.1.1 casablanca in
  let third := Movies.MovieModel_Update second.1.1 first.1.2 in
  (first.2, Movies.Version first.1.2) = (None, 4)
  ∧ (second.2, Movies.Version second.1.2) = (Some ErrEditConflict, 3)
  ∧ (third.2, Movies.Version third.1.2) = (None, 5)
  ∧ rows <$> relations third.1.1 !! "movies"
    = Some [movie_row (Movies.set_Version casablanca 5)]
  ∧ length (journal third.1.1) = 3%nat.
Proof. cbv zeta. repeat split; vm_compute; reflexivity. Qed.

(* ===================================================================== *)
(** ** Further properties of the code *)
(* ===================================================================== *)

(** *** filters.go *)

Lemma sortColumn_of_member (sort : string) (safe : list string) :
  sort ∈ safe →
  Filters.sortColumn_from sort safe = Returns (Filters.TrimPrefix sort "-").
Proof.
  induction safe as [|x safe IH]; intros Hin; [inversion Hin|].
  cbn [Filters.sortColumn_from]. case_bool_decide as Hx; [reflexivity|].
  apply IH. apply elem_of_cons in Hin as [Hin|Hin]; [contradiction | exact Hin].
Qed.

(** X1. [sortColumn] returns a column only for a sort value that is in the
    safelist, and then it is that value without its leading "-"; for every
    other sort value it panics with "unsafe sort parameter: <value>". *)
Theorem sortColumn_only_from_safelist (f : Filters.Filters) :
  if decide (Filters.Sort f ∈ Filters.SortSafeList f)
  then Filters.sortColumn f = Returns (Filters.TrimPrefix (Filters.Sort f) "-")
  else Filters.sortColumn f = Panics ("unsafe sort parameter: " ++ Filters.Sort f).
Proof.
  unfold Filters.sortColumn.
  destruct (decide (Filters.Sort f ∈ Filters.SortSafeList f)) as [Hin|Hnot].
  - by apply sortColumn_of_member.
  - induction (Filters.SortSafeList f) as [|x safe IH]; [reflexivity|].
    cbn [Filters.sortColumn_from]. case_bool_decide as Hx.
    + exfalso. apply Hnot. rewrite Hx. left.
    + apply IH. intros Hin. apply Hnot. by right.
Qed.

Lemma wrap64_id (z : Z) : in_int64 z = true → Filters.wrap64 z = z.
Proof.
  unfold in_int64, Filters.wrap64. intros H.
  apply andb_true_iff in H as [H1 H2]. apply Z.leb_le in H1, H2.
  rewrite Z.mod_small; lia.
Qed.

Lemma wrap64_small (z : Z) :
  -9223372036854775808 ≤ z ≤ 9223372036854775807 → Filters.wrap64 z = z.
Proof.
  intros H. apply wrap64_id. unfold in_int64.
  apply andb_true_iff. split; apply Z.leb_le; lia.
Qed.

Lemma offset_exact (f : Filters.Filters) :
  0 < Filters.Page f ≤ 10000000 → 0 < Filters.PageSize f ≤ 100 →
  Filters.offset f = (Filters.Page f - 1) * Filters.PageSize f
  ∧ 0 ≤ Filters.offset f ≤ 999999900.
Proof.
  intros Hp Hs. unfold Filters.offset.
  rewrite (wrap64_small (Filters.Page f - 1)) by lia.
  rewrite wrap64_small by nia. split; [reflexivity | nia].
Qed.

(** X2. For a page between 1 and 10 million and a page size between 1 and
    100 (the bounds [ValidateFilters] checks), [offset] is exactly
    [(Page - 1) * PageSize] with no wrap-around, lies between 0 and
    999,999,900, and the windows of consecutive pages follow one another
    without gap or overlap: the offset of the next page is this page's
    offset plus [limit]. *)
Theorem offset_pages_tile (f : Filters.Filters) :
  0 < Filters.Page f ≤ 10000000 → 0 < Filters.PageSize f ≤ 100 →
  Filters.offset f = (Filters.Page f - 1) * Filters.PageSize f
  ∧ 0 ≤ Filters.offset f ≤ 999999900
  ∧ Filters.offset (Filters.mkFilters (Filters.Page f + 1) (Filters.PageSize f)
                      (Filters.Sort f) (Filters.SortSafeList f))
    = Filters.offset f + Filters.limit f.
Proof.
  intros Hp Hs. destruct (offset_exact f Hp Hs) as [Hoff Hrange].
  split; [exact Hoff|]. split; [exact Hrange|].
  rewrite Hoff. unfold Filters.offset, Filters.limit. simpl.
  rewrite (wrap64_small (Filters.Page f + 1 - 1)) by lia.
  rewrite wrap64_small by nia. lia.
Qed.

Lemma offset_pages_tile_witness :
  Filters.offset (Filters.mkFilters 3 20 "id" ["id"]) = (3 - 1) * 20.
Proof.
  apply (offset_pages_tile (Filters.mkFilters 3 20 "id" ["id"])); simpl; lia.
Defined.

(** X3. For a positive number of records and a positive page size whose sum
    fits an [int], [calculateMetadata] returns the current page and page
    size it was given, first page 1, and as last page the least number of
    pages that hold all records: [(LastPage - 1) * pageSize < totalRecords
    <= LastPage * pageSize]. *)
Theorem calculateMetadata_last_page (totalRecords page pageSize : Z) :
  0 < totalRecords → 0 < pageSize →
  totalRecords + pageSize ≤ 9223372036854775807 →
  ∃ m, Filters.calculateMetadata totalRecords page pageSize = Returns m
       ∧ Filters.CurrentPage m = page ∧ Filters.Meta_PageSize m = pageSize
       ∧ Filters.FirstPage m = 1 ∧ Filters.TotalRecords m = totalRecords
       ∧ 1 ≤ Filters.LastPage m
       ∧ (Filters.LastPage m - 1) * pageSize < totalRecords
         ≤ Filters.LastPage m * pageSize.
Proof.
  intros Ht Hs Hfit. unfold Filters.calculateMetadata.
  rewrite (proj2 (Z.eqb_neq totalRecords 0)) by lia.
  rewrite (proj2 (Z.eqb_neq pageSize 0)) by lia.
  eexists. split; [reflexivity|]. simpl.
  rewrite (wrap64_small (totalRecords + pageSize)) by lia.
  rewrite (wrap64_small (totalRecords + pageSize - 1)) by lia.
  rewrite Z.quot_div_nonneg by lia.
  assert (Hq : 0 ≤ (totalRecords + pageSize - 1) / pageSize ≤ totalRecords + pageSize).
  { split; [apply Z.div_pos; lia|].
    apply Z.div_le_upper_bound; nia. }
  rewrite wrap64_small by lia.
  pose proof (Z.mul_div_le (totalRecords + pageSize - 1) pageSize ltac:(lia)) as Hle.
  pose proof (Z.mul_succ_div_gt (totalRecords + pageSize - 1) pageSize ltac:(lia)) as Hgt.
  repeat split; try reflexivity; nia.
Qed.

Lemma calculateMetadata_last_page_witness :
  ∃ m, Filters.calculateMetadata 12 1 5 = Returns m ∧ Filters.LastPage m = 3.
Proof.
  destruct (calculateMetadata_last_page 12 1 5) as (m & Hm & _ & _ & _ & _ & H1 & H2 & H3);
    [lia | lia | lia |].
  exists m. split; [exact Hm | lia].
Defined.


Lemma ValidateFilters_valid (P : string -> list string -> bool) (f : Filters.Filters) :
  Valid (Filters.ValidateFilters P validator.New f) = true
  ↔ 0 < Filters.Page f ≤ 10000000 ∧ 0 < Filters.PageSize f ≤ 100
    ∧ P (Filters.Sort f) (Filters.SortSafeList f) = true.
Proof.
  unfold Filters.ValidateFilters. rewrite !Check_valid.
  replace (Valid validator.New) with true by reflexivity.
  rewrite !andb_true_iff, !Z.ltb_lt, !Z.leb_le. intuition.
Qed.

(** X5. Filters that pass [ValidateFilters] (with [PermittedValue] accepting
    only members of the list) are safe to use: [sortColumn] returns instead
    of panicking, and [offset] and [limit] are the exact, non-negative
    products and sizes, below 10^9 and at most 100. *)
Theorem valid_filters_are_safe
    (PermittedValue : string -> list string -> bool) (f : Filters.Filters) :
  (∀ value permitted, PermittedValue value permitted = true → value ∈ permitted) →
  Valid (Filters.ValidateFilters PermittedValue validator.New f) = true →
  Filters.sortColumn f = Returns (Filters.TrimPrefix (Filters.Sort f) "-")
  ∧ Filters.offset f = (Filters.Page f - 1) * Filters.PageSize f
  ∧ 0 ≤ Filters.offset f < 1000000000
  ∧ 0 < Filters.limit f ≤ 100.
Proof.
  intros Hsound Hvalid. apply ValidateFilters_valid in Hvalid as (Hp & Hs & Hin).
  apply Hsound in Hin.
  pose proof (sortColumn_of_member _ _ Hin) as Hcol.
  destruct (offset_exact f Hp Hs) as (Hoff & Hrange).
  split; [exact Hcol|]. split; [exact Hoff|]. unfold Filters.limit. lia.
Qed.

Lemma valid_filters_are_safe_witness :
  Filters.sortColumn (Filters.mkFilters 1 20 "-year" ["id"; "year"; "-id"; "-year"])
  = Returns "year".
Proof.
  apply (valid_filters_are_safe (fun value permitted => bool_decide (value ∈ permitted))
           (Filters.mkFilters 1 20 "-year" ["id"; "year"; "-id"; "-year"])).
  - intros value permitted H. by apply bool_decide_eq_true in H.
  - vm_compute. reflexivity.
Defined.

(** *** movies.go: Delete and Get *)

Lemma movies_delete_statement :
  parse (lex MovieRecords.delete_query) = Ok (DeleteFrom "movies" [("id", EParam 1)]).
Proof. vm_compute. reflexivity. Qed.

Lemma movies_get_statement :
  SqlQuery.is_select MovieRecords.get_query = true
  ∧ SqlQuery.parse_select (lex MovieRecords.get_query)
    = Ok (SqlQuery.mkSelect
            ["id"; "created_at"; "title"; "year"; "runtime"; "genres"; "version"]
            "movies" [("id", EParam 1)]).
Proof. split; vm_compute; reflexivity. Qed.

Lemma holds_id (id : Z) (row : gmap string Value) :
  holds [VInt id] row [("id", EParam 1)] = Some (bool_decide (field row "id" = VInt id)).
Proof.
  simpl. f_equal. rewrite andb_true_r. apply bool_decide_ext. intuition discriminate.
Qed.

Lemma delete_rows_id (id : Z) (rs : list (gmap string Value)) :
  delete_rows [VInt id] [("id", EParam 1)] rs
  = Some (filter (fun row => field row "id" ≠ VInt id) rs).
Proof.
  induction rs as [|r rs IH]; [reflexivity|].
  cbn [delete_rows]. rewrite holds_id, IH.
  case_bool_decide as Hr.
  - rewrite filter_cons_False by (intros H; contradiction). reflexivity.
  - rewrite filter_cons_True by exact Hr. reflexivity.
Qed.

Lemma select_rows_id (id : Z) (rs : list (gmap string Value)) :
  SqlQuery.select_rows [VInt id] [("id", EParam 1)] rs
  = Some (filter (fun row => field row "id" = VInt id) rs).
Proof.
  induction rs as [|r rs IH]; [reflexivity|].
  cbn [SqlQuery.select_rows]. rewrite holds_id, IH.
  case_bool_decide as Hr.
  - rewrite filter_cons_True by exact Hr. reflexivity.
  - rewrite filter_cons_False by exact Hr. reflexivity.
Qed.

Lemma filter_keeps_all_iff {A} (P : A → Prop) `{∀ x, Decision (P x)} (l : list A) :
  length (filter P l) = length l ↔ Forall P l.
Proof.
  induction l as [|x l IH].
  - split; [constructor | reflexivity].
  - destruct (decide (P x)) as [Hx|Hx].
    + rewrite filter_cons_True by exact Hx. simpl. split.
      * intros Hlen. constructor; [exact Hx|]. apply IH. lia.
      * intros Hall. inversion Hall; subst. f_equal. by apply IH.
    + rewrite filter_cons_False by exact Hx. split.
      * intros Hlen. pose proof (length_filter P l) as Hle. simpl in Hlen. lia.
      * intros Hall. inversion Hall; subst. contradiction.
Qed.

Lemma Delete_outcome (db : DB) (id : Z) (t : Table) :
  has_relation db "movies" movies_columns t → 1 ≤ id →
  MovieRecords.MovieModel_Delete db id
  = (mkDB (<["movies" := mkTable (columns t)
                           (filter (fun row => field row "id" ≠ VInt id) (rows t))]>
             (relations db))
          (journal db ++ [(MovieRecords.delete_query, [VInt id])]) (refusal db),
     if decide (Exists (fun row => field row "id" = VInt id) (rows t))
     then None else Some ErrRecordNotFound).
Proof.
  intros (Hup & Hrel & Hcols) Hid. unfold MovieRecords.MovieModel_Delete.
  rewrite (proj2 (Z.ltb_ge id 1)) by lia.
  unfold SqlQuery.Exec, SqlQuery.rows_affected, send.
  rewrite Hup, movies_delete_statement. cbn [run_stmt]. rewrite Hrel.
  rewrite unknown_column_none.
  2:{ intros c Hc. apply Hcols. cbn in Hc. apply list_elem_of_singleton in Hc as ->.
      unfold movies_columns. left. }
  rewrite delete_rows_id. cbn [fst snd relations].
  set (kept := filter (fun row => field row "id" ≠ VInt id) (rows t)).
  unfold SqlQuery.row_count. rewrite Hrel, lookup_insert_eq. cbn [rows].
  pose proof (length_filter (fun row => field row "id" ≠ VInt id) (rows t)) as Hle.
  fold kept in Hle.
  destruct (decide (Exists (fun row => field row "id" = VInt id) (rows t))) as [Hex|Hno].
  - assert (length kept ≠ length (rows t)) as Hne.
    { intros Heq. apply filter_keeps_all_iff in Heq.
      apply Exists_exists in Hex as (row & Hin & Hrow).
      rewrite Forall_forall in Heq. by apply (Heq row). }
    rewrite (proj2 (Z.eqb_neq _ 0)) by lia. reflexivity.
  - assert (length kept = length (rows t)) as Heq.
    { apply filter_keeps_all_iff, Forall_forall. intros row Hin Hrow.
      apply Hno, Exists_exists. by exists row. }
    rewrite Heq, Z.sub_diag. reflexivity.
Qed.

(** X6. [MovieModel.Delete] of an id of at least 1, on a store that answers
    and has the movies relation, sends one DELETE and leaves exactly the rows
    of other ids, in their order; it returns nil when a row of that id was
    there and [ErrRecordNotFound] when none was.  For an id below 1 it
    returns [ErrRecordNotFound] without sending anything. *)
Theorem Delete_removes_the_movie (db : DB) (id : Z) (t : Table) :
  has_relation db "movies" movies_columns t →
  let out := MovieRecords.MovieModel_Delete db id in
  let kept := filter (fun row => field row "id" ≠ VInt id) (rows t) in
  if 1 <=? id then
    relations out.1 = <["movies" := mkTable (columns t) kept]> (relations db)
    ∧ journal out.1 = (journal db ++ [(MovieRecords.delete_query, [VInt id])])%list
    ∧ out.2 = (if decide (Exists (fun row => field row "id" = VInt id) (rows t))
               then None else Some ErrRecordNotFound)
  else out = (db, Some ErrRecordNotFound).
Proof.
  intros Hhas out kept. subst out kept.
  destruct (Z.leb_spec 1 id) as [Hid|Hid].
  - rewrite (Delete_outcome db id t Hhas Hid). cbn [fst snd relations journal].
    by repeat split.
  - unfold MovieRecords.MovieModel_Delete.
    rewrite (proj2 (Z.ltb_lt id 1)) by lia. reflexivity.
Qed.

Lemma Delete_removes_the_movie_witness :
  (MovieRecords.MovieModel_Delete catalogue 1).2 = None
  ∧ rows <$> relations (MovieRecords.MovieModel_Delete catalogue 1).1 !! "movies" = Some [].
Proof.
  pose proof (Delete_removes_the_movie catalogue 1
                (mkTable movies_columns [movie_row casablanca])) as H.
  cbv zeta in H. change (1 <=? 1) with true in H. cbv iota in H.
  destruct H as (Hrels & _ & Herr).
  - split; [reflexivity|]. split; [vm_compute; reflexivity|]. intros c Hc. exact Hc.
  - split.
    + rewrite Herr. apply decide_True. apply Exists_cons_hd. vm_compute. reflexivity.
    + rewrite Hrels, lookup_insert_eq. vm_compute. reflexivity.
Defined.

Lemma select_by_id (db : DB) (id : Z) (t : Table) :
  has_relation db "movies" movies_columns t →
  SqlQuery.QueryRow_any db MovieRecords.get_query [VInt id]
  = (mkDB (relations db) (journal db ++ [(MovieRecords.get_query, [VInt id])]) (refusal db),
     match filter (fun row => field row "id" = VInt id) (rows t) with
     | row :: _ =>
         Ok (map (field row)
               ["id"; "created_at"; "title"; "year"; "runtime"; "genres"; "version"])
     | [] => Err ErrNoRows
     end).
Proof.
  intros (Hup & Hrel & Hcols).
  destruct movies_get_statement as [Hsel Hparse].
  unfold SqlQuery.QueryRow_any, SqlQuery.send_any. rewrite Hsel, Hup, Hparse.
  unfold SqlQuery.run_select. cbn [SqlQuery.sel_relation SqlQuery.sel_columns
                                   SqlQuery.sel_cond].
  rewrite Hrel, unknown_column_none.
  2:{ intros c Hc. apply Hcols. revert Hc. cbn. unfold movies_columns.
      rewrite !elem_of_cons. intuition. }
  rewrite select_rows_id.
  destruct (filter _ (rows t)) as [|row rest]; reflexivity.
Qed.

Lemma scan_movie_not_missing (vs : list Value) :
  MovieRecords.scan_movie vs ≠ Err ErrNoRows
  ∧ MovieRecords.scan_movie vs ≠ Err ErrRecordNotFound.
Proof.
  unfold MovieRecords.scan_movie.
  repeat (match goal with
          | |- context [match ?x with _ => _ end] => destruct x
          end; try (split; discriminate)).
Qed.

Lemma Get_missing (db : DB) (id : Z) (t : Table) :
  has_relation db "movies" movies_columns t → 1 ≤ id →
  without_id (rows t) id →
  (MovieRecords.MovieModel_Get db id).2 = Err ErrRecordNotFound.
Proof.
  intros Hhas Hid Hno. unfold MovieRecords.MovieModel_Get.
  rewrite (proj2 (Z.ltb_ge id 1)) by lia.
  rewrite (select_by_id db id t Hhas).
  rewrite (filter_none _ (rows t)); [reflexivity|].
  intros row Hin Hrow. by apply (Hno row).
Qed.

(** X7. On a store that answers and has the movies relation, [MovieModel.Get]
    of an id of at least 1 returns [ErrRecordNotFound] if and only if no
    stored row has that id; for an id below 1 it returns [ErrRecordNotFound]
    without sending a statement.  It never changes the relations. *)
Theorem Get_not_found_iff (db : DB) (id : Z) (t : Table) :
  has_relation db "movies" movies_columns t →
  relations (MovieRecords.MovieModel_Get db id).1 = relations db
  ∧ (id < 1 → MovieRecords.MovieModel_Get db id = (db, Err ErrRecordNotFound))
  ∧ (1 ≤ id →
     ((MovieRecords.MovieModel_Get db id).2 = Err ErrRecordNotFound
      ↔ without_id (rows t) id)).
Proof.
  intros Hhas. unfold MovieRecords.MovieModel_Get.
  destruct (Z.ltb_spec id 1) as [Hlt|Hge].
  { split; [reflexivity|]. split; [reflexivity | lia]. }
  rewrite (select_by_id db id t Hhas).
  destruct (filter (fun row => field row "id" = VInt id) (rows t)) as [|row rest] eqn:Hf.
  - cbn. split; [reflexivity|]. split; [lia|]. intros _. split; [|reflexivity].
    intros _ row Hin Hrow.
    by apply (filter_nil_not_elem_of (fun row => field row "id" = VInt id)
                (rows t) row Hf Hrow).
  - set (vs := map (field row) _).
    destruct (scan_movie_not_missing vs) as [Hn1 Hn2].
    assert (Hhere : row ∈ rows t ∧ field row "id" = VInt id).
    { assert (row ∈ filter (fun row => field row "id" = VInt id) (rows t)) as Hin
        by (rewrite Hf; left).
      apply list_elem_of_filter in Hin. tauto. }
    destruct (MovieRecords.scan_movie vs) as [m|e] eqn:Hscan.
    + cbn. split; [reflexivity|]. split; [lia|]. intros _. split; [discriminate|].
      intros Hno. exfalso. destruct Hhere as [Hin Hrow]. by apply (Hno row).
    + rewrite bool_decide_eq_false_2 by congruence.
      cbn. split; [reflexivity|]. split; [lia|]. intros _. split.
      * intros [= ->]. contradiction.
      * intros Hno. exfalso. destruct Hhere as [Hin Hrow]. by apply (Hno row).
Qed.

Lemma Get_not_found_iff_witness :
  (MovieRecords.MovieModel_Get catalogue 2).2 = Err ErrRecordNotFound.
Proof.
  destruct (Get_not_found_iff catalogue 2 (mkTable movies_columns [movie_row casablanca]))
    as (_ & _ & Hiff).
  - split; [reflexivity|]. split; [vm_compute; reflexivity|]. intros c Hc. exact Hc.
  - apply Hiff; [lia|]. intros row Hin. apply list_elem_of_singleton in Hin as ->.
    vm_compute. discriminate.
Defined.

Lemma movie_row_fields (m : Movies.Movie) :
  map (field (movie_row m))
      ["id"; "created_at"; "title"; "year"; "runtime"; "genres"; "version"]
  = [VInt (Movies.ID m); VTime (Movies.CreatedAt m); VText (Movies.Title m);
     VInt (Movies.Year m); VInt (Movies.Runtime m); VArray (Movies.Genres m);
     VInt (Movies.Version m)].
Proof. reflexivity. Qed.

(** X8. A movie whose fields are in range and that is stored as the first
    row of its id (of at least 1) is what [MovieModel.Get] of that id
    returns, field by field; the call sends one statement and leaves the
    relations alone. *)
Theorem Get_returns_the_stored_movie
    (db : DB) (t : Table) (m : Movies.Movie) (before after : list (gmap string Value)) :
  has_relation db "movies" movies_columns t →
  rows t = (before ++ movie_row m :: after)%list →
  without_id before (Movies.ID m) →
  1 ≤ Movies.ID m → movie_in_range m →
  MovieRecords.MovieModel_Get db (Movies.ID m)
  = (mkDB (relations db)
          (journal db ++ [(MovieRecords.get_query, [VInt (Movies.ID m)])]) (refusal db),
     Ok m).
Proof.
  intros Hhas Hrows Hbefore Hid (H1 & H2 & H3 & H4).
  unfold MovieRecords.MovieModel_Get.
  rewrite (proj2 (Z.ltb_ge _ 1)) by lia.
  rewrite (select_by_id db _ t Hhas), Hrows, filter_app.
  rewrite (filter_none _ before) by exact Hbefore.
  rewrite filter_cons_True by reflexivity. cbn [app].
  rewrite movie_row_fields. cbn [MovieRecords.scan_movie].
  rewrite H1, H2, H3, H4. cbn. by destruct m.
Qed.

Lemma Get_returns_the_stored_movie_witness :
  (MovieRecords.MovieModel_Get catalogue 1).2 = Ok casablanca.
Proof.
  change 1 with (Movies.ID casablanca) at 1.
  rewrite (Get_returns_the_stored_movie catalogue
             (mkTable movies_columns [movie_row casablanca]) casablanca [] []).
  - reflexivity.
  - split; [reflexivity|]. split; [vm_compute; reflexivity|]. intros c Hc. exact Hc.
  - reflexivity.
  - intros row Hin. inversion Hin.
  - simpl. lia.
  - repeat split.
Defined.

Lemma has_relation_after (db db' : DB) (rel : string) (cols : list string) (t : Table)
                         (rs : list (gmap string Value)) :
  has_relation db rel cols t →
  refusal db' = refusal db →
  relations db' = <[rel := mkTable (columns t) rs]> (relations db) →
  has_relation db' rel cols (mkTable (columns t) rs).
Proof.
  intros (Hup & Hrel & Hcols) Href Hrels. split; [congruence|]. split.
  - rewrite Hrels. apply lookup_insert_eq.
  - exact Hcols.
Qed.

Lemma send_keeps_refusal (db : DB) (query : string) (args : list Value) :
  refusal (send db query args).1 = refusal db.
Proof.
  unfold send. destruct (refusal db); [reflexivity|].
  destruct (parse _) as [st|e]; [|reflexivity].
  destruct (run_stmt _ _ st) as [[rels out]|e]; reflexivity.
Qed.

Lemma Delete_keeps_refusal (db : DB) (id : Z) :
  refusal (MovieRecords.MovieModel_Delete db id).1 = refusal db.
Proof.
  unfold MovieRecords.MovieModel_Delete, SqlQuery.Exec.
  destruct (id <? 1); [reflexivity|].
  pose proof (send_keeps_refusal db MovieRecords.delete_query [VInt id]) as H.
  destruct (send db MovieRecords.delete_query [VInt id]) as [db' [out|e]];
    cbn [fst snd] in *; [|exact H].
  destruct (_ =? 0); exact H.
Qed.

(** X9. After [MovieModel.Delete] of an id of at least 1 (on a store that
    answers and has the movies relation) the movie is gone for every
    operation of the model: [Get] of that id returns [ErrRecordNotFound], a
    second [Delete] returns [ErrRecordNotFound], and [Update] of a movie with
    that id, whatever version it expects, returns [ErrEditConflict]. *)
Theorem deleted_movie_is_gone (db : DB) (t : Table) (movie : Movies.Movie) :
  has_relation db "movies" movies_columns t →
  1 ≤ Movies.ID movie →
  let db' := (MovieRecords.MovieModel_Delete db (Movies.ID movie)).1 in
  (MovieRecords.MovieModel_Get db' (Movies.ID movie)).2 = Err ErrRecordNotFound
  ∧ (MovieRecords.MovieModel_Delete db' (Movies.ID movie)).2 = Some ErrRecordNotFound
  ∧ (Movies.MovieModel_Update db' movie).2 = Some ErrEditConflict.
Proof.
  intros Hhas Hid db'.
  set (kept := filter (fun row => field row "id" ≠ VInt (Movies.ID movie)) (rows t)).
  assert (Hrels : relations db'
                  = <["movies" := mkTable (columns t) kept]> (relations db)).
  { unfold db'. by rewrite (Delete_outcome db _ t Hhas Hid). }
  assert (Hhas' : has_relation db' "movies" movies_columns (mkTable (columns t) kept)).
  { eapply has_relation_after; [exact Hhas | apply Delete_keeps_refusal | exact Hrels]. }
  assert (Hgone : without_id kept (Movies.ID movie)).
  { intros row Hin. apply list_elem_of_filter in Hin. tauto. }
  split; [|split].
  - apply (Get_missing db' (Movies.ID movie) _ Hhas' Hid Hgone).
  - rewrite (Delete_outcome db' _ _ Hhas' Hid). cbn [snd].
    apply decide_False. intros Hex. apply Exists_exists in Hex as (row & Hin & Hrow).
    by apply (Hgone row).
  - destruct (MovieModel_Update_guarded db' movie) as (_ & _ & Hconflict).
    apply (Hconflict _ Hhas'). intros row Hin [Hrow _]. by apply (Hgone row).
Qed.

Lemma deleted_movie_is_gone_witness :
  (Movies.MovieModel_Update (MovieRecords.MovieModel_Delete catalogue 1).1 casablanca).2
  = Some ErrEditConflict.
Proof.
  apply (deleted_movie_is_gone catalogue (mkTable movies_columns [movie_row casablanca])
           casablanca).
  - split; [reflexivity|]. split; [vm_compute; reflexivity|]. intros c Hc. exact Hc.
  - simpl. lia.
Defined.

Lemma update_rows_untouched args sets cond (rs : list (gmap string Value)) :
  (∀ row, row ∈ rs → holds args row cond = Some false) →
  update_rows args sets cond rs = Some (rs, []).
Proof.
  induction rs as [|r rs IH]; intros Hall; [reflexivity|].
  cbn [update_rows]. rewrite (Hall r) by left.
  rewrite IH; [reflexivity|]. intros row Hin. apply Hall. by right.
Qed.

Lemma update_rows_single args sets cond (before after : list (gmap string Value)) r r' :
  (∀ row, row ∈ before → holds args row cond = Some false) →
  (∀ row, row ∈ after → holds args row cond = Some false) →
  holds args r cond = Some true → assign args r sets r = Some r' →
  update_rows args sets cond (before ++ r :: after)
  = Some ((before ++ r' :: after)%list, [r']).
Proof.
  intros Hb Ha Hr Hset. induction before as [|b before IH].
  - cbn [app update_rows]. rewrite Hr, (update_rows_untouched _ _ _ after Ha), Hset.
    reflexivity.
  - cbn [app update_rows]. rewrite (Hb b) by left.
    rewrite IH; [reflexivity|]. intros row Hin. apply Hb. by right.
Qed.

Lemma holds_other_id (m : Movies.Movie) (row : gmap string Value) :
  field row "id" ≠ VInt (Movies.ID m) →
  holds (movie_args m) row [("id", EParam 5); ("version", EParam 6)] = Some false.
Proof.
  intros Hne. rewrite (holds_guard (movie_args m) 5 6 (Movies.ID m) (Movies.Version m)
                         eq_refl eq_refl).
  f_equal. apply bool_decide_eq_false_2. intros [H _]. contradiction.
Qed.

(** X10. Round trip of an update.  When the movie's row is the only row of
    its id, carries the version the caller expects and holds a creation
    time, and the new field values are in range, then [MovieModel.Update]
    succeeds and hands back the version plus one, and a following
    [MovieModel.Get] of that id returns exactly the values written, with
    the stored creation time and the new version. *)
Theorem Update_then_Get_round_trip
    (db : DB) (t : Table) (m : Movies.Movie)
    (before after : list (gmap string Value)) (r : gmap string Value) (created : Z) :
  has_relation db "movies" movies_columns t →
  rows t = (before ++ r :: after)%list →
  stored r (Movies.ID m) (Movies.Version m) →
  field r "created_at" = VTime created →
  without_id before (Movies.ID m) → without_id after (Movies.ID m) →
  1 ≤ Movies.ID m → movie_in_range m → in_int32 (Movies.Version m + 1) = true →
  (Movies.MovieModel_Update db m).2 = None
  ∧ (Movies.MovieModel_Update db m).1.2 = Movies.set_Version m (Movies.Version m + 1)
  ∧ (MovieRecords.MovieModel_Get (Movies.MovieModel_Update db m).1.1 (Movies.ID m)).2
    = Ok (Movies.mkMovie (Movies.ID m) created (Movies.Title m) (Movies.Year m)
            (Movies.Runtime m) (Movies.Genres m) (Movies.Version m + 1)).
Proof.
  intros Hhas Hrows [Hrid Hrv] Hcreated Hbefore Hafter Hid (H1 & H2 & H3 & H4) Hnext.
  destruct (movies_sets_version m r Hrv) as (r' & Hassign & Hv' & Hid').
  assert (Hfields : map (field r')
            ["id"; "created_at"; "title"; "year"; "runtime"; "genres"; "version"]
          = [VInt (Movies.ID m); VTime created; VText (Movies.Title m);
             VInt (Movies.Year m); VInt (Movies.Runtime m); VArray (Movies.Genres m);
             VInt (Movies.Version m + 1)]).
  { cbn [assign eval param movie_args lookup list_lookup] in Hassign.
    rewrite Hrv in Hassign. injection Hassign as <-. cbn [map].
    rewrite !field_insert_eq.
    repeat (rewrite field_insert_ne by discriminate; rewrite ?field_insert_eq).
    by rewrite Hrid, Hcreated. }
  assert (Hrun : update_rows (movie_args m)
            [("title", EParam 1); ("year", EParam 2); ("runtime", EParam 3);
             ("genres", EParam 4); ("version", EPlus (ECol "version") (EConst 1))]
            [("id", EParam 5); ("version", EParam 6)] (rows t)
          = Some ((before ++ r' :: after)%list, [r'])).
  { rewrite Hrows. apply update_rows_single; try exact Hassign.
    - intros row Hin. apply holds_other_id. by apply Hbefore.
    - intros row Hin. apply holds_other_id. by apply Hafter.
    - rewrite (holds_guard (movie_args m) 5 6 (Movies.ID m) (Movies.Version m)
                 eq_refl eq_refl).
      f_equal. by apply bool_decide_eq_true_2. }
  destruct Hhas as (Hup & Hrel & Hcols).
  assert (Hupd : Movies.MovieModel_Update db m
          = (mkDB (<["movies" := mkTable (columns t) (before ++ r' :: after)]> (relations db))
                  (journal db ++ [(Movies.update_query, movie_args m)]) (refusal db),
             Movies.set_Version m (Movies.Version m + 1), None)).
  { unfold Movies.MovieModel_Update, QueryRow, send. fold (movie_args m).
    rewrite Hup, movies_statement. cbn [run_stmt]. rewrite Hrel.
    rewrite unknown_column_none.
    2:{ intros c Hc. apply Hcols. revert Hc. cbn. unfold movies_columns.
        rewrite !elem_of_cons. intuition. }
    rewrite Hrun. cbn [map fst snd]. rewrite Hv'. cbn [scan_int]. rewrite Hnext.
    reflexivity. }
  rewrite Hupd. cbn [fst snd]. split; [reflexivity|]. split; [reflexivity|].
  unfold MovieRecords.MovieModel_Get. rewrite (proj2 (Z.ltb_ge _ 1)) by lia.
  rewrite (select_by_id _ _ (mkTable (columns t) (before ++ r' :: after))).
  2:{ split; [exact Hup|]. split; [apply lookup_insert_eq | exact Hcols]. }
  cbn [rows]. rewrite filter_app, (filter_none _ before) by exact Hbefore.
  assert (Hr'id : field r' "id" = VInt (Movies.ID m)) by (by rewrite Hid').
  rewrite filter_cons_True by exact Hr'id. cbn [app].
  rewrite Hfields. cbn [MovieRecords.scan_movie]. rewrite H1, H2, H3, Hnext.
  reflexivity.
Qed.

Lemma Update_then_Get_round_trip_witness :
  (MovieRecords.MovieModel_Get (Movies.MovieModel_Update catalogue casablanca).1.1 1).2
  = Ok (Movies.set_Version casablanca 4).
Proof.
  apply (Update_then_Get_round_trip catalogue (mkTable movies_columns [movie_row casablanca])
           casablanca [] [] (movie_row casablanca) 0).
  - split; [reflexivity|]. split; [vm_compute; reflexivity|]. intros c Hc. exact Hc.
  - reflexivity.
  - split; reflexivity.
  - reflexivity.
  - intros row Hin. inversion Hin.
  - intros row Hin. inversion Hin.
  - simpl. lia.
  - repeat split.
  - reflexivity.
Defined.

(** *** rateLimit, continued *)

Lemma under_lock_outcome (cfg : limiter_config) (clients : gmap string client)
                         (ip : string) (t_seen t_allow : Z) :
  under_lock cfg clients ip t_seen t_allow
  = (<[ip := mkClient (Allow (bucket_of cfg clients ip) t_allow).2 t_seen]> clients,
     (Allow (bucket_of cfg clients ip) t_allow).1).
Proof.
  unfold under_lock, bucket_of.
  destruct (clients !! ip) as [c|] eqn:Hc.
  - rewrite lookup_alter_eq, Hc. simpl.
    destruct (Allow (limiter c) t_allow) as [ok lim]. simpl. f_equal.
    apply map_eq. intros j. destruct (decide (ip = j)) as [Heq|Hne].
    + rewrite <- Heq. by rewrite !lookup_insert_eq.
    + by rewrite !lookup_insert_ne, lookup_alter_ne.
  - rewrite lookup_alter_eq, lookup_insert_eq. simpl.
    destruct (Allow (NewLimiter (rps cfg) (cfg_burst cfg)) t_allow) as [ok lim]. simpl.
    f_equal. apply map_eq. intros j. destruct (decide (ip = j)) as [Heq|Hne].
    + rewrite <- Heq. by rewrite !lookup_insert_eq.
    + by rewrite !lookup_insert_ne, lookup_alter_ne, lookup_insert_ne.
Qed.


(** X11. A request changes no entry of the client map but the one of its
    own address: the entry of every other key is as it was, whether the
    request is let through, refused, or its address cannot be split, and
    whether the limiter is enabled or not. *)
Theorem rateLimit_touches_only_its_client
    (SplitHostPort : string -> result (string * string)) (cfg : limiter_config)
    (next : Handler) (clients : gmap string client) (t_seen t_allow : Z)
    (r : Request) (w : ResponseWriter) (other : string) :
  (∀ port, SplitHostPort (RemoteAddr r) ≠ Ok (other, port)) →
  (rateLimit SplitHostPort cfg next clients t_seen t_allow r w).1 !! other
  = clients !! other.
Proof.
  intros Hother. unfold rateLimit.
  destruct (enabled cfg); [|reflexivity].
  destruct (SplitHostPort (RemoteAddr r)) as [[ip port]|err] eqn:Hsplit; [|reflexivity].
  rewrite under_lock_outcome.
  assert (ip ≠ other) as Hne by (intros ->; by apply (Hother port)).
  destruct (negb _); cbn [fst]; by rewrite lookup_insert_ne.
Qed.

Lemma rateLimit_touches_only_its_client_witness :
  (rateLimit split_plain default_limits (fun _ w => Returns w) idle_clients 5 5
             (plain_request ∅ None) blank_writer).1 !! "192.168.1.9"
  = idle_clients !! "192.168.1.9".
Proof.
  apply (rateLimit_touches_only_its_client split_plain default_limits
           (fun _ w => Returns w) idle_clients 5 5 (plain_request ∅ None) blank_writer
           "192.168.1.9").
  intros port H. vm_compute in H. discriminate H.
Defined.









(** X13. Every request that is handled under the mutex, let through or
    refused, stamps the client's entry with the instant it was seen; an
    eviction pass that runs no more than three minutes after that instant
    keeps the entry as it is.  So a client that keeps sending requests is
    never evicted, even if all of them are refused. *)
Theorem handled_request_refreshes_lastSeen
    (SplitHostPort : string -> result (string * string)) (cfg : limiter_config)
    (next : Handler) (clients : gmap string client) (t_seen t_allow now : Z)
    (r : Request) (w : ResponseWriter) (ip port : string) :
  enabled cfg = true →
  SplitHostPort (RemoteAddr r) = Ok (ip, port) →
  let clients' := (rateLimit SplitHostPort cfg next clients t_seen t_allow r w).1 in
  ∃ c, clients' !! ip = Some c ∧ lastSeen c = t_seen
       ∧ (now - t_seen ≤ 3 * Minute → sweep now clients' !! ip = Some c).
Proof.
  intros Hon Hip clients'. unfold clients'.
  rewrite (rateLimit_bucket SplitHostPort cfg next r w ip port Hon Hip). cbn [fst].
  eexists. split; [apply lookup_insert_eq|]. split; [reflexivity|].
  intros Hrecent. apply sweep_keeps_recent_client; [apply lookup_insert_eq|].
  exact Hrecent.
Qed.

Lemma handled_request_refreshes_lastSeen_witness :
  ∃ c, (rateLimit split_plain default_limits (fun _ w => Returns w) idle_clients
                  (4 * Minute) (4 * Minute) (plain_request ∅ None) blank_writer).1
       !! "10.0.0.7" = Some c ∧ lastSeen c = 4 * Minute.
Proof.
  destruct (handled_request_refreshes_lastSeen split_plain default_limits
              (fun _ w => Returns w) idle_clients (4 * Minute) (4 * Minute) 0
              (plain_request ∅ None) blank_writer "10.0.0.7" "4312" eq_refl eq_refl)
    as (c & Hc & Hseen & _).
  exists c. split; [exact Hc | exact Hseen].
Defined.

(** *** Issued credentials meet the format check *)

Lemma string_app_nil_r (s : string) : s ++ "" = s.
Proof.
  induction s as [|c s IH]; [reflexivity|].
  change (String c (s ++ "") = String c s). by rewrite IH.
Qed.

Lemma string_app_assoc (s1 s2 s3 : string) : (s1 ++ s2) ++ s3 = s1 ++ s2 ++ s3.
Proof.
  induction s1 as [|c s1 IH]; [reflexivity|].
  change (String c ((s1 ++ s2) ++ s3) = String c (s1 ++ s2 ++ s3)). by rewrite IH.
Qed.

Lemma split_from_no_sep (sep : ascii) (s : string) :
  Forall (fun c => c ≠ sep) (list_ascii_of_string s) →
  ∀ part, split_from sep s part = [part ++ s].
Proof.
  induction s as [|c s IH]; intros Hall part.
  - cbn [split_from]. by rewrite string_app_nil_r.
  - cbn [list_ascii_of_string] in Hall. inversion Hall as [|? ? Hc Hrest]; subst.
    cbn [split_from]. rewrite bool_decide_eq_false_2 by exact Hc.
    rewrite (IH Hrest), string_app_assoc. reflexivity.
Qed.

Lemma split_from_prefix (sep : ascii) (p : string) :
  Forall (fun c => c ≠ sep) (list_ascii_of_string p) →
  ∀ s part, split_from sep (p ++ String sep s) part = (part ++ p) :: split_from sep s "".
Proof.
  induction p as [|c p IH]; intros Hall s part.
  - change ("" ++ String sep s) with (String sep s). cbn [split_from].
    rewrite bool_decide_eq_true_2 by reflexivity. by rewrite string_app_nil_r.
  - cbn [list_ascii_of_string] in Hall. inversion Hall as [|? ? Hc Hrest]; subst.
    change (String c p ++ String sep s) with (String c (p ++ String sep s)).
    cbn [split_from]. rewrite bool_decide_eq_false_2 by exact Hc.
    rewrite (IH Hrest), string_app_assoc. reflexivity.
Qed.

Lemma alphabet_entry (n : nat) :
  (n < 32)%nat →
  in_alphabet (match String.get n Base32.alphabet with
               | Some c => c
               | None => "A"%char
               end) = true.
Proof.
  intros Hlt.
  do 32 (destruct n as [|n]; [vm_compute; reflexivity|]). lia.
Qed.

Lemma digit_in_alphabet (z : Z) : in_alphabet (Base32.digit z) = true.
Proof.
  unfold Base32.digit. apply alphabet_entry.
  change 31 with (Z.ones 5). rewrite Z.land_ones by lia.
  pose proof (Z.mod_pos_bound z (2 ^ 5)). lia.
Qed.

Lemma group_in_alphabet (v : Z) (count : nat) :
  Forall (fun c => in_alphabet c = true) (Base32.group v count).
Proof.
  unfold Base32.group. induction (seq 0 count) as [|i l IH]; [constructor|].
  cbn [map]. constructor; [apply digit_in_alphabet | exact IH].
Qed.

Lemma digits_in_alphabet (bs : list byte) :
  Forall (fun c => in_alphabet c = true) (Base32.digits bs).
Proof.
  remember (length bs) as n eqn:Hn.
  assert (length bs ≤ n)%nat as Hle by lia. clear Hn. revert bs Hle.
  induction n as [|n IH]; intros bs Hle.
  - destruct bs; [constructor | simpl in Hle; lia].
  - destruct bs as [|a [|b [|c [|d [|e rest]]]]];
      try (constructor; fail); try exact (group_in_alphabet _ _).
    change (Base32.digits (a :: b :: c :: d :: e :: rest))
      with (Base32.group (Base32.join [a; b; c; d; e]) 8 ++ Base32.digits rest)%list.
    apply Forall_app. split; [apply group_in_alphabet|].
    apply IH. simpl in Hle. lia.
Qed.

Lemma EncodeToString_base32 (bs : list byte) : base32_text (Base32.EncodeToString bs).
Proof.
  unfold base32_text, Base32.EncodeToString.
  rewrite list_ascii_of_string_of_list_ascii. apply digits_in_alphabet.
Qed.

Lemma Bearer_presents (tok : string) :
  base32_text tok → String.length tok = 26%nat → presents ("Bearer " ++ tok) tok.
Proof.
  intros Htext Hlen. split; [|exact Hlen].
  unfold strings_Split.
  change ("Bearer " ++ tok) with ("Bearer" ++ String " " tok).
  rewrite split_from_prefix.
  2:{ repeat constructor; discriminate. }
  rewrite split_from_no_sep; [reflexivity|].
  eapply Forall_impl; [exact Htext|].
  intros c Hc ->. vm_compute in Hc. discriminate Hc.
Qed.

(** X14. Every token that [generatedToken] issues consists of characters of
    the base32 alphabet only, and a request that presents it as
    [Authorization: Bearer <plaintext>] passes the format checks of
    [authenticate]: it is never answered as malformed, the plaintext is
    looked up with the authentication scope and the outcome is the one of
    that lookup. *)
Theorem issued_token_passes_format_check
    (now : Z) (supply : result (list byte)) (userID ttl : Z) (scope : string)
    (token : Token) (G : string -> string -> result User) (next : Handler)
    (r : Request) (w : ResponseWriter) :
  generatedToken now supply userID ttl scope = (Some token, None) →
  authorization r = "Bearer " ++ Plaintext token →
  base32_text (Plaintext token)
  ∧ authenticate G next r w =
    match G ScopeAuthentication (Plaintext token) with
    | Err err =>
        if bool_decide (err = ErrRecordNotFound) then rejected w r
        else Returns (serverErrorResponse (Header_Add w "Vary" "Authorization") r err)
    | Ok user =>
        next (contextSetUser r (Registered user)) (Header_Add w "Vary" "Authorization")
    end.
Proof.
  intros Hgen Hhdr.
  assert (∃ bs, length bs = 16%nat ∧ Plaintext token = Base32.EncodeToString bs)
    as (bs & Hlen & Hplain).
  { unfold generatedToken, rand_Read in Hgen.
    destruct supply as [bs|e]; [|discriminate Hgen].
    rewrite repeat_length in Hgen.
    case_bool_decide as Hbs; [|discriminate Hgen].
    injection Hgen as <-. exists (take 16 bs). split; [|reflexivity].
    rewrite length_take. lia. }
  assert (base32_text (Plaintext token)) as Htext
    by (rewrite Hplain; apply EncodeToString_base32).
  split; [exact Htext|].
  apply authenticate_presented. rewrite Hhdr.
  apply Bearer_presents; [exact Htext|].
  rewrite Hplain. by apply encoded_length.
Qed.

Lemma issued_token_passes_format_check_witness :
  base32_text sample_token
  ∧ authenticate (fun _ _ => Err ErrRecordNotFound) (fun _ w => Returns w)
                 (plain_request (bearer sample_token) None) blank_writer
    = rejected blank_writer (plain_request (bearer sample_token) None).
Proof.
  exact (issued_token_passes_format_check 0
           (Ok [x00; x01; x02; x03; x04; x05; x06; x07;
                x08; x09; x0a; x0b; x0c; x0d; x0e; x0f])
           7 100 ScopeAuthentication
           (mkToken sample_token (Sha256.Sum256 (bytes_of sample_token)) 7 100
                    ScopeAuthentication)
           (fun _ _ => Err ErrRecordNotFound) (fun _ w => Returns w)
           (plain_request (bearer sample_token) None) blank_writer
           ltac:(vm_compute; reflexivity) ltac:(vm_compute; reflexivity)).
Defined.

(** *** Permissions: what GetAllForUser returns *)

Lemma collect_spec (scans : list (result string)) :
  ∀ (acc ps : list string),
    Permissions.collect acc scans = Ok ps
    ↔ ∃ read, scans = map Ok read ∧ ps = (acc ++ read)%list.
Proof.
  induction scans as [|[p|e] scans IH]; intros acc ps.
  - cbn [Permissions.collect]. split.
    + intros [= <-]. exists []. by rewrite app_nil_r.
    + intros (read & Hread & ->). destruct read; [|discriminate Hread].
      by rewrite app_nil_r.
  - cbn [Permissions.collect]. rewrite IH. split.
    + intros (read & -> & ->). exists (p :: read). split; [reflexivity|].
      by rewrite <- app_assoc.
    + intros (read & Hread & ->). destruct read as [|q read]; [discriminate Hread|].
      injection Hread as -> ->. exists read. split; [reflexivity|].
      by rewrite <- app_assoc.
  - cbn [Permissions.collect]. split; [discriminate|].
    intros (read & Hread & _). destruct read; discriminate Hread.
Qed.

(** X15. [GetAllForUser] returns a slice of permissions exactly when the
    query succeeded, every row was scanned without error and [rows.Err()]
    reported none; the slice then holds the code of every row, in the order
    of the rows.  In every other case it returns an error and no slice. *)
Theorem GetAllForUser_returns_iff
    (QueryContext : string -> list Value -> result Permissions.Rows)
    (userID : Z) (permissions : list string) :
  Permissions.GetAllForUser QueryContext userID = Ok permissions
  ↔ ∃ rows, QueryContext Permissions.select_query [VInt userID] = Ok rows
            ∧ Permissions.scans rows = map Ok permissions
            ∧ Permissions.rows_Err rows = None.
Proof.
  unfold Permissions.GetAllForUser.
  destruct (QueryContext Permissions.select_query [VInt userID]) as [rows|e].
  2:{ split; [discriminate|]. intros (rows & Hq & _). discriminate Hq. }
  destruct (Permissions.collect [] (Permissions.scans rows)) as [ps|e] eqn:Hc.
  - apply collect_spec in Hc as (read & Hread & ->). cbn [app].
    destruct (Permissions.rows_Err rows) as [e|] eqn:Herr.
    + split; [discriminate|]. intros (rows' & [= <-] & _ & Hnone). congruence.
    + split.
      * intros [= <-]. by exists rows.
      * intros (rows' & [= <-] & Hscans & _). rewrite Hread in Hscans.
        f_equal. clear -Hscans. revert permissions Hscans.
        induction read as [|p read IH]; intros [|q qs] H; try discriminate H;
          [reflexivity|].
        injection H as -> H. f_equal. by apply IH.
  - split; [discriminate|]. intros (rows' & [= <-] & Hscans & _).
    assert (Permissions.collect [] (Permissions.scans rows) = Ok permissions) as Hok
      by (apply collect_spec; by exists permissions).
    congruence.
Qed.

(** *** users.go: the error of a duplicate address *)

Lemma run_stmt_error (rels : gmap string Table) (args : list Value) (st : Stmt) (e : error) :
  run_stmt rels args st = Err e →
  (∃ rel, e = undefined_table rel) ∨ (∃ c, e = undefined_column c)
  ∨ e = bad_expression ∨ e = bad_insert.
Proof.
  destruct st as [rel cols vals|rel sets cond out|rel cond]; cbn [run_stmt];
    (destruct (rels !! rel) as [t|]; [|intros [= <-]; left; by exists rel]);
    (destruct (unknown_column t _) as [c|];
     [intros [= <-]; right; left; by exists c|]).
  - case_bool_decide; [|intros [= <-]; tauto].
    destruct (values args vals); [discriminate | intros [= <-]; tauto].
  - destruct (update_rows args sets cond (rows t)) as [[rs hit]|];
      [discriminate | intros [= <-]; tauto].
  - destruct (delete_rows args cond (rows t)); [discriminate | intros [= <-]; tauto].
Qed.

Lemma store_error_not_duplicate (e : error) :
  (∃ rel, e = undefined_table rel) ∨ (∃ c, e = undefined_column c)
  ∨ e = bad_expression ∨ e = bad_insert →
  Error e ≠ duplicate_email_text ∧ e ≠ ErrDuplicateEmail ∧ e ≠ ErrNoRows.
Proof.
  intros [[rel ->]|[[c ->]|[->| ->]]]; (split; [|split; discriminate]);
    intros H; vm_compute in H; discriminate H.
Qed.

(** X16. [UserModel.Update] returns [ErrDuplicateEmail] exactly when the
    store refuses the statement with the very text the switch compares
    with, which ends after [user_email_key] without a closing quote; no
    other outcome of the statement is turned into that error. *)
Theorem Update_duplicate_email_only_for_exact_text (db : DB) (user : User) :
  (UserModel_Update db user).2 = Some ErrDuplicateEmail
  ↔ refusal db = Some duplicate_email_text.
Proof.
  unfold UserModel_Update, QueryRow, send.
  destruct (refusal db) as [msg|] eqn:Hrefusal.
  - cbn [Error]. case_bool_decide as Hmsg.
    + subst msg. split; reflexivity.
    + cbn. split; [discriminate|]. intros [= ->]. contradiction.
  - split; [|discriminate]. rewrite users_statement.
    destruct (run_stmt (relations db) _ _) as [[rels out]|e] eqn:Hrun.
    + destruct out as [|row out].
      * cbn. discriminate.
      * unfold scan_int. destruct row as [|[] [|? ?]]; cbn; try discriminate.
        destruct (in_int64 z); cbn; discriminate.
    + apply run_stmt_error, store_error_not_duplicate in Hrun as (Htext & Hdup & Hrows).
      cbn. rewrite bool_decide_eq_false_2 by exact Htext.
      rewrite bool_decide_eq_false_2 by exact Hrows. cbn. congruence.
Qed.

(** *** users.go: which users are valid *)

(** X17. For a user with a password hash, [ValidateUser] on a new validator
    leaves it without errors exactly when the name is not empty and at most
    500 bytes long, the address is not empty and matches the pattern, and
    the plaintext of the password, if there is one, is between 8 and 72
    bytes long. *)
Theorem ValidateUser_valid_iff
    (Matches_EmailRX : string -> bool) (user : User) (v : Validator) :
  ValidateUser Matches_EmailRX validator.New user = Returns v →
  (Valid v = true
   ↔ Name user ≠ "" ∧ len (Name user) ≤ 500
     ∧ Email user ≠ "" ∧ Matches_EmailRX (Email user) = true
     ∧ ∀ p, plaintext (Password user) = Some p → 8 ≤ len p ≤ 72).
Proof.
  unfold ValidateUser. destruct (hash (Password user)) as [h|]; [|discriminate].
  intros [= <-].
  assert (Hnew : Valid validator.New = true) by reflexivity.
  destruct (plaintext (Password user)) as [p|].
  - unfold ValidatePasswordPlainText, ValidateEmail. rewrite !Check_valid, Hnew.
    rewrite !andb_true_iff, !negb_true_iff, !bool_decide_eq_false, !Z.leb_le.
    split.
    + intros (Hhi & Hlo & Hp & Hrx & He & Hlen & Hn & _).
      repeat split; try assumption; injection H as <-; assumption.
    + intros (Hn & Hlen & He & Hrx & Hp). specialize (Hp p eq_refl).
      repeat split; try assumption; try lia.
      intros ->. unfold len in Hp. simpl in Hp. lia.
  - unfold ValidateEmail. rewrite !Check_valid, Hnew.
    rewrite !andb_true_iff, !negb_true_iff, !bool_decide_eq_false, !Z.leb_le.
    split.
    + intros (Hrx & He & Hlen & Hn & _). repeat split; try assumption; discriminate.
    + intros (Hn & Hlen & He & Hrx & _). repeat split; assumption.
Qed.

Lemma ValidateUser_valid_iff_witness :
  Valid (mkValidator ∅) = true
  ↔ Name alice ≠ "" ∧ len (Name alice) ≤ 500
    ∧ Email alice ≠ "" ∧ true = true
    ∧ ∀ p, plaintext (Password alice) = Some p → 8 ≤ len p ≤ 72.
Proof.
  exact (ValidateUser_valid_iff (fun _ => true) alice (mkValidator ∅) eq_refl).
Defined.

(** *** helpers.go: the id parameter *)

Lemma decimal_ge (s : string) :
  ∀ n, 0 ≤ n → digits_only s = true → n ≤ decimal n s.
Proof.
  induction s as [|c s IH]; intros n Hn Hd; [reflexivity|].
  cbn [digits_only decimal] in *. apply andb_true_iff in Hd as [Hc Hd].
  unfold is_digit in Hc. apply andb_true_iff in Hc as [Hlo Hhi].
  apply Z.leb_le in Hlo, Hhi.
  specialize (IH (10 * n + (Z.of_N (N_of_ascii c) - 48)) ltac:(lia) Hd). lia.
Qed.

Lemma ParseUint_from_spec (s : string) :
  ∀ n, 0 ≤ n < 2 ^ 64 →
    (digits_only s = true ∧ decimal n s < 2 ^ 64
     ∧ MovieHandlers.ParseUint_from s n = (decimal n s, None))
    ∨ ((digits_only s = false ∨ 2 ^ 64 ≤ decimal n s)
       ∧ (MovieHandlers.ParseUint_from s n = (0, Some MovieHandlers.ErrSyntax)
          ∨ MovieHandlers.ParseUint_from s n
            = (MovieHandlers.maxUint64, Some MovieHandlers.ErrRange))).
Proof.
  induction s as [|c s IH]; intros n Hn.
  { left. cbn. split; [reflexivity|]. split; [lia | reflexivity]. }
  cbn [MovieHandlers.ParseUint_from digits_only decimal]. unfold is_digit.
  set (code := Z.of_N (N_of_ascii c)).
  destruct ((48 <=? code) && (code <=? 57)) eqn:Hd; cbn [andb].
  2:{ right. split; left; reflexivity. }
  apply andb_true_iff in Hd as [Hlo Hhi]. apply Z.leb_le in Hlo, Hhi.
  assert (Hgrow : digits_only s = true → 10 * n + (code - 48) ≤ decimal (10 * n + (code - 48)) s)
    by (apply decimal_ge; lia).
  change (MovieHandlers.maxUint64 / 10 + 1) with 1844674407370955162.
  change (2 ^ 64) with 18446744073709551616 in *.
  destruct (Z.leb_spec 1844674407370955162 n) as [Hbig|Hsmall].
  { right. split; [|right; reflexivity].
    destruct (digits_only s); [right; specialize (Hgrow eq_refl); lia | by left]. }
  unfold MovieHandlers.wrapU64. change (2 ^ 64) with 18446744073709551616.
  rewrite (Z.mod_small (n * 10)) by lia.
  destruct (Z.lt_ge_cases (n * 10 + (code - 48)) 18446744073709551616) as [Hfit|Hover].
  - rewrite (Z.mod_small (n * 10 + (code - 48))) by lia.
    rewrite (proj2 (Z.ltb_ge _ _)) by lia.
    unfold MovieHandlers.maxUint64. change (2 ^ 64 - 1) with 18446744073709551615.
    rewrite (proj2 (Z.ltb_ge _ _)) by lia. cbn [orb].
    replace (10 * n + (code - 48)) with (n * 10 + (code - 48)) by lia.
    apply IH. lia.
  - right. split.
    + destruct (digits_only s); [right; specialize (Hgrow eq_refl); lia | by left].
    + right.
      assert ((n * 10 + (code - 48)) mod 18446744073709551616
              = n * 10 + (code - 48) - 18446744073709551616) as ->.
      { symmetry. apply (Z.mod_unique _ _ 1); lia. }
      rewrite (proj2 (Z.ltb_lt _ _)) by lia. reflexivity.
Qed.

Lemma ParseUint_spec (s : string) :
  (s ≠ "" ∧ digits_only s = true ∧ decimal 0 s < 2 ^ 64
   ∧ MovieHandlers.ParseUint s = (decimal 0 s, None))
  ∨ ((s = "" ∨ digits_only s = false ∨ 2 ^ 64 ≤ decimal 0 s)
     ∧ (MovieHandlers.ParseUint s = (0, Some MovieHandlers.ErrSyntax)
        ∨ MovieHandlers.ParseUint s
          = (MovieHandlers.maxUint64, Some MovieHandlers.ErrRange))).
Proof.
  destruct s as [|c s]; [right; split; left; reflexivity|].
  change (MovieHandlers.ParseUint (String c s))
    with (MovieHandlers.ParseUint_from (String c s) 0).
  destruct (ParseUint_from_spec (String c s) 0 ltac:(lia)) as [(Hd & Hlt & ->)|[Hbad Hres]].
  - left. repeat split; [discriminate | exact Hd | exact Hlt].
  - right. split; [right; exact Hbad | exact Hres].
Qed.

Lemma signed_body_accepts (neg : bool) (body : string) (id : Z) :
  1 ≤ id →
  (match MovieHandlers.ParseUint body with
   | (_, Some MovieHandlers.ErrSyntax) => (0, Some MovieHandlers.ErrSyntax)
   | (un, _) =>
       let cutoff := 2 ^ 63 in
       if negb neg && (cutoff <=? un) then (cutoff - 1, Some MovieHandlers.ErrRange)
       else if neg && (cutoff <? un) then (- cutoff, Some MovieHandlers.ErrRange)
       else (if neg then - un else un, None)
   end = (id, None)
   ↔ neg = false ∧ body ≠ "" ∧ digits_only body = true
     ∧ decimal 0 body = id ∧ id < 2 ^ 63).
Proof.
  intros Hid.
  change (2 ^ 63) with 9223372036854775808.
  destruct (ParseUint_spec body) as [(Hne & Hd & Hlt & ->)|[Hbad [->| ->]]].
  - pose proof (decimal_ge body 0 ltac:(lia) Hd) as Hpos.
    cbv zeta. destruct neg; cbn [negb andb].
    + destruct (9223372036854775808 <? decimal 0 body).
      * split; [discriminate | intros [H _]; discriminate H].
      * split; [intros [= H]; lia | intros [H _]; discriminate H].
    + destruct (Z.leb_spec 9223372036854775808 (decimal 0 body)) as [Hbig|Hfit].
      * split; [discriminate | intros (_ & _ & _ & Hval & Hlt'); lia].
      * split; [intros [= H]; repeat split; assumption || lia
               | intros (_ & _ & _ & Hval & _); by rewrite Hval].
  - split; [discriminate|]. intros (_ & Hne & Hd & Hval & Hlt).
    change (2 ^ 64) with 18446744073709551616 in Hbad.
    destruct Hbad as [Hb|[Hb|Hb]]; [contradiction | congruence | lia].
  - cbv zeta. unfold MovieHandlers.maxUint64.
    change (2 ^ 64 - 1) with 18446744073709551615.
    change (2 ^ 64) with 18446744073709551616 in Hbad.
    destruct neg; cbn.
    + split; [discriminate | intros [H _]; discriminate H].
    + split; [discriminate|]. intros (_ & Hne & Hd & Hval & Hlt).
      destruct Hbad as [Hb|[Hb|Hb]]; [contradiction | congruence | lia].
Qed.

Lemma plus_is_no_digit (s : string) : digits_only (String "+" s) = false.
Proof. reflexivity. Qed.

Lemma minus_is_no_digit (s : string) : digits_only (String "-" s) = false.
Proof. reflexivity. Qed.

Lemma ParseInt_accepts (s : string) (id : Z) :
  1 ≤ id →
  (MovieHandlers.ParseInt s = (id, None) ↔ numeral_of s id ∧ id < 2 ^ 63).
Proof.
  intros Hid. destruct s as [|c rest].
  { split; [discriminate|]. intros [(ds & [H|H] & Hne & _) _];
      [by subst ds | discriminate H]. }
  unfold MovieHandlers.ParseInt.
  set (neg := bool_decide (c = "-"%char)).
  set (body := if bool_decide (c = "+"%char) || neg then rest else String c rest).
  rewrite (signed_body_accepts neg body id Hid). unfold numeral_of, body, neg.
  destruct (decide (c = "+"%char)) as [->|Hplus].
  { rewrite (bool_decide_eq_true_2 ("+"%char = "+"%char)) by reflexivity.
    rewrite (bool_decide_eq_false_2 ("+"%char = "-"%char)) by discriminate.
    cbn [orb]. split.
    - intros (_ & Hne & Hd & Hval & Hlt). split; [|exact Hlt].
      exists rest. repeat split; try assumption. by right.
    - intros [(ds & [H|H] & Hne & Hd & Hval) Hlt].
      + subst ds. rewrite plus_is_no_digit in Hd. discriminate Hd.
      + injection H as <-. repeat split; assumption. }
  rewrite (bool_decide_eq_false_2 (c = "+"%char)) by exact Hplus. cbn [orb].
  destruct (decide (c = "-"%char)) as [->|Hminus].
  { rewrite (bool_decide_eq_true_2 ("-"%char = "-"%char)) by reflexivity. split.
    - intros [H _]; discriminate H.
    - intros [(ds & [H|H] & Hne & Hd & Hval) Hlt]; [|discriminate H].
      subst ds. rewrite minus_is_no_digit in Hd. discriminate Hd. }
  rewrite bool_decide_eq_false_2 by exact Hminus. split.
  - intros (_ & Hne & Hd & Hval & Hlt). split; [|exact Hlt].
    exists (String c rest). repeat split; try assumption. by left.
  - intros [(ds & [H|H] & Hne & Hd & Hval) Hlt].
    + subst ds. repeat split; assumption.
    + injection H as H _. contradiction.
Qed.

(** X18. [readIDParam] returns an id (and no error) exactly for a parameter
    "id" that is a non-empty string of decimal digits, with or without a
    leading plus sign, whose value is that id and lies between 1 and
    2^63 - 1: the overflow checks of the parser cut off exactly the numbers
    that do not fit.  The id returned is therefore never below 1. *)
Theorem readIDParam_accepts_iff (params : MovieHandlers.Params) (id : Z) :
  MovieHandlers.readIDParam params = (id, None)
  ↔ numeral_of (MovieHandlers.ByName params "id") id ∧ 1 ≤ id < 2 ^ 63.
Proof.
  unfold MovieHandlers.readIDParam.
  destruct (MovieHandlers.ParseInt (MovieHandlers.ByName params "id")) as [n err] eqn:Hparse.
  split.
  - destruct err as [e|].
    + rewrite bool_decide_eq_true_2 by discriminate. discriminate.
    + rewrite bool_decide_eq_false_2 by (intros H; by apply H). cbn [orb].
      destruct (Z.ltb_spec n 1) as [Hlow|Hge]; [discriminate|].
      intros [= <-]. apply (ParseInt_accepts _ n Hge) in Hparse as [Hnum Hlt].
      split; [exact Hnum | lia].
  - intros [Hnum [Hge Hlt]].
    assert (MovieHandlers.ParseInt (MovieHandlers.ByName params "id") = (id, None)) as Hok
      by (by apply ParseInt_accepts).
    rewrite Hok in Hparse. injection Hparse as <- <-.
    rewrite bool_decide_eq_false_2 by (intros H; by apply H). cbn [orb].
    by rewrite (proj2 (Z.ltb_ge id 1)) by lia.
Qed.

(** *** movies.go: deleteMovieHandler *)

(** X19. [deleteMovieHandler] on a store that answers and has the movies
    relation.  With a valid id parameter it removes exactly the rows of
    that id and answers 200 with the success message when there was such a
    row, and the 404 response when there was none; with an invalid id
    parameter it answers the 404 response without sending anything to the
    store.  It never answers with a server error. *)
Theorem deleteMovieHandler_outcome
    (db : DB) (params : MovieHandlers.Params) (r : Request) (w : ResponseWriter)
    (t : Table) :
  has_relation db "movies" movies_columns t →
  match MovieHandlers.readIDParam params with
  | (id, None) =>
      MovieHandlers.deleteMovieHandler db params r w
      = (mkDB (<["movies" := mkTable (columns t)
                               (filter (fun row => field row "id" ≠ VInt id) (rows t))]>
                 (relations db))
              (journal db ++ [(MovieRecords.delete_query, [VInt id])]) (refusal db),
         if decide (Exists (fun row => field row "id" = VInt id) (rows t))
         then writeJSON w 200 [("message", Text "Movie successfully deleted")]
         else MovieHandlers.notFoundResponse w r)
  | (_, Some _) =>
      MovieHandlers.deleteMovieHandler db params r w
      = (db, MovieHandlers.notFoundResponse w r)
  end.
Proof.
  intros Hhas. unfold MovieHandlers.deleteMovieHandler.
  destruct (MovieHandlers.readIDParam params) as [id [msg|]] eqn:Hread; [reflexivity|].
  assert (1 ≤ id) as Hid.
  { unfold MovieHandlers.readIDParam in Hread.
    destruct (MovieHandlers.ParseInt _) as [n err].
    destruct (bool_decide (err ≠ None)); [discriminate Hread|]. cbn [orb] in Hread.
    destruct (Z.ltb_spec n 1); [discriminate Hread|]. injection Hread as <-. lia. }
  rewrite (Delete_outcome db id t Hhas Hid).
  destruct (decide (Exists _ (rows t))); reflexivity.
Qed.

Lemma deleteMovieHandler_outcome_witness :
  status (MovieHandlers.deleteMovieHandler catalogue [("id", "1")]
            (plain_request ∅ None) blank_writer).2 = Some 200
  ∧ status (MovieHandlers.deleteMovieHandler catalogue [("id", "2")]
              (plain_request ∅ None) blank_writer).2 = Some 404.
Proof.
  assert (has_relation catalogue "movies" movies_columns
            (mkTable movies_columns [movie_row casablanca])) as Hhas.
  { split; [reflexivity|]. split; [vm_compute; reflexivity|]. intros c Hc. exact Hc. }
  pose proof (deleteMovieHandler_outcome catalogue [("id", "1")] (plain_request ∅ None)
                blank_writer _ Hhas) as H1.
  pose proof (deleteMovieHandler_outcome catalogue [("id", "2")] (plain_request ∅ None)
                blank_writer _ Hhas) as H2.
  replace (MovieHandlers.readIDParam [("id", "1")]) with (1, @None string) in H1
    by (vm_compute; reflexivity).
  replace (MovieHandlers.readIDParam [("id", "2")]) with (2, @None string) in H2
    by (vm_compute; reflexivity).
  cbv beta iota in H1, H2. rewrite H1, H2. split; vm_compute; reflexivity.
Defined.

(** *** users.go: GetByEmail *)

Lemma users_get_statement :
  SqlQuery.is_select UserRecords.get_by_email_query = true
  ∧ SqlQuery.parse_select (lex UserRecords.get_by_email_query)
    = Ok (SqlQuery.mkSelect users_columns "users" [("email", EParam 1)]).
Proof. split; vm_compute; reflexivity. Qed.

Lemma holds_email (email : string) (row : gmap string Value) :
  holds [VText email] row [("email", EParam 1)]
  = Some (bool_decide (field row "email" = VText email)).
Proof.
  simpl. f_equal. rewrite andb_true_r. apply bool_decide_ext. intuition discriminate.
Qed.

Lemma select_rows_email (email : string) (rs : list (gmap string Value)) :
  SqlQuery.select_rows [VText email] [("email", EParam 1)] rs
  = Some (filter (fun row => field row "email" = VText email) rs).
Proof.
  induction rs as [|r rs IH]; [reflexivity|].
  cbn [SqlQuery.select_rows]. rewrite holds_email, IH.
  case_bool_decide as Hr.
  - rewrite filter_cons_True by exact Hr. reflexivity.
  - rewrite filter_cons_False by exact Hr. reflexivity.
Qed.

Lemma select_by_email (db : DB) (email : string) (t : Table) :
  has_relation db "users" users_columns t →
  SqlQuery.QueryRow_any db UserRecords.get_by_email_query [VText email]
  = (mkDB (relations db)
          (journal db ++ [(UserRecords.get_by_email_query, [VText email])]) (refusal db),
     match filter (fun row => field row "email" = VText email) (rows t) with
     | row :: _ => Ok (map (field row) users_columns)
     | [] => Err ErrNoRows
     end).
Proof.
  intros (Hup & Hrel & Hcols).
  destruct users_get_statement as [Hsel Hparse].
  unfold SqlQuery.QueryRow_any, SqlQuery.send_any. rewrite Hsel, Hup, Hparse.
  unfold SqlQuery.run_select. cbn [SqlQuery.sel_relation SqlQuery.sel_columns
                                   SqlQuery.sel_cond].
  rewrite Hrel, unknown_column_none.
  2:{ intros c Hc. apply Hcols. revert Hc. cbn. unfold users_columns.
      rewrite !elem_of_cons. intuition. }
  rewrite select_rows_email.
  destruct (filter _ (rows t)) as [|row rest]; reflexivity.
Qed.

Lemma scan_user_row_not_missing (vs : list Value) :
  UserRecords.scan_user_row vs ≠ Err ErrNoRows
  ∧ UserRecords.scan_user_row vs ≠ Err ErrRecordNotFound.
Proof.
  unfold UserRecords.scan_user_row.
  repeat (match goal with
          | |- context [match ?x with _ => _ end] => destruct x
          end; try (split; discriminate)).
Qed.

Lemma scan_stored_user (u : User) :
  user_as_stored u →
  UserRecords.scan_user_row (map (field (user_row u)) users_columns) = Ok u.
Proof.
  intros (Hid & Hver & Hplain).
  destruct u as [id created name email [plain h] activated version].
  cbn in Hid, Hver, Hplain. subst plain.
  change (map (field (user_row _)) users_columns)
    with [VInt id; VTime created; VText name; VText email;
          hash_value (mkPassword None h); VBool activated; VInt version].
  destruct h as [bs|]; cbn; rewrite Hid, Hver; reflexivity.
Qed.

(** X20. [UserModel.GetByEmail] on a store that answers and has the users
    relation: it leaves the relations alone; it returns [ErrRecordNotFound]
    if and only if no stored row has that address; and a user stored as the
    first row of that address is returned field by field, the password with
    its hash and without plaintext. *)
Theorem GetByEmail_outcome (db : DB) (email : string) (t : Table) :
  has_relation db "users" users_columns t →
  relations (UserRecords.UserModel_GetByEmail db email).1 = relations db
  ∧ ((UserRecords.UserModel_GetByEmail db email).2 = Err ErrRecordNotFound
     ↔ without_email (rows t) email)
  ∧ ∀ (u : User) (before after : list (gmap string Value)),
      rows t = (before ++ user_row u :: after)%list →
      Email u = email → without_email before email → user_as_stored u →
      (UserRecords.UserModel_GetByEmail db email).2 = Ok u.
Proof.
  intros Hhas. unfold UserRecords.UserModel_GetByEmail.
  rewrite (select_by_email db email t Hhas).
  destruct (filter (fun row => field row "email" = VText email) (rows t))
    as [|row rest] eqn:Hf.
  - cbn. split; [reflexivity|]. split.
    + split; [|reflexivity]. intros _ row Hin Hrow.
      by apply (filter_nil_not_elem_of (fun row => field row "email" = VText email)
                  (rows t) row Hf Hrow).
    + intros u before after Hrows Hu Hbefore Hstored. exfalso.
      apply (filter_nil_not_elem_of (fun row => field row "email" = VText email)
               (rows t) (user_row u) Hf).
      * rewrite <- Hu. reflexivity.
      * rewrite Hrows. apply elem_of_app. right. left.
  - assert (Hhere : row ∈ rows t ∧ field row "email" = VText email).
    { assert (row ∈ filter (fun row => field row "email" = VText email) (rows t)) as Hin
        by (rewrite Hf; left).
      apply list_elem_of_filter in Hin. tauto. }
    destruct (scan_user_row_not_missing (map (field row) users_columns)) as [Hn1 Hn2].
    split; [|split].
    + destruct (UserRecords.scan_user_row _) as [u|e]; [reflexivity|].
      destruct (bool_decide (e = ErrNoRows)); reflexivity.
    + destruct (UserRecords.scan_user_row _) as [u|e].
      * cbn. split; [discriminate|]. intros Hno. exfalso.
        destruct Hhere as [Hin Hrow]. by apply (Hno row).
      * rewrite bool_decide_eq_false_2 by congruence. cbn. split.
        -- intros [= ->]. contradiction.
        -- intros Hno. exfalso. destruct Hhere as [Hin Hrow]. by apply (Hno row).
    + intros u before after Hrows Hu Hbefore Hstored.
      rewrite Hrows, filter_app in Hf.
      rewrite (filter_none _ before) in Hf by exact Hbefore.
      rewrite filter_cons_True in Hf by (rewrite <- Hu; reflexivity).
      cbn [app] in Hf. injection Hf as <- _.
      rewrite (scan_stored_user u Hstored). reflexivity.
Qed.

Lemma GetByEmail_outcome_witness :
  (UserRecords.UserModel_GetByEmail catalogue "alice@example.com").2 = Ok alice
  ∧ (UserRecords.UserModel_GetByEmail catalogue "bob@example.com").2
    = Err ErrRecordNotFound.
Proof.
  assert (has_relation catalogue "users" users_columns
            (mkTable users_columns [user_row alice])) as Hhas.
  { split; [reflexivity|]. split; [vm_compute; reflexivity|]. intros c Hc. exact Hc. }
  split.
  - destruct (GetByEmail_outcome catalogue "alice@example.com" _ Hhas) as (_ & _ & Hfound).
    apply (Hfound alice [] []); [reflexivity | reflexivity | |].
    + intros row Hin. inversion Hin.
    + repeat split.
  - destruct (GetByEmail_outcome catalogue "bob@example.com" _ Hhas) as (_ & Hiff & _).
    apply Hiff. intros row Hin. apply list_elem_of_singleton in Hin as ->.
    vm_compute. discriminate.
Defined.

(** *** filters.go: column and direction *)

Lemma substring_all (s : string) : String.substring 0 (String.length s) s = s.
Proof.
  induction s as [|c s IH]; [reflexivity|].
  cbn [String.length String.substring]. by rewrite IH.
Qed.

Lemma sortColumn_from_returns (sort col : string) (safe : list string) :
  Filters.sortColumn_from sort safe = Returns col → col = Filters.TrimPrefix sort "-".
Proof.
  induction safe as [|x safe IH]; [discriminate|].
  cbn [Filters.sortColumn_from]. case_bool_decide; [intros [= <-]; reflexivity | exact IH].
Qed.

(** X21. The column and the direction that the query builder takes from the
    sort value lose nothing of it: when [sortColumn] returns a column, the
    sort value is that column, preceded by "-" exactly when [sortDirection]
    is "DESC"; only one leading "-" is taken off. *)
Theorem sort_value_is_direction_and_column (f : Filters.Filters) (col : string) :
  Filters.sortColumn f = Returns col →
  (Filters.sortDirection f = "DESC" ∨ Filters.sortDirection f = "ASC")
  ∧ Filters.Sort f
    = (if bool_decide (Filters.sortDirection f = "DESC") then "-" else "") ++ col.
Proof.
  unfold Filters.sortColumn. intros Hcol. apply sortColumn_from_returns in Hcol.
  subst col. unfold Filters.sortDirection, Filters.TrimPrefix, Filters.HasPrefix.
  destruct (Filters.Sort f) as [|c s]; [split; [by right | reflexivity]|].
  cbn [String.prefix]. destruct (ascii_dec "-" c) as [<-|Hc].
  - replace (String.prefix "" s) with true by (by destruct s).
    split; [by left|]. rewrite bool_decide_eq_true_2 by reflexivity.
    change (String.length "-") with 1%nat.
    change (String.length (String "-" s) - 1)%nat with (String.length s - 0)%nat.
    rewrite Nat.sub_0_r.
    change (String.substring 1 (String.length s) (String "-" s))
      with (String.substring 0 (String.length s) s).
    by rewrite substring_all.
  - split; [by right|]. rewrite bool_decide_eq_false_2 by discriminate. reflexivity.
Qed.

Lemma sort_value_is_direction_and_column_witness :
  (Filters.sortDirection (Filters.mkFilters 1 20 "-year" ["id"; "-year"]) = "DESC"
   ∨ Filters.sortDirection (Filters.mkFilters 1 20 "-year" ["id"; "-year"]) = "ASC")
  ∧ "-year"
    = (if bool_decide (Filters.sortDirection (Filters.mkFilters 1 20 "-year" ["id"; "-year"])
                       = "DESC") then "-" else "") ++ "year".
Proof.
  exact (sort_value_is_direction_and_column
           (Filters.mkFilters 1 20 "-year" ["id"; "-year"]) "year"
           ltac:(vm_compute; reflexivity)).
Defined.
